(** * Numerical option pricing: the four pricing routines

    A shallow embedding of [FinDiffCall], [MCCall], [CRRCall] and
    [BlackScholesCall] (with [d1] and [d2]) from
    [Numerical_Option_Pricing.ipynb].

    Numbers.  [FinDiffCall] only adds, subtracts, multiplies, divides,
    compares and takes a floor, so its Python numbers are modelled by exact
    rationals [Q] (rounding of binary floating point is left out); the step
    counts [N] and [M] are Python integers, modelled by [Z].  Where rounding
    decides what the code does (the guard, the column of the final read,
    the exceptions of the scalar code) a second model, [FinDiffCall_b64],
    runs the scalar code on binary64 numbers and keeps the grid exact.
    [MCCall] needs [exp] and [sqrt] and is modelled over the reals.
    [CRRCall] and [BlackScholesCall] reach NumPy's [inf] and [nan] on
    ordinary inputs (a zero maturity, a zero volatility), so their values
    are real numbers extended by the two infinities and [nan].

    Effects.  The grid [c] is a Python list of lists that is updated in
    place; it is threaded through the loops as an explicit state, for
    [FinDiffCall] together with the log of every subscript [c[i][j]] that
    was evaluated.  Python exceptions are values of an error type.  The
    random draws of [MCCall] and SciPy's distribution function in
    [BlackScholesCall] are arguments of the model. *)

From Stdlib Require Import PrimFloat SpecFloat FloatOps FloatAxioms.
From Stdlib Require Import ZArith QArith Qround Qabs Qminmax Reals Lia Psatz String.
From Stdlib Require Uint63.
From stdpp Require Import base tactics option list list_numbers.

Local Open Scope Z_scope.

(** ** Python values and exceptions *)

Inductive exn : Set :=
| ZeroDivisionError
| IndexError
| ValueError
| OverflowError.

Inductive result (A : Type) : Type :=
| Ok (a : A)
| Raise (e : exn).
Arguments Ok {A} a.
Arguments Raise {A} e.

Definition bind {A B : Type} (m : result A) (k : A -> result B) : result B :=
  match m with
  | Ok a => k a
  | Raise e => Raise e
  end.

Notation "'do' x <- m ; k" := (bind m (fun x => k))
  (at level 10, x name, m at level 100, k at level 200).
Notation "'do' ' p <- m ; k" := (bind m (fun x => match x with p => k end))
  (at level 10, p pattern, m at level 100, k at level 200).

(** What [FinDiffCall] hands back: a number, or the string it returns in
    place of one. *)
Inductive pyval : Type :=
| Num (q : Q)
| Str (s : string).

Definition time_resolution_message : string :=
  "time resolution is not great enough".

(** [x / y] on numbers: division by zero raises. *)
Definition truediv (x y : Q) : result Q :=
  if Qeq_bool y 0 then Raise ZeroDivisionError else Ok (x / y)%Q.

(** [max(x, y)] of two arguments: the second one only when it is strictly
    greater. *)
Definition py_max (x y : Q) : Q :=
  if Qlt_le_dec x y then y else x.

(** [x > y] *)
Definition gt_bool (x y : Q) : bool :=
  if Qlt_le_dec y x then true else false.

(** [range(lo, hi)] *)
Definition range (lo hi : Z) : list Z := seqZ lo (hi - lo).

(** Subscript normalisation of a Python sequence of length [len]: indices
    [-len .. -1] count from the end, anything outside [-len .. len-1]
    raises. *)
Definition index (len : nat) (i : Z) : result nat :=
  if 0 <=? i then
    if i <? Z.of_nat len then Ok (Z.to_nat i) else Raise IndexError
  else
    if - Z.of_nat len <=? i then Ok (Z.to_nat (Z.of_nat len + i))
    else Raise IndexError.

(** ** The grid and its access log *)

Record state : Type := mkState {
  c : list (list Q);
  accesses : list (Z * Z)   (* subscripts evaluated so far, latest first *)
}.

Definition look (g : list (list Q)) (i j : nat) : Q :=
  default 0%Q (g !! i ≫= fun row => row !! j).

Definition upd (g : list (list Q)) (i j : nat) (v : Q) : list (list Q) :=
  match g !! i with
  | Some row => <[i := <[j := v]> row]> g
  | None => g
  end.

(** [c[i][j]] as an expression *)
Definition getitem (i j : Z) (s : state) : result (Q * state) :=
  do ri <- index (length (c s)) i ;
  let row := default [] (c s !! ri) in
  do cj <- index (length row) j ;
  Ok (look (c s) ri cj, mkState (c s) ((i, j) :: accesses s)).

(** [c[i][j] = v] *)
Definition setitem (i j : Z) (v : Q) (s : state) : result state :=
  do ri <- index (length (c s)) i ;
  let row := default [] (c s !! ri) in
  do cj <- index (length row) j ;
  Ok (mkState (upd (c s) ri cj v) ((i, j) :: accesses s)).

(** [for x in l: body] *)
Fixpoint for_ {A : Type} (l : list A) (body : A -> state -> result state)
  (s : state) : result state :=
  match l with
  | [] => Ok s
  | x :: l' => do s' <- body x s ; for_ l' body s'
  end.

(** ** FinDiffCall *)

(** [[[0 for j in range(M+1)] for i in range(N+1)]] *)
Definition alloc (N M : Z) : list (list Q) :=
  (fun _ => (fun _ => 0%Q) <$> range 0 (M + 1)) <$> range 0 (N + 1).

Definition payoff (delta_S K : Q) (j : Z) : Q :=
  py_max (inject_Z j * delta_S - K) 0.

(** The right-hand side of the interior update, with [a], [b], [d] the
    values read at [c[i-1][j-1]], [c[i-1][j]] and [c[i-1][j+1]]. *)
Definition explicit_step (r sigma delta_t : Q) (j : Z) (a b d : Q) : Q :=
  ((1#2) * a * inject_Z j * delta_t * (sigma ^ 2 * inject_Z j - r)
   + b * (1 - r * delta_t - sigma ^ 2 * inject_Z j ^ 2 * delta_t)
   + (1#2) * d * inject_Z j * delta_t * (sigma ^ 2 * inject_Z j + r))%Q.

(** [for j in range(M+1): c[0][j] = max(j*delta_S - K, 0)] *)
Definition set_payoff (delta_S K : Q) (M : Z) : state -> result state :=
  for_ (range 0 (M + 1)) (fun j => setitem 0 j (payoff delta_S K j)).

(** [for i in range(N+1): c[i][0] = 0; c[i][M] = S_max] *)
Definition set_boundary (S_max : Q) (N M : Z) : state -> result state :=
  for_ (range 0 (N + 1)) (fun i s =>
    do s1 <- setitem i 0 0%Q s ; setitem i M S_max s1).

(** The body of the innermost loop. *)
Definition update_cell (r sigma delta_t : Q) (i j : Z) (s : state)
  : result state :=
  do '(a, s1) <- getitem (i - 1) (j - 1) s ;
  do '(b, s2) <- getitem (i - 1) j s1 ;
  do '(d, s3) <- getitem (i - 1) (j + 1) s2 ;
  setitem i j (explicit_step r sigma delta_t j a b d) s3.

(** [for i in range(1, N+1): for j in range(1, M): c[i][j] = ...] *)
Definition recurrence (r sigma delta_t : Q) (N M : Z)
  : state -> result state :=
  for_ (range 1 (N + 1)) (fun i =>
    for_ (range 1 M) (fun j => update_cell r sigma delta_t i j)).

(** Grid allocation and the two initialisation loops. *)
Definition initialise (S_max delta_S K : Q) (N M : Z) : result state :=
  do s1 <- set_payoff delta_S K M (mkState (alloc N M) []) ;
  set_boundary S_max N M s1.

(** [c[N][math.floor(S0/delta_S)]]: the row is subscripted first, then the
    column expression is evaluated. *)
Definition read_result (S0 delta_S : Q) (N : Z) (s : state)
  : result (Q * state) :=
  do _ <- index (length (c s)) N ;
  do q <- truediv S0 delta_S ;
  getitem N (Qfloor q) s.

(** The three derived constants, in the order the code computes them. *)
Definition derived (S0 T : Q) (N M : Z) : result (Q * Q * Q) :=
  do delta_t <- truediv T (inject_Z N) ;
  let S_max := (5 * S0)%Q in
  do delta_S <- truediv S_max (inject_Z M) ;
  Ok (delta_t, S_max, delta_S).

Definition stability_divisor (r sigma : Q) (M : Z) : Q :=
  (sigma ^ 2 * inject_Z (M - 1) + (1#2) * r)%Q.

(** The condition of the [if]: [delta_t > 1/(sigma**2*(M-1) + 0.5*r)]. *)
Definition unstable (r sigma delta_t : Q) (M : Z) : result bool :=
  do bound <- truediv 1 (stability_divisor r sigma M) ;
  Ok (gt_bool delta_t bound).

(** The whole function, returning the final state next to the value; the
    state is the empty one when the function returns before the grid
    exists. *)
Definition FinDiffCall_run (S0 K r sigma T : Q) (N M : Z)
  : result (pyval * state) :=
  do '(delta_t, S_max, delta_S) <- derived S0 T N M ;
  do u <- unstable r sigma delta_t M ;
  if u then Ok (Str time_resolution_message, mkState [] [])
  else
    do s1 <- initialise S_max delta_S K N M ;
    do s2 <- recurrence r sigma delta_t N M s1 ;
    do '(v, s3) <- read_result S0 delta_S N s2 ;
    Ok (Num v, s3).

Definition FinDiffCall (S0 K r sigma T : Q) (N M : Z) : result pyval :=
  do '(v, _) <- FinDiffCall_run S0 K r sigma T N M ; Ok v.

(** A reduced form of a returned number, for reading test values. *)
Definition normal (v : result pyval) : result pyval :=
  match v with
  | Ok (Num q) => Ok (Num (Qred q))
  | other => other
  end.

(** ** Notions used to state the properties *)

(** [N+1] rows of [M+1] cells each. *)
Definition dims (N M : Z) (g : list (list Q)) : Prop :=
  length g = Z.to_nat (N + 1) /\
  Forall (fun row : list Q => length row = Z.to_nat (M + 1)) g.

(** A subscript pair inside the grid. *)
Definition in_bounds (N M : Z) (p : Z * Z) : Prop :=
  (0 <= p.1 <= N) /\ (0 <= p.2 <= M).

Definition good (N M : Z) (s : state) : Prop :=
  dims N M (c s) /\ Forall (in_bounds N M) (accesses s).

(** The cell [c[i][j]] of a state, for subscripts given as integers. *)
Definition cell (s : state) (i j : Z) : Q :=
  look (c s) (Z.to_nat i) (Z.to_nat j).

(** The state after a successful [c[i][j] = v]. *)
Definition stored (s : state) (i j : Z) (v : Q) : state :=
  mkState (upd (c s) (Z.to_nat i) (Z.to_nat j) v) ((i, j) :: accesses s).

(** Row 0 once both initialisation loops have run: the payoff, with the
    two end columns overwritten by the boundary loop. *)
Definition initial_row (S_max delta_S K : Q) (M j : Z) : Q :=
  if decide (j = 0) then 0%Q
  else if decide (j = M) then S_max
  else payoff delta_S K j.

(** Row [i] of the finished grid, as a function of the row before it. *)
Fixpoint grid_value (S_max delta_S K r sigma delta_t : Q) (M : Z)
  (i : nat) (j : Z) : Q :=
  match i with
  | O => initial_row S_max delta_S K M j
  | S i' =>
      if decide (j = 0) then 0%Q
      else if decide (j = M) then S_max
      else explicit_step r sigma delta_t j
             (grid_value S_max delta_S K r sigma delta_t M i' (j - 1))
             (grid_value S_max delta_S K r sigma delta_t M i' j)
             (grid_value S_max delta_S K r sigma delta_t M i' (j + 1))
  end.

(** The two boundary columns hold their values on every row. *)
Definition boundary (S_max : Q) (N M : Z) (s : state) : Prop :=
  forall i, 0 <= i <= N -> cell s i 0 = 0%Q /\ cell s i M = S_max.

(** The inequality the code tests, on the values it computes. *)
Definition stable (r sigma T : Q) (N M : Z) : Prop :=
  (T / inject_Z N <= 1 / stability_divisor r sigma M)%Q.

(** The cells the recurrence writes, in the order it writes them. *)
Definition interior_steps (N M : Z) : list (Z * Z) :=
  flat_map (fun i => map (fun j => (i, j)) (range 1 M)) (range 1 (N + 1)).

(** Every subscript a call evaluates on a grid, in the order of evaluation,
    when the value is read at column [j0]: the payoff loop, the boundary
    loop, the recurrence (three reads of the row above, then the write)
    and the final read. *)
Definition access_sequence (N M j0 : Z) : list (Z * Z) :=
  flat_map (fun j => [(0, j)]) (range 0 (M + 1))
  ++ flat_map (fun i => [(i, 0); (i, M)]) (range 0 (N + 1))
  ++ flat_map (fun p : Z * Z =>
       [(p.1 - 1, p.2 - 1); (p.1 - 1, p.2); (p.1 - 1, p.2 + 1); (p.1, p.2)])
       (interior_steps N M)
  ++ [(N, j0)].

(** The update as a polynomial in the column position [x]. *)
Definition weighted (r sigma delta_t x a b d : Q) : Q :=
  ((1 - r * delta_t) * b + (1#2) * r * x * delta_t * (d - a)
   + (1#2) * sigma ^ 2 * x ^ 2 * delta_t * (a - 2 * b + d))%Q.

(** A row is convex when its second differences at the interior columns
    are non-negative. *)
Definition convex_row (M : Z) (v : Z -> Q) : Prop :=
  forall j, 1 <= j <= M - 1 ->
    (0 <= v (j - 1)%Z - 2 * v j + v (j + 1)%Z)%Q.

(** A call that hands back a number. *)
Definition returns_number (v : result pyval) : Prop :=
  exists p, v = Ok (Num p).

(** The stability guard read as a dichotomy over all inputs: a number exactly
    when [T/N <= 1/(sigma^2*(M-1) + 0.5*r)], and otherwise the message,
    returned before any grid exists. *)
Definition stability_dichotomy (S0 K r sigma T : Q) (N M : Z) : Prop :=
  (returns_number (FinDiffCall S0 K r sigma T N M)
   <-> (T / inject_Z N
        <= 1 / (sigma ^ 2 * inject_Z (M - 1) + (1#2) * r))%Q) /\
  (~ (T / inject_Z N <= 1 / (sigma ^ 2 * inject_Z (M - 1) + (1#2) * r))%Q ->
   FinDiffCall_run S0 K r sigma T N M
   = Ok (Str time_resolution_message, mkState [] [])).

(** A call stopped before the stability test: the only code ahead of the
    test is the computation of the derived constants. *)
Definition stopped_before_test (S0 T : Q) (N M : Z) : Prop :=
  exists e, derived S0 T N M = Raise e.

(** ** FinDiffCall with its scalar code on binary64 numbers *)

(** The exact-arithmetic model above leaves rounding out.  Rounding decides
    which way the code goes in two places, the guard and the column of the
    final read, and [math.pow] and the conversion of an integer operand can
    raise OverflowError.  [FinDiffCall_b64] evaluates the scalar code on
    binary64 numbers, operation by operation; the numbers stored in the
    grid stay exact and are computed from the values of the binary64
    scalars.  The arguments [S0], [K], [r], [sigma] and [T] are floats (an
    integer argument of ordinary size behaves as the float of that value).
    [math.pow] is the C library's [pow], whose last bit is not specified:
    the function [pow2] that squares is an argument of the model. *)

Section ScalarsB64.

Variable pow2 : float -> float.

(** An integer operand of a float operation: the nearest binary64 number,
    OverflowError when there is none. *)
Definition b64_of_int (z : Z) : result float :=
  let x := SF2Prim (binary_normalize prec emax z 0 false) in
  if is_infinity x then Raise OverflowError else Ok x.

(** The rational number a finite binary64 number stands for. *)
Definition b64_value (x : float) : option Q :=
  match Prim2SF x with
  | S754_zero _ => Some 0%Q
  | S754_finite s m e =>
      Some (inject_Z (if s then Zneg m else Zpos m) * 2 ^ e)%Q
  | S754_infinity _ | S754_nan => None
  end.

(** [x / y] on floats *)
Definition truediv_b64 (x y : float) : result float :=
  if PrimFloat.eqb y 0 then Raise ZeroDivisionError else Ok (x / y)%float.

(** [math.pow(x, 2)]: OverflowError when the square of a finite number
    overflows. *)
Definition math_pow_2_b64 (x : float) : result float :=
  let y := pow2 x in
  if is_infinity y && negb (is_infinity x) then Raise OverflowError
  else Ok y.

(** [math.floor(x)] *)
Definition math_floor_b64 (x : float) : result Z :=
  match Prim2SF x with
  | S754_zero _ => Ok 0
  | S754_finite s m e => Ok (Z.shiftl (if s then Zneg m else Zpos m) e)
  | S754_infinity _ => Raise OverflowError
  | S754_nan => Raise ValueError
  end.

Definition derived_b64 (S0 T : float) (N M : Z)
  : result (float * float * float) :=
  do n <- b64_of_int N ;
  do delta_t <- truediv_b64 T n ;
  let S_max := (5 * S0)%float in
  do m <- b64_of_int M ;
  do delta_S <- truediv_b64 S_max m ;
  Ok (delta_t, S_max, delta_S).

(** [delta_t > 1/( math.pow(sigma,2)*(M-1) + 0.5*r )] *)
Definition unstable_b64 (r sigma delta_t : float) (M : Z) : result bool :=
  do s2 <- math_pow_2_b64 sigma ;
  do m1 <- b64_of_int (M - 1) ;
  do bound <- truediv_b64 1 (s2 * m1 + 0.5 * r)%float ;
  Ok (bound <? delta_t)%float.

(** [math.floor(S0/delta_S)] *)
Definition result_column_b64 (S0 delta_S : float) : result Z :=
  do q <- truediv_b64 S0 delta_S ;
  math_floor_b64 q.

(** [c[N][math.floor(S0/delta_S)]] *)
Definition read_result_b64 (S0 delta_S : float) (N : Z) (s : state)
  : result (Q * state) :=
  do _ <- index (length (c s)) N ;
  do j0 <- result_column_b64 S0 delta_S ;
  getitem N j0 s.

(** The code after the guard, on a grid of exact numbers. *)
Definition grid_phase_b64 (S0 delta_S : float)
  (S_max' delta_S' K' r' sigma' delta_t' : Q) (N M : Z)
  : result (pyval * state) :=
  do s1 <- initialise S_max' delta_S' K' N M ;
  do s2 <- recurrence r' sigma' delta_t' N M s1 ;
  do '(v, s3) <- read_result_b64 S0 delta_S N s2 ;
  Ok (Num v, s3).

(** The whole function.  [None]: the guard was passed with a scalar that is
    [inf] or [nan], and the grid would hold values that are not numbers;
    such a grid is not modelled. *)
Definition FinDiffCall_b64_run (S0 K r sigma T : float) (N M : Z)
  : option (result (pyval * state)) :=
  match derived_b64 S0 T N M with
  | Raise e => Some (Raise e)
  | Ok (delta_t, S_max, delta_S) =>
      match unstable_b64 r sigma delta_t M with
      | Raise e => Some (Raise e)
      | Ok true => Some (Ok (Str time_resolution_message, mkState [] []))
      | Ok false =>
          match b64_value S_max, b64_value delta_S, b64_value K,
                b64_value r, b64_value sigma, b64_value delta_t with
          | Some S_max', Some delta_S', Some K',
            Some r', Some sigma', Some delta_t' =>
              Some (grid_phase_b64 S0 delta_S S_max' delta_S' K' r' sigma'
                      delta_t' N M)
          | _, _, _, _, _, _ => None
          end
      end
  end.

Definition FinDiffCall_b64 (S0 K r sigma T : float) (N M : Z)
  : option (result pyval) :=
  match FinDiffCall_b64_run S0 K r sigma T N M with
  | Some res => Some (do '(v, _) <- res ; Ok v)
  | None => None
  end.


(** The sign of a binary64 number in its specification format: [b], or
    none for [nan]. *)
Definition sf_sign_is (b : bool) (x : spec_float) : Prop :=
  match x with
  | S754_nan => True
  | S754_zero s | S754_infinity s | S754_finite s _ _ => s = b
  end.

(** The guard as the source writes it, on binary64 numbers: the conversions
    of [N], [M] and [M - 1] to floats succeed, [N] and [M] are not 0,
    [math.pow(sigma, 2)] does not overflow, the divisor
    [math.pow(sigma,2)*(M-1) + 0.5*r] is not 0, and the comparison
    [T/N > 1/(math.pow(sigma,2)*(M-1) + 0.5*r)] has the truth value [b]. *)
Definition guard_evaluates (r sigma T : float) (N M : Z) (b : bool) : Prop :=
  exists n m m1 : float,
    b64_of_int N = Ok n /\ b64_of_int M = Ok m /\
    b64_of_int (M - 1) = Ok m1 /\
    (n =? 0)%float = false /\ (m =? 0)%float = false /\
    (is_infinity (pow2 sigma) = true -> is_infinity sigma = true) /\
    (pow2 sigma * m1 + 0.5 * r =? 0)%float = false /\
    (1 / (pow2 sigma * m1 + 0.5 * r) <? T / n)%float = b.

(** A binary64 number that is neither [inf] nor [nan]. *)
Definition finite_b64 (x : float) : Prop := exists q, b64_value x = Some q.

End ScalarsB64.

(** A [pow] that rounds the square correctly. *)
Definition square_b64 (x : float) : float := (x * x)%float.


(** ** MCCall *)

Section MonteCarloDefinitions.

Local Open Scope R_scope.

(** What a call of [MCCall] leaves behind: the line it prints, as the label
    and the number printed after it, and the value it returns. *)
Record mc_output : Type := mkOutput {
  printed : list (string * R);
  returned : R
}.

Definition width_label : string := "Confidence Interval Width:".

(** [np.maximum(xs, ys)], element by element. *)
Definition np_maximum (xs ys : list R) : list R := zip_with Rmax xs ys.

(** The builtin [sum]: a left fold that starts at 0. *)
Definition py_sum (xs : list R) : R := fold_left Rplus xs 0.

(** [np.mean] and [np.std] with their default arguments:
    [std = sqrt(mean(abs(x - x.mean())**2))]. *)
Definition np_mean (xs : list R) : R :=
  fold_right Rplus 0 xs / INR (length xs).

Definition np_std (xs : list R) : R :=
  sqrt (np_mean (map (fun x => Rabs (x - np_mean xs) ^ 2) xs)).

(** [MCCall], with the array [Weiner] of the [n] draws returned by
    [np.random.normal(0, math.sqrt(T), n)] as an argument.  [math.sqrt]
    raises on a negative [T] and the generator on a negative [n]; with no
    draw, [sum] of the empty array is the integer 0 and [0/0] raises. *)
Definition MCCall (S0 K r sigma T : R) (n : Z) (Weiner : list R)
  : result mc_output :=
  if Rlt_dec T 0 then Raise ValueError
  else if (n <? 0)%Z then Raise ValueError
  else
    let maturity_values :=
      map (fun w => S0 * exp ((r - 0.5 * sigma ^ 2) * T + sigma * w)) Weiner in
    let maturity_payoff :=
      np_maximum (map (fun v => v - K) maturity_values)
        (repeat 0 (Z.to_nat n)) in
    let discounted_payoff :=
      map (fun p => exp (- r * T) * p) maturity_payoff in
    if (n =? 0)%Z then Raise ZeroDivisionError
    else
      let average := py_sum discounted_payoff / IZR n in
      let standard_deviation := np_std discounted_payoff in
      let width := 2 * 1.96 * standard_deviation / sqrt (IZR n) in
      Ok (mkOutput [(width_label, width)] average).

(** The quantities the description of [MCCall] is written in. *)

(** The discounted payoff [e^(-rT) * max(S(T) - K, 0)] of one draw [w],
    with [S(T) = S0 * exp((r - sigma^2/2)*T + sigma*w)]. *)
Definition discounted_payoff_of (S0 K r sigma T w : R) : R :=
  exp (- (r * T)) * Rmax (S0 * exp ((r - sigma ^ 2 / 2) * T + sigma * w) - K) 0.

Definition total (xs : list R) : R := fold_right Rplus 0 xs.

Definition arithmetic_mean (xs : list R) : R := total xs / INR (length xs).

Definition squared_deviations (xs : list R) : R :=
  total (map (fun x => (x - arithmetic_mean xs) ^ 2) xs).

(** The sample standard deviation, with divisor [n - 1]. *)
Definition sample_std (xs : list R) : R :=
  sqrt (squared_deviations xs / (INR (length xs) - 1)).

(** The standard deviation with divisor [n]. *)
Definition population_std (xs : list R) : R :=
  sqrt (squared_deviations xs / INR (length xs)).

(** The width [2 * 1.96 * s / sqrt n] for a deviation estimate [s]. *)
Definition interval_width (s : R) (n : Z) : R :=
  2 * 1.96 * s / sqrt (IZR n).

End MonteCarloDefinitions.

(** ** CRRCall *)

(** [c[i][j]] and [c[i][j] = v] on a list of lists of any values. *)
Definition get2 {A : Type} (g : list (list A)) (i j : Z) : result A :=
  do ri <- index (length g) i ;
  match g !! ri with
  | Some row =>
      do cj <- index (length row) j ;
      match row !! cj with
      | Some v => Ok v
      | None => Raise IndexError
      end
  | None => Raise IndexError
  end.

Definition set2 {A : Type} (g : list (list A)) (i j : Z) (v : A)
  : result (list (list A)) :=
  do ri <- index (length g) i ;
  match g !! ri with
  | Some row =>
      do cj <- index (length row) j ;
      Ok (<[ri := <[cj := v]> row]> g)
  | None => Raise IndexError
  end.

(** [for x in l: body], for any state. *)
Fixpoint for_each {A S : Type} (l : list A) (body : A -> S -> result S)
  (s : S) : result S :=
  match l with
  | [] => Ok s
  | x :: l' => do s' <- body x s ; for_each l' body s'
  end.

(** [range(start, stop, -1)] *)
Definition range_down (start stop : Z) : list Z :=
  reverse (seqZ (stop + 1) (start - stop)).

(** A list of [n] lists of [n] cells. *)
Definition square {A : Type} (n : Z) (g : list (list A)) : Prop :=
  Z.of_nat (length g) = n /\
  Forall (fun row => Z.of_nat (length row) = n) g.

(** The cell [(i, j)], [d] where there is none. *)
Definition at2 {A : Type} (d : A) (g : list (list A)) (i j : Z) : A :=
  match g !! Z.to_nat i with
  | Some row => default d (row !! Z.to_nat j)
  | None => d
  end.

Section CRRDefinitions.

Local Open Scope R_scope.

(** A floating-point value as far as it is modelled: a real number, an
    infinity or [nan].  Rounding, overflow and the sign of zero are left
    out; a zero divisor counts as [+0.0].  NumPy's scalars give [inf] or
    [nan] and a warning where Python's own division raises. *)
Inductive npfloat : Type :=
| Finite (x : R)
| PosInf
| NegInf
| NaN.

(** An infinity times a real number. *)
Definition inf_times (positive : bool) (x : R) : npfloat :=
  if Req_dec_T x 0 then NaN
  else if Rlt_dec 0 x then (if positive then PosInf else NegInf)
  else (if positive then NegInf else PosInf).

Definition np_mul (a b : npfloat) : npfloat :=
  match a, b with
  | Finite x, Finite y => Finite (x * y)
  | NaN, _ | _, NaN => NaN
  | Finite x, PosInf | PosInf, Finite x => inf_times true x
  | Finite x, NegInf | NegInf, Finite x => inf_times false x
  | PosInf, PosInf | NegInf, NegInf => PosInf
  | PosInf, NegInf | NegInf, PosInf => NegInf
  end.

Definition np_add (a b : npfloat) : npfloat :=
  match a, b with
  | Finite x, Finite y => Finite (x + y)
  | NaN, _ | _, NaN => NaN
  | PosInf, NegInf | NegInf, PosInf => NaN
  | PosInf, _ | _, PosInf => PosInf
  | NegInf, _ | _, NegInf => NegInf
  end.

Definition np_neg (a : npfloat) : npfloat :=
  match a with
  | Finite x => Finite (- x)
  | PosInf => NegInf
  | NegInf => PosInf
  | NaN => NaN
  end.

Definition np_sub (a b : npfloat) : npfloat := np_add a (np_neg b).

(** [a / b] on NumPy scalars: no exception. *)
Definition np_div (a b : npfloat) : npfloat :=
  match a, b with
  | NaN, _ | _, NaN => NaN
  | Finite x, Finite y =>
      if Req_dec_T y 0 then
        if Req_dec_T x 0 then NaN
        else if Rlt_dec 0 x then PosInf else NegInf
      else Finite (x / y)
  | Finite _, _ => Finite 0
  | PosInf, Finite y => if Rlt_dec y 0 then NegInf else PosInf
  | NegInf, Finite y => if Rlt_dec y 0 then PosInf else NegInf
  | _, _ => NaN
  end.

(** [np.exp] *)
Definition np_exp (a : npfloat) : npfloat :=
  match a with
  | Finite x => Finite (exp x)
  | PosInf => PosInf
  | NegInf => Finite 0
  | NaN => NaN
  end.

(** [np.sqrt]: [nan] and a warning below zero. *)
Definition np_sqrt (a : npfloat) : npfloat :=
  match a with
  | Finite x => if Rlt_dec x 0 then NaN else Finite (sqrt x)
  | PosInf => PosInf
  | NegInf | NaN => NaN
  end.

(** [math.pow(a, j)] for an integer [j]: 1 for [j = 0] whatever [a] is; a
    zero base with a negative exponent raises. *)
Definition math_pow (a : npfloat) (j : Z) : result npfloat :=
  if (j =? 0)%Z then Ok (Finite 1)
  else
    match a with
    | Finite x =>
        if Req_dec_T x 0 then
          if (j <? 0)%Z then Raise ValueError else Ok (Finite 0)
        else Ok (Finite (powerRZ x j))
    | PosInf => Ok (if (j <? 0)%Z then Finite 0 else PosInf)
    | NegInf =>
        Ok (if (j <? 0)%Z then Finite 0
            else if Z.even j then PosInf else NegInf)
    | NaN => Ok NaN
    end.

(** [max(a, 0)]: 0 only where [0 > a]. *)
Definition max_zero (a : npfloat) : npfloat :=
  match a with
  | Finite x => if Rlt_dec x 0 then Finite 0 else Finite x
  | PosInf => PosInf
  | NegInf => Finite 0
  | NaN => NaN
  end.

(** [[[0 for i in range(N+1)] for j in range(N+1)]] *)
Definition alloc_square (N : Z) : list (list npfloat) :=
  (fun _ => (fun _ => Finite 0) <$> range 0 (N + 1)) <$> range 0 (N + 1).

(** [max( S0*math.pow(u,j)*math.pow(d,N-j) - K, 0)] *)
Definition maturity_value (S0 K : R) (u d : npfloat) (N j : Z)
  : result npfloat :=
  do uj <- math_pow u j ;
  do dj <- math_pow d (N - j) ;
  Ok (max_zero (np_sub (np_mul (np_mul (Finite S0) uj) dj) (Finite K))).

(** [for j in range(N+1): c[N][j] = ...] *)
Definition set_maturity (S0 K : R) (u d : npfloat) (N : Z)
  : list (list npfloat) -> result (list (list npfloat)) :=
  for_each (range 0 (N + 1)) (fun j c =>
    do v <- maturity_value S0 K u d N j ;
    set2 c N j v).

(** [np.exp(-r*delta_t)*( p*a + (1-p)*b )] *)
Definition discounted_mean (disc : R) (p a b : npfloat) : npfloat :=
  np_mul (Finite disc)
    (np_add (np_mul p a) (np_mul (np_sub (Finite 1) p) b)).

(** The body of the innermost loop:
    [c[i][j] = np.exp(-r*delta_t)*( p*c[i+1][j+1] + (1-p)*c[i+1][j] )] *)
Definition roll_back_cell (r delta_t : R) (p : npfloat) (i j : Z)
  (c : list (list npfloat)) : result (list (list npfloat)) :=
  do a <- get2 c (i + 1) (j + 1) ;
  do b <- get2 c (i + 1) j ;
  set2 c i j (discounted_mean (exp (- r * delta_t)) p a b).

(** [for i in range(N-1, -1, -1): for j in range(i+1): ...] *)
Definition roll_back (r delta_t : R) (p : npfloat) (N : Z)
  : list (list npfloat) -> result (list (list npfloat)) :=
  for_each (range_down (N - 1) (-1)) (fun i =>
    for_each (range 0 (i + 1)) (fun j => roll_back_cell r delta_t p i j)).

Definition CRRCall (S0 K r sigma T : R) (N : Z) : result npfloat :=
  if (N =? 0)%Z then Raise ZeroDivisionError
  else
    let delta_t := T / IZR N in
    let u := np_exp (np_mul (Finite sigma) (np_sqrt (Finite delta_t))) in
    let d := np_exp (np_mul (Finite (- sigma)) (np_sqrt (Finite delta_t))) in
    let p :=
      np_div (np_sub (Finite (exp (r * delta_t))) d) (np_sub u d) in
    do c1 <- set_maturity S0 K u d N (alloc_square N) ;
    do c2 <- roll_back r delta_t p N c1 ;
    get2 c2 0 0.

(** *** The tree as a function *)

(** The values [m] steps before the last row, rolled back from the values
    [final] of the last row; [j] counts the moves up. *)
Fixpoint np_lattice (final : Z -> npfloat) (disc : R) (p : npfloat)
  (m : nat) (j : Z) : npfloat :=
  match m with
  | O => final j
  | S m' =>
      discounted_mean disc p
        (np_lattice final disc p m' (j + 1))
        (np_lattice final disc p m' j)
  end.

(** The rows after row [k] hold the values of the tree. *)
Definition rolled_back (r delta_t : R) (p : npfloat) (N : Z)
  (final : Z -> npfloat) (k : Z) (g : list (list npfloat)) : Prop :=
  square (N + 1) g /\
  forall i j, (k < i <= N)%Z -> (0 <= j <= i)%Z ->
    at2 NaN g i j
    = np_lattice final (exp (- r * delta_t)) p (Z.to_nat (N - i)) j.

Fixpoint lattice (final : Z -> R) (disc p : R) (m : nat) (j : Z) : R :=
  match m with
  | O => final j
  | S m' =>
      disc * (p * lattice final disc p m' (j + 1)
              + (1 - p) * lattice final disc p m' j)
  end.

(** The factors of one step of length [delta_t] and the weight of the
    move up. *)
Definition up_factor (sigma delta_t : R) : R := exp (sigma * sqrt delta_t).

Definition down_factor (sigma delta_t : R) : R :=
  exp (- sigma * sqrt delta_t).

Definition up_weight (r sigma delta_t : R) : R :=
  (exp (r * delta_t) - down_factor sigma delta_t)
  / (up_factor sigma delta_t - down_factor sigma delta_t).

(** The asset price after [j] moves up out of [n]. *)
Definition node_price (S0 u d : R) (n j : Z) : R :=
  S0 * powerRZ u j * powerRZ d (n - j).

(** The value at the root of the tree of [N] steps. *)
Definition tree_price (S0 K r sigma T : R) (N : Z) : R :=
  let delta_t := T / IZR N in
  let u := up_factor sigma delta_t in
  let d := down_factor sigma delta_t in
  lattice (fun j => Rmax (node_price S0 u d N j - K) 0)
    (exp (- r * delta_t)) (up_weight r sigma delta_t) (Z.to_nat N) 0.

(** The value of the tree [m] steps before maturity, as a function of the
    asset price [x] at the node. *)
Fixpoint tree_value (K disc p u d : R) (m : nat) (x : R) : R :=
  match m with
  | O => Rmax (x - K) 0
  | S m' =>
      disc * (p * tree_value K disc p u d m' (u * x)
              + (1 - p) * tree_value K disc p u d m' (d * x))
  end.

Definition convex (f : R -> R) : Prop :=
  forall x y t, 0 <= t <= 1 ->
    f (t * x + (1 - t) * y) <= t * f x + (1 - t) * f y.

End CRRDefinitions.

(** ** d1, d2 and BlackScholesCall *)

Section BlackScholesDefinitions.

Local Open Scope R_scope.

(** [x / y] on Python numbers *)
Definition py_truediv (x y : R) : result R :=
  if Req_dec_T y 0 then Raise ZeroDivisionError else Ok (x / y).

(** [np.log]: [-inf] at zero and [nan] below, with a warning. *)
Definition np_log (a : npfloat) : npfloat :=
  match a with
  | Finite x =>
      if Rlt_dec 0 x then Finite (ln x)
      else if Req_dec_T x 0 then NegInf else NaN
  | PosInf => PosInf
  | NegInf | NaN => NaN
  end.

Definition d1 (S0 K r sigma T : R) : result npfloat :=
  do q <- py_truediv S0 K ;
  Ok (np_div
        (np_add (np_log (Finite q)) (Finite ((r + sigma ^ 2 / 2) * T)))
        (np_mul (Finite sigma) (np_sqrt (Finite T)))).

Definition d2 (S0 K r sigma T : R) : result npfloat :=
  do a <- d1 S0 K r sigma T ;
  Ok (np_sub a (np_mul (Finite sigma) (np_sqrt (Finite T)))).

(** [ss.norm.cdf] is SciPy's: the distribution function [Phi] on the real
    numbers is an argument; at the infinities it is 1 and 0. *)
Definition norm_cdf (Phi : R -> R) (a : npfloat) : npfloat :=
  match a with
  | Finite x => Finite (Phi x)
  | PosInf => Finite 1
  | NegInf => Finite 0
  | NaN => NaN
  end.

Definition BlackScholesCall (Phi : R -> R) (S0 K r sigma T : R)
  : result npfloat :=
  do a <- d1 S0 K r sigma T ;
  do b <- d2 S0 K r sigma T ;
  Ok (np_sub (np_mul (Finite S0) (norm_cdf Phi a))
        (np_mul (np_mul (Finite K) (Finite (exp (- r * T))))
           (norm_cdf Phi b))).

(** The formula of [d1] and of the price on real numbers, for positive
    prices, volatility and maturity. *)
Definition d1_value (S0 K r sigma T : R) : R :=
  (ln (S0 / K) + (r + sigma ^ 2 / 2) * T) / (sigma * sqrt T).

Definition black_scholes_value (Phi : R -> R) (S0 K r sigma T : R) : R :=
  S0 * Phi (d1_value S0 K r sigma T)
  - K * exp (- r * T) * Phi (d1_value S0 K r sigma T - sigma * sqrt T).

(** The density of the standard normal distribution, and its integral
    from 0, shifted by 1/2: a distribution function with that density. *)
Definition gauss_density (x : R) : R := exp (- x ^ 2 / 2) / sqrt (2 * PI).

Definition gauss_integrable (a b : R) : Riemann_integrable gauss_density a b.
Proof.
  assert (continuity gauss_density) as Hc.
  { unfold gauss_density. reg. }
  destruct (Rle_dec a b) as [H|H].
  - apply continuity_implies_RiemannInt; [assumption|]. intros x _. apply Hc.
  - apply RiemannInt_P1, continuity_implies_RiemannInt; [lra|].
    intros x _. apply Hc.
Defined.

Definition std_normal_cdf (x : R) : R :=
  1 / 2 + RiemannInt (gauss_integrable 0 x).

End BlackScholesDefinitions.

(** ** Grid lemmas *)

Section Grid.

Variables N M : Z.

Lemma index_in_range (len : nat) (i : Z) :
  0 <= i < Z.of_nat len -> index len i = Ok (Z.to_nat i).
Proof.
  intros [H0 H1]. unfold index.
  destruct (Z.leb_spec 0 i); [|lia].
  destruct (Z.ltb_spec i (Z.of_nat len)); [reflexivity|lia].
Qed.

Lemma dims_row (g : list (list Q)) (i : nat) :
  dims N M g -> (i < Z.to_nat (N + 1))%nat ->
  exists row, g !! i = Some row /\ length row = Z.to_nat (M + 1).
Proof.
  intros [Hlen Hrows] Hi.
  destruct (lookup_lt_is_Some_2 g i) as [row Hrow]; [lia|].
  exists row. split; [assumption|].
  rewrite Forall_lookup in Hrows. exact (Hrows _ _ Hrow).
Qed.

Lemma dims_upd (g : list (list Q)) (i j : nat) (v : Q) :
  dims N M g -> dims N M (upd g i j v).
Proof.
  intros [Hlen Hrows]. unfold upd.
  destruct (g !! i) as [row|] eqn:Hrow; [|split; assumption].
  split.
  - rewrite length_insert. assumption.
  - apply Forall_insert; [assumption|]. cbv beta.
    rewrite length_insert.
    rewrite Forall_lookup in Hrows. exact (Hrows _ _ Hrow).
Qed.

Lemma look_upd (g : list (list Q)) (i j i' j' : nat) (v : Q) :
  dims N M g -> (i < Z.to_nat (N + 1))%nat -> (j < Z.to_nat (M + 1))%nat ->
  look (upd g i j v) i' j'
  = if decide (i' = i /\ j' = j) then v else look g i' j'.
Proof.
  intros Hd Hi Hj.
  destruct (dims_row g i Hd Hi) as (row & Hrow & Hlen).
  unfold upd, look. rewrite Hrow.
  destruct (decide (i' = i)) as [->|Hne].
  - rewrite list_lookup_insert_eq by (apply lookup_lt_Some in Hrow; lia).
    simpl. destruct (decide (j' = j)) as [->|Hnj].
    + rewrite list_lookup_insert_eq by lia.
      rewrite decide_True by auto. reflexivity.
    + rewrite list_lookup_insert_ne by auto.
      rewrite decide_False by tauto. rewrite Hrow. reflexivity.
  - rewrite list_lookup_insert_ne by auto.
    rewrite decide_False by tauto. reflexivity.
Qed.

Lemma getitem_ok (s : state) (i j : Z) :
  dims N M (c s) -> 0 <= i <= N -> 0 <= j <= M ->
  getitem i j s = Ok (cell s i j, mkState (c s) ((i, j) :: accesses s)).
Proof.
  intros Hd Hi Hj. unfold getitem.
  destruct (dims_row (c s) (Z.to_nat i) Hd) as (row & Hrow & Hlen); [lia|].
  rewrite index_in_range by (destruct Hd as [-> _]; lia). simpl.
  rewrite Hrow. simpl.
  rewrite index_in_range by lia. reflexivity.
Qed.

Lemma setitem_ok (s : state) (i j : Z) (v : Q) :
  dims N M (c s) -> 0 <= i <= N -> 0 <= j <= M ->
  setitem i j v s
  = Ok (mkState (upd (c s) (Z.to_nat i) (Z.to_nat j) v)
                ((i, j) :: accesses s)).
Proof.
  intros Hd Hi Hj. unfold setitem.
  destruct (dims_row (c s) (Z.to_nat i) Hd) as (row & Hrow & Hlen); [lia|].
  rewrite index_in_range by (destruct Hd as [-> _]; lia). simpl.
  rewrite Hrow. simpl.
  rewrite index_in_range by lia. reflexivity.
Qed.

Lemma good_stored (s : state) (i j : Z) (v : Q) :
  good N M s -> 0 <= i <= N -> 0 <= j <= M -> good N M (stored s i j v).
Proof.
  intros [Hd Ha] Hi Hj. split; simpl.
  - apply dims_upd. assumption.
  - constructor; [split; assumption | assumption].
Qed.

Lemma cell_stored (s : state) (i j i' j' : Z) (v : Q) :
  dims N M (c s) -> 0 <= i <= N -> 0 <= j <= M -> 0 <= i' -> 0 <= j' ->
  cell (stored s i j v) i' j'
  = if decide (i' = i /\ j' = j) then v else cell s i' j'.
Proof.
  intros Hd Hi Hj Hi' Hj'. unfold cell, stored. simpl.
  rewrite look_upd by (assumption || lia).
  destruct (decide (i' = i /\ j' = j)) as [[-> ->]|Hne].
  - rewrite decide_True by auto. reflexivity.
  - rewrite decide_False; [reflexivity|].
    intros [H1 H2]. apply Hne. split; lia.
Qed.

End Grid.

(** ** Loop rules *)

Lemma for_app {A : Type} (l1 l2 : list A) body (s : state) :
  for_ (l1 ++ l2) body s = (do s' <- for_ l1 body s ; for_ l2 body s').
Proof.
  revert s. induction l1 as [|x l1 IH]; intros s; simpl; [reflexivity|].
  destruct (body x s) as [s'|e]; simpl; [apply IH|reflexivity].
Qed.

(** A property kept by every iteration holds after the loop, and the loop
    does not raise. *)
Lemma for_keeps {A : Type} (J : state -> Prop) (l : list A) body (s : state) :
  J s ->
  (forall x t, x ∈ l -> J t -> exists t', body x t = Ok t' /\ J t') ->
  exists s', for_ l body s = Ok s' /\ J s'.
Proof.
  revert s. induction l as [|x l IH]; intros s Hs Hbody; simpl.
  - exists s. auto.
  - destruct (Hbody x s) as (t & Ht & HJ); [left | assumption |].
    rewrite Ht. simpl. apply IH; [assumption|].
    intros y u Hy. apply Hbody. right. assumption.
Qed.

(** The counting rule for [for k in range(lo, hi)]: the invariant [P k]
    holds before iteration [k] and [P (k+1)] after it. *)
Lemma for_range (P : Z -> state -> Prop) (lo hi : Z) body (s : state) :
  lo <= hi ->
  P lo s ->
  (forall k t, lo <= k < hi -> P k t ->
     exists t', body k t = Ok t' /\ P (k + 1) t') ->
  exists s', for_ (range lo hi) body s = Ok s' /\ P hi s'.
Proof.
  intros Hle. unfold range.
  remember (Z.to_nat (hi - lo)) as n eqn:Hn.
  revert lo s Hle Hn. induction n as [|n IH]; intros lo s Hle Hn Hs Hbody.
  - assert (lo = hi) as -> by lia.
    rewrite seqZ_nil by lia. exists s. auto.
  - rewrite seqZ_cons by lia. simpl.
    destruct (Hbody lo s) as (t & Ht & HP); [lia | assumption |].
    rewrite Ht. simpl.
    replace (Z.pred (hi - lo)) with (hi - Z.succ lo) by lia.
    apply IH; [lia | lia | |].
    + replace (Z.succ lo) with (lo + 1) by lia. assumption.
    + intros k u Hk. apply Hbody. lia.
Qed.

(** ** The grid as a function of the row *)

Section Scheme.

Variables (S_max delta_S K r sigma delta_t : Q) (N M : Z).

Hypothesis HN : 1 <= N.
Hypothesis HM : 1 <= M.

Lemma dims_alloc : dims N M (alloc N M).
Proof.
  unfold alloc, range. split.
  - rewrite length_fmap, length_seqZ. f_equal. lia.
  - apply Forall_fmap, Forall_forall. intros x _. simpl.
    rewrite length_fmap, length_seqZ. f_equal. lia.
Qed.

Lemma set_payoff_spec (s : state) :
  good N M s ->
  exists s', set_payoff delta_S K M s = Ok s' /\ good N M s' /\
    forall j, 0 <= j <= M -> cell s' 0 j = payoff delta_S K j.
Proof.
  intros Hs. unfold set_payoff.
  destruct (for_range
    (fun k t => good N M t /\
       forall j, 0 <= j < k -> cell t 0 j = payoff delta_S K j)
    0 (M + 1) (fun j => setitem 0 j (payoff delta_S K j)) s)
    as (s' & Hrun & Hg & Hc).
  - lia.
  - split; [assumption|]. intros j Hj. lia.
  - intros k t Hk [Hg Hc].
    rewrite setitem_ok with (N := N) (M := M) by (try apply Hg; lia).
    eexists. split; [reflexivity|]. fold (stored t 0 k (payoff delta_S K k)).
    split; [apply good_stored; [assumption | lia | lia]|].
    intros j Hj. rewrite cell_stored with (N := N) (M := M)
      by (try apply Hg; lia).
    destruct (decide (0 = 0 /\ j = k)) as [[_ ->]|Hne]; [reflexivity|].
    apply Hc. lia.
  - exists s'. split; [assumption|]. split; [assumption|].
    intros j Hj. apply Hc. lia.
Qed.

Lemma set_boundary_spec (s : state) :
  good N M s ->
  exists s', set_boundary S_max N M s = Ok s' /\ good N M s' /\
    boundary S_max N M s' /\
    forall i j, 0 <= i -> 1 <= j < M -> cell s' i j = cell s i j.
Proof.
  intros Hs. unfold set_boundary.
  destruct (for_range
    (fun k t => good N M t /\
       (forall i, 0 <= i < k -> cell t i 0 = 0%Q /\ cell t i M = S_max) /\
       forall i j, 0 <= i -> 1 <= j < M -> cell t i j = cell s i j)
    0 (N + 1)
    (fun i t => do t1 <- setitem i 0 0%Q t ; setitem i M S_max t1) s)
    as (s' & Hrun & Hg & Hb & Hc).
  - lia.
  - split; [assumption|]. split; [intros; lia | reflexivity].
  - intros k t Hk (Hg & Hb & Hc).
    rewrite setitem_ok with (N := N) (M := M) by (try apply Hg; lia).
    simpl. fold (stored t k 0 0%Q).
    assert (good N M (stored t k 0 0%Q)) as Hg1
      by (apply good_stored; [assumption | lia | lia]).
    rewrite setitem_ok with (N := N) (M := M) by (try apply Hg1; lia).
    eexists. split; [reflexivity|]. fold (stored (stored t k 0 0%Q) k M S_max).
    split; [apply good_stored; [assumption | lia | lia]|].
    split.
    + intros i Hi.
      rewrite !cell_stored with (N := N) (M := M)
        by (try apply Hg1; try apply Hg; lia).
      destruct (decide (i = k)) as [->|Hik].
      * rewrite (decide_False (P := k = k /\ 0 = M)) by lia.
        rewrite !decide_True by auto. auto.
      * rewrite !decide_False by lia. apply Hb. lia.
    + intros i j Hi Hj.
      rewrite !cell_stored with (N := N) (M := M)
        by (try apply Hg1; try apply Hg; lia).
      rewrite !decide_False by lia. apply Hc; lia.
  - exists s'. split; [assumption|]. split; [assumption|]. split.
    + intros i Hi. apply Hb. lia.
    + assumption.
Qed.

Lemma update_cell_spec (s : state) (i j : Z) :
  good N M s -> 1 <= i <= N -> 1 <= j < M ->
  exists s', update_cell r sigma delta_t i j s = Ok s' /\ good N M s' /\
    forall i' j', 0 <= i' -> 0 <= j' ->
      cell s' i' j'
      = if decide (i' = i /\ j' = j)
        then explicit_step r sigma delta_t j
               (cell s (i - 1) (j - 1)) (cell s (i - 1) j)
               (cell s (i - 1) (j + 1))
        else cell s i' j'.
Proof.
  intros [Hd Ha] Hi Hj. unfold update_cell.
  rewrite getitem_ok with (N := N) (M := M) by (assumption || lia). simpl.
  rewrite getitem_ok with (N := N) (M := M) by (assumption || simpl; lia).
  simpl.
  rewrite getitem_ok with (N := N) (M := M) by (assumption || simpl; lia).
  simpl. unfold cell at 1 2 3. simpl.
  fold (cell s (i - 1) (j - 1)) (cell s (i - 1) j) (cell s (i - 1) (j + 1)).
  set (v := explicit_step _ _ _ _ _ _ _).
  set (t := mkState (c s) _).
  assert (good N M t) as Hgt.
  { split; [assumption|]. simpl.
    repeat (constructor; [split; simpl; lia|]). assumption. }
  rewrite setitem_ok with (N := N) (M := M) by (try apply Hgt; lia).
  eexists. split; [reflexivity|]. fold (stored t i j v).
  split; [apply good_stored; [assumption | lia | lia]|].
  intros i' j' Hi' Hj'.
  rewrite cell_stored with (N := N) (M := M) by (try apply Hgt; lia).
  reflexivity.
Qed.

(** The inner loop fills the interior of row [i] from row [i-1] and
    touches nothing else. *)
Lemma inner_loop_spec (s : state) (i : Z) :
  good N M s -> 1 <= i <= N ->
  exists s',
    for_ (range 1 M) (fun j => update_cell r sigma delta_t i j) s = Ok s' /\
    good N M s' /\
    forall i' j', 0 <= i' -> 0 <= j' ->
      cell s' i' j'
      = if decide (i' = i /\ 1 <= j' < M)
        then explicit_step r sigma delta_t j'
               (cell s (i - 1) (j' - 1)) (cell s (i - 1) j')
               (cell s (i - 1) (j' + 1))
        else cell s i' j'.
Proof.
  intros Hs Hi.
  destruct (for_range
    (fun k t => good N M t /\
       forall i' j', 0 <= i' -> 0 <= j' ->
         cell t i' j'
         = if decide (i' = i /\ 1 <= j' < k)
           then explicit_step r sigma delta_t j'
                  (cell s (i - 1) (j' - 1)) (cell s (i - 1) j')
                  (cell s (i - 1) (j' + 1))
           else cell s i' j')
    1 M (fun j => update_cell r sigma delta_t i j) s)
    as (s' & Hrun & Hg & Hc).
  - lia.
  - split; [assumption|]. intros i' j' _ _.
    rewrite decide_False by lia. reflexivity.
  - intros k t Hk [Hg Hc].
    destruct (update_cell_spec t i k Hg Hi Hk) as (t' & Hrun & Hg' & Hc').
    exists t'. split; [assumption|]. split; [assumption|].
    intros i' j' Hi' Hj'. rewrite Hc' by assumption.
    destruct (decide (i' = i /\ j' = k)) as [[-> ->]|Hne].
    + rewrite decide_True by lia.
      rewrite !Hc by lia. rewrite !decide_False by lia. reflexivity.
    + rewrite Hc by assumption.
      destruct (decide (i' = i /\ 1 <= j' < k)) as [Hin|Hout].
      * rewrite decide_True by lia. reflexivity.
      * rewrite decide_False by lia. reflexivity.
  - exists s'. auto.
Qed.

(** The recurrence turns an initialised grid into [grid_value] and keeps
    every subscript inside the grid. *)
Lemma recurrence_spec (s : state) :
  good N M s -> boundary S_max N M s ->
  (forall j, 0 <= j <= M -> cell s 0 j = initial_row S_max delta_S K M j) ->
  exists s', recurrence r sigma delta_t N M s = Ok s' /\ good N M s' /\
    forall i j, 0 <= i <= N -> 0 <= j <= M ->
      cell s' i j = grid_value S_max delta_S K r sigma delta_t M (Z.to_nat i) j.
Proof.
  intros Hs Hb H0. unfold recurrence.
  destruct (for_range
    (fun k t => good N M t /\ boundary S_max N M t /\
       forall i j, 0 <= i < k -> 0 <= j <= M ->
         cell t i j = grid_value S_max delta_S K r sigma delta_t M (Z.to_nat i) j)
    1 (N + 1)
    (fun i => for_ (range 1 M) (fun j => update_cell r sigma delta_t i j)) s)
    as (s' & Hrun & Hg & _ & Hc).
  - lia.
  - split; [assumption|]. split; [assumption|].
    intros i j Hi Hj. assert (i = 0) as -> by lia. apply H0. assumption.
  - intros k t Hk (Hg & Hbt & Hc).
    destruct (inner_loop_spec t k Hg) as (t' & Hrun & Hg' & Hc'); [lia|].
    exists t'. split; [assumption|]. split; [assumption|]. split.
    + intros i Hi. rewrite !Hc' by lia.
      rewrite !decide_False by lia. apply Hbt. assumption.
    + intros i j Hi Hj. rewrite Hc' by lia.
      destruct (decide (i = k /\ 1 <= j < M)) as [[-> Hin]|Hout].
      * replace (Z.to_nat k) with (S (Z.to_nat (k - 1))) by lia. simpl.
        rewrite !decide_False by lia.
        rewrite !Hc by lia. reflexivity.
      * destruct (decide (i = k)) as [->|Hik]; [|apply Hc; lia].
        replace (Z.to_nat k) with (S (Z.to_nat (k - 1))) by lia. simpl.
        destruct (Hbt k) as [Hk0 HkM]; [lia|].
        destruct (decide (j = 0)) as [->|Hj0]; [assumption|].
        destruct (decide (j = M)) as [->|HjM]; [assumption|]. lia.
  - exists s'. split; [assumption|]. split; [assumption|].
    intros i j Hi Hj. apply Hc; lia.
Qed.

Lemma initialise_spec :
  exists s, initialise S_max delta_S K N M = Ok s /\ good N M s /\
    boundary S_max N M s /\
    forall j, 0 <= j <= M -> cell s 0 j = initial_row S_max delta_S K M j.
Proof.
  unfold initialise.
  destruct (set_payoff_spec (mkState (alloc N M) [])) as (s1 & H1 & Hg1 & Hp).
  { split; [apply dims_alloc | constructor]. }
  rewrite H1. simpl.
  destruct (set_boundary_spec s1 Hg1) as (s2 & H2 & Hg2 & Hb & Hc).
  exists s2. split; [assumption|]. split; [assumption|].
  split; [assumption|].
  intros j Hj. unfold initial_row.
  destruct (Hb 0) as [Hb0 HbM]; [lia|].
  destruct (decide (j = 0)) as [->|Hj0]; [assumption|].
  destruct (decide (j = M)) as [->|HjM]; [assumption|].
  rewrite Hc by lia. apply Hp. lia.
Qed.

End Scheme.

(** ** The scalar part: divisions, the stability test, the result index *)

Lemma truediv_ok (x y : Q) : ~ (y == 0)%Q -> truediv x y = Ok (x / y)%Q.
Proof.
  intros Hy. unfold truediv.
  destruct (Qeq_bool y 0) eqn:E; [|reflexivity].
  apply Qeq_bool_iff in E. contradiction.
Qed.

Lemma inject_Z_nonzero (n : Z) : n <> 0 -> ~ (inject_Z n == 0)%Q.
Proof.
  intros Hn H. apply Hn. unfold Qeq in H. simpl in H. lia.
Qed.

Lemma derived_ok (S0 T : Q) (N M : Z) :
  N <> 0 -> M <> 0 ->
  derived S0 T N M
  = Ok ((T / inject_Z N)%Q, (5 * S0)%Q, (5 * S0 / inject_Z M)%Q).
Proof.
  intros HN HM. unfold derived.
  rewrite truediv_ok by (apply inject_Z_nonzero; assumption). simpl.
  rewrite truediv_ok by (apply inject_Z_nonzero; assumption). reflexivity.
Qed.

(** In exact arithmetic [floor(S0/delta_S)] is [floor(M/5)]. *)
Lemma result_index (S0 : Q) (M : Z) :
  ~ (S0 == 0)%Q -> M <> 0 ->
  Qfloor (S0 / (5 * S0 / inject_Z M)) = M / 5.
Proof.
  intros HS HM.
  assert (S0 / (5 * S0 / inject_Z M) == inject_Z M / 5)%Q as E.
  { field. split; [|assumption]. apply inject_Z_nonzero. assumption. }
  rewrite (Qfloor_comp _ _ E).
  unfold Qdiv, Qinv, Qmult, Qfloor, inject_Z. simpl.
  rewrite Z.mul_1_r. reflexivity.
Qed.

Lemma delta_S_nonzero (S0 : Q) (M : Z) :
  ~ (S0 == 0)%Q -> M <> 0 -> ~ (5 * S0 / inject_Z M == 0)%Q.
Proof.
  intros HS HM H. apply HS.
  assert (S0 == (5 * S0 / inject_Z M) * (inject_Z M / 5))%Q as E.
  { field. apply inject_Z_nonzero. assumption. }
  rewrite E, H. ring.
Qed.

Lemma gt_bool_false (x y : Q) : gt_bool x y = false <-> (x <= y)%Q.
Proof.
  unfold gt_bool. destruct (Qlt_le_dec y x) as [H|H]; split; intros H'.
  - discriminate.
  - exfalso. apply (Qlt_not_le _ _ H H').
  - assumption.
  - reflexivity.
Qed.

Lemma unstable_ok (r sigma T : Q) (N M : Z) :
  ~ (stability_divisor r sigma M == 0)%Q ->
  exists u, unstable r sigma (T / inject_Z N) M = Ok u /\
            (u = false <-> stable r sigma T N M).
Proof.
  intros Hd. unfold unstable. rewrite truediv_ok by assumption. simpl.
  eexists. split; [reflexivity|]. apply gt_bool_false.
Qed.

(** ** The whole call on a stable configuration *)

(** What a call returns, and the state it leaves, when the step counts are
    positive, the initial price and the stability divisor are not zero and
    the stability test passes. *)
Lemma FinDiffCall_run_stable (S0 K r sigma T : Q) (N M : Z) :
  1 <= N -> 1 <= M -> ~ (S0 == 0)%Q ->
  ~ (stability_divisor r sigma M == 0)%Q ->
  stable r sigma T N M ->
  exists s,
    FinDiffCall_run S0 K r sigma T N M = Ok (Num (cell s N (M / 5)), s) /\
    good N M s /\
    head (accesses s) = Some (N, M / 5) /\
    forall i j, 0 <= i <= N -> 0 <= j <= M ->
      cell s i j
      = grid_value (5 * S0) (5 * S0 / inject_Z M) K r sigma
          (T / inject_Z N) M (Z.to_nat i) j.
Proof.
  intros HN HM HS Hd Hst. unfold FinDiffCall_run.
  rewrite derived_ok by lia. cbn [bind].
  destruct (unstable_ok r sigma T N M Hd) as (u & Hu & Hiff).
  rewrite Hu. cbn [bind].
  apply Hiff in Hst. subst u.
  destruct (initialise_spec (5 * S0) (5 * S0 / inject_Z M) K N M HN HM)
    as (s1 & H1 & Hg1 & Hb1 & Hr1).
  rewrite H1. cbn [bind].
  destruct (recurrence_spec (5 * S0) (5 * S0 / inject_Z M) K r sigma
              (T / inject_Z N) N M HN HM s1 Hg1 Hb1 Hr1)
    as (s2 & H2 & Hg2 & Hc2).
  rewrite H2. cbn [bind].
  unfold read_result.
  rewrite index_in_range by (destruct Hg2 as [[-> _] _]; lia). cbn [bind].
  rewrite truediv_ok by (apply delta_S_nonzero; [assumption | lia]). cbn [bind].
  rewrite result_index by (assumption || lia).
  assert (0 <= M / 5 <= M) as Hj0.
  { split; [apply Z.div_pos; lia|].
    apply Z.div_le_upper_bound; lia. }
  rewrite getitem_ok with (N := N) (M := M) by (try apply Hg2; lia).
  cbn [bind].
  exists (mkState (c s2) ((N, M / 5) :: accesses s2)).
  split; [reflexivity|].
  split.
  { destruct Hg2 as [Hd2 Ha2]. split; [assumption|]. simpl.
    constructor; [split; simpl; lia | assumption]. }
  split; [reflexivity|].
  intros i j Hi Hj. apply (Hc2 i j Hi Hj).
Qed.

Lemma FinDiffCall_run_unstable (S0 K r sigma T : Q) (N M : Z) :
  N <> 0 -> M <> 0 ->
  ~ (stability_divisor r sigma M == 0)%Q ->
  ~ stable r sigma T N M ->
  FinDiffCall_run S0 K r sigma T N M
  = Ok (Str time_resolution_message, mkState [] []).
Proof.
  intros HN HM Hd Hst. unfold FinDiffCall_run.
  rewrite derived_ok by assumption. cbn [bind].
  destruct (unstable_ok r sigma T N M Hd) as (u & Hu & Hiff).
  rewrite Hu. cbn [bind].
  destruct u; [reflexivity|].
  exfalso. apply Hst, Hiff. reflexivity.
Qed.

Lemma stable_dec (r sigma T : Q) (N M : Z) :
  stable r sigma T N M \/ ~ stable r sigma T N M.
Proof.
  unfold stable.
  destruct (Qlt_le_dec (1 / stability_divisor r sigma M) (T / inject_Z N))
    as [H|H]; [right | left; assumption].
  intros H'. apply (Qlt_not_le _ _ H H').
Qed.

(** ** The recurrence, step by step *)

Lemma for_map {A B : Type} (f : A -> B) (l : list A) body (s : state) :
  for_ (map f l) body s = for_ l (fun x => body (f x)) s.
Proof.
  revert s. induction l as [|x l IH]; intros s; simpl; [reflexivity|].
  destruct (body (f x) s); simpl; [apply IH | reflexivity].
Qed.

Lemma for_flat_map {A B : Type} (f : A -> list B) (l : list A) body
  (s : state) :
  for_ (flat_map f l) body s = for_ l (fun x => for_ (f x) body) s.
Proof.
  revert s. induction l as [|x l IH]; intros s; simpl; [reflexivity|].
  rewrite for_app.
  destruct (for_ (f x) body s); simpl; [apply IH | reflexivity].
Qed.

Lemma for_ext {A : Type} (l : list A) body1 body2 (s : state) :
  (forall x t, body1 x t = body2 x t) -> for_ l body1 s = for_ l body2 s.
Proof.
  intros Hb. revert s. induction l as [|x l IH]; intros s; simpl;
    [reflexivity|].
  rewrite Hb. destruct (body2 x s); simpl; [apply IH | reflexivity].
Qed.

(** The nested loops are one loop over [interior_steps]. *)
Lemma recurrence_steps (r sigma delta_t : Q) (N M : Z) (s : state) :
  recurrence r sigma delta_t N M s
  = for_ (interior_steps N M)
      (fun p => update_cell r sigma delta_t p.1 p.2) s.
Proof.
  unfold recurrence, interior_steps. rewrite for_flat_map.
  apply for_ext. intros i t. rewrite for_map. reflexivity.
Qed.

Lemma interior_steps_inside (N M : Z) (p : Z * Z) :
  p ∈ interior_steps N M -> 1 <= p.1 <= N /\ 1 <= p.2 < M.
Proof.
  unfold interior_steps. rewrite list_elem_of_In, in_flat_map.
  intros (i & Hi & Hp).
  apply in_map_iff in Hp as (j & <- & Hj).
  apply list_elem_of_In, elem_of_seqZ in Hi.
  apply list_elem_of_In, elem_of_seqZ in Hj. simpl. lia.
Qed.

(** ** The access log *)

Lemma getitem_log (i j : Z) (s : state) (v : Q) (s' : state) :
  getitem i j s = Ok (v, s') -> accesses s' = (i, j) :: accesses s.
Proof.
  unfold getitem. destruct (index (length (c s)) i) as [ri|]; simpl;
    [|discriminate].
  destruct (index _ j) as [cj|]; simpl; [|discriminate].
  intros H. injection H as _ <-. reflexivity.
Qed.

Lemma setitem_log (i j : Z) (v : Q) (s s' : state) :
  setitem i j v s = Ok s' -> accesses s' = (i, j) :: accesses s.
Proof.
  unfold setitem. destruct (index (length (c s)) i) as [ri|]; simpl;
    [|discriminate].
  destruct (index _ j) as [cj|]; simpl; [|discriminate].
  intros H. injection H as <-. reflexivity.
Qed.

Lemma update_cell_log (r sigma delta_t : Q) (i j : Z) (s s' : state) :
  update_cell r sigma delta_t i j s = Ok s' ->
  rev (accesses s')
  = rev (accesses s) ++ [(i - 1, j - 1); (i - 1, j); (i - 1, j + 1); (i, j)].
Proof.
  unfold update_cell.
  destruct (getitem (i - 1) (j - 1) s) as [[a s1]|] eqn:E1; simpl;
    [|discriminate].
  destruct (getitem (i - 1) j s1) as [[b s2]|] eqn:E2; simpl; [|discriminate].
  destruct (getitem (i - 1) (j + 1) s2) as [[d s3]|] eqn:E3; simpl;
    [|discriminate].
  intros E4.
  apply getitem_log in E1, E2, E3. apply setitem_log in E4.
  rewrite E4, E3, E2, E1. simpl. rewrite <- !app_assoc. reflexivity.
Qed.

(** A loop whose iterations each append [f x] to the log appends them all,
    in order. *)
Lemma for_log {A : Type} (f : A -> list (Z * Z)) (l : list A) body
  (s s' : state) :
  (forall x t t', body x t = Ok t' ->
     rev (accesses t') = rev (accesses t) ++ f x) ->
  for_ l body s = Ok s' ->
  rev (accesses s') = rev (accesses s) ++ flat_map f l.
Proof.
  intros Hbody. revert s. induction l as [|x l IH]; intros s; simpl.
  - intros H. injection H as <-. rewrite app_nil_r. reflexivity.
  - destruct (body x s) as [t|] eqn:E; simpl; [|discriminate].
    intros H. rewrite (IH _ H), (Hbody _ _ _ E), <- app_assoc. reflexivity.
Qed.

(** The log of a call that returns a number. *)
Lemma FinDiffCall_run_log (S0 K r sigma T : Q) (N M : Z) (v : Q) (s : state) :
  FinDiffCall_run S0 K r sigma T N M = Ok (Num v, s) ->
  exists j0, rev (accesses s) = access_sequence N M j0 /\
             head (accesses s) = Some (N, j0).
Proof.
  unfold FinDiffCall_run.
  destruct (derived S0 T N M) as [[[delta_t S_max] delta_S]|]; simpl;
    [|discriminate].
  destruct (unstable r sigma delta_t M) as [[|]|]; simpl; try discriminate.
  unfold initialise.
  destruct (set_payoff delta_S K M _) as [s1|] eqn:E1; simpl; [|discriminate].
  destruct (set_boundary S_max N M s1) as [s2|] eqn:E2; simpl;
    [|discriminate].
  destruct (recurrence r sigma delta_t N M s2) as [s3|] eqn:E3; simpl;
    [|discriminate].
  unfold read_result.
  destruct (index (length (c s3)) N); simpl; [|discriminate].
  destruct (truediv S0 delta_S) as [q|]; simpl; [|discriminate].
  destruct (getitem N (Qfloor q) s3) as [[w s4]|] eqn:E4; simpl;
    [|discriminate].
  intros H. injection H as _ <-.
  exists (Qfloor q).
  apply getitem_log in E4. rewrite E4. split; [|reflexivity].
  simpl. unfold access_sequence.
  rewrite recurrence_steps in E3.
  apply for_log with
    (f := fun p : Z * Z =>
       [(p.1 - 1, p.2 - 1); (p.1 - 1, p.2); (p.1 - 1, p.2 + 1); (p.1, p.2)])
    in E3; [|intros p t t'; apply update_cell_log].
  apply for_log with (f := fun i => [(i, 0); (i, M)]) in E2.
  2:{ intros i t t'.
      destruct (setitem i 0 0%Q t) as [t1|] eqn:F1; simpl; [|discriminate].
      intros F2. apply setitem_log in F1, F2. rewrite F2, F1. simpl.
      rewrite <- app_assoc. reflexivity. }
  apply for_log with (f := fun j => [(0, j)]) in E1.
  2:{ intros j t t' F. apply setitem_log in F. rewrite F. reflexivity. }
  rewrite E3, E2, E1. simpl. rewrite <- !app_assoc. reflexivity.
Qed.

(** ** Properties of FinDiffCall *)

Ltac q_nonzero :=
  let H := fresh in intros H; vm_compute in H; discriminate H.

Ltac q_compare := vm_compute; congruence.

(** The notebook's example on a coarse grid. *)
Example notebook_small :
  normal (FinDiffCall 200 205 (2#100) (14#100) (1#2) 4 10)
  = Ok (Num (44555307260503699 # 16000000000000000)).
Proof. vm_compute. reflexivity. Qed.

(** The payoff stored in row 0 is the larger of [j*delta_S - K] and 0. *)
Lemma payoff_max (delta_S K : Q) (j : Z) :
  payoff delta_S K j = Qmax (inject_Z j * delta_S - K) 0.
Proof.
  unfold payoff, py_max, Qmax, GenericMinMax.gmax.
  destruct (Qlt_le_dec (inject_Z j * delta_S - K) 0) as [H|H];
    destruct (inject_Z j * delta_S - K ?= 0)%Q eqn:E; try reflexivity.
  - apply Qeq_alt in E. rewrite E in H. discriminate H.
  - apply Qgt_alt in E. apply Qlt_not_le in H. destruct H.
    apply Qlt_le_weak. assumption.
  - apply Qlt_alt in E. apply Qlt_not_le in E. contradiction.
Qed.

(** C3 (as amended).  After the two initialisation loops and before the
    recurrence, row 0 holds the payoff [max(j*delta_S - K, 0)] at every
    interior column [1 <= j <= M-1]; the end columns were overwritten by the
    boundary loop, so [c[0][0] = 0] (which is the payoff there when
    [K >= 0]) and [c[0][M] = S_max]. *)
Theorem initial_row_payoff (S_max delta_S K : Q) (N M : Z) :
  1 <= N -> 1 <= M ->
  exists s, initialise S_max delta_S K N M = Ok s /\
    (forall j, 1 <= j <= M - 1 ->
       cell s 0 j = Qmax (inject_Z j * delta_S - K) 0) /\
    cell s 0 0 = 0%Q /\
    cell s 0 M = S_max /\
    ((0 <= K)%Q -> (Qmax (inject_Z 0 * delta_S - K) 0 == 0)%Q).
Proof.
  intros HN HM.
  destruct (initialise_spec S_max delta_S K N M HN HM)
    as (s & Hrun & _ & Hb & Hrow).
  exists s. split; [assumption|].
  split; [|split; [|split]].
  - intros j Hj. rewrite Hrow by lia. unfold initial_row.
    rewrite !decide_False by lia. apply payoff_max.
  - apply (Hb 0). lia.
  - apply (Hb 0). lia.
  - intros HK. apply Q.max_r. change (inject_Z 0) with 0%Q. lra.
Qed.

Lemma initial_row_payoff_witness :
  exists s, initialise 50 10 5 1 5 = Ok s /\
    (forall j, 1 <= j <= 5 - 1 ->
       cell s 0 j = Qmax (inject_Z j * 10 - 5) 0) /\
    cell s 0 0 = 0%Q /\
    cell s 0 5 = 50%Q /\
    ((0 <= 5)%Q -> (Qmax (inject_Z 0 * 10 - 5) 0 == 0)%Q).
Proof.
  apply initial_row_payoff; lia.
Defined.

(** C3 (as stated) fails at the last column: for S0 = 10, K = 5, M = 5 the
    initialised row has [c[0][5] = S_max = 50], not the payoff
    [max(5*10 - 5, 0) = 45]. *)
Lemma initial_row_last_column :
  ~ (forall s, initialise 50 10 5 1 5 = Ok s ->
       forall j, 0 <= j <= 5 ->
         (cell s 0 j == Qmax (inject_Z j * 10 - 5) 0)%Q) /\
  (exists s, initialise 50 10 5 1 5 = Ok s /\ (cell s 0 5 == 50)%Q) /\
  (Qmax (inject_Z 5 * 10 - 5) 0 == 45)%Q.
Proof.
  split; [|split].
  - intros H.
    destruct (initialise 50 10 5 1 5) as [s|e] eqn:E;
      [|vm_compute in E; discriminate E].
    specialize (H s eq_refl 5 ltac:(lia)).
    vm_compute in E. injection E as <-.
    vm_compute in H. discriminate H.
  - eexists. split; [vm_compute; reflexivity|]. vm_compute. reflexivity.
  - vm_compute. reflexivity.
Qed.

(** C4.  The boundary values [c[i][0] = 0] and [c[i][M] = S_max] hold on
    every row [0 <= i <= N] once the grid is initialised, and still hold
    after any number [k] of the recurrence's cell updates, none of which
    raises; the nested loops are exactly these updates in this order. *)
Theorem boundary_kept (S_max delta_S K r sigma delta_t : Q) (N M : Z) :
  1 <= N -> 1 <= M ->
  exists s0, initialise S_max delta_S K N M = Ok s0 /\
    recurrence r sigma delta_t N M s0
    = for_ (interior_steps N M)
        (fun p => update_cell r sigma delta_t p.1 p.2) s0 /\
    forall k : nat, exists sk,
      for_ (take k (interior_steps N M))
        (fun p => update_cell r sigma delta_t p.1 p.2) s0 = Ok sk /\
      forall i, 0 <= i <= N -> cell sk i 0 = 0%Q /\ cell sk i M = S_max.
Proof.
  intros HN HM.
  destruct (initialise_spec S_max delta_S K N M HN HM)
    as (s0 & Hrun & Hg & Hb & _).
  exists s0. split; [assumption|]. split; [apply recurrence_steps|].
  intros k.
  destruct (for_keeps (fun t => good N M t /\ boundary S_max N M t)
              (take k (interior_steps N M))
              (fun p => update_cell r sigma delta_t p.1 p.2) s0)
    as (sk & Hk & _ & Hbk).
  - split; assumption.
  - intros p t Hp [Hgt Hbt].
    apply subseteq_take, interior_steps_inside in Hp.
    destruct (update_cell_spec r sigma delta_t N M t p.1 p.2 Hgt)
      as (t' & Ht' & Hgt' & Hc); [lia | lia |].
    exists t'. split; [assumption|]. split; [assumption|].
    intros i Hi. rewrite !Hc by lia.
    rewrite !decide_False by lia. apply Hbt. assumption.
  - exists sk. split; assumption.
Qed.

Lemma boundary_kept_witness :
  exists s0, initialise 50 10 5 4 5 = Ok s0 /\
    recurrence (2#100) (14#100) (1#8) 4 5 s0
    = for_ (interior_steps 4 5)
        (fun p => update_cell (2#100) (14#100) (1#8) p.1 p.2) s0 /\
    forall k : nat, exists sk,
      for_ (take k (interior_steps 4 5))
        (fun p => update_cell (2#100) (14#100) (1#8) p.1 p.2) s0 = Ok sk /\
      forall i, 0 <= i <= 4 -> cell sk i 0 = 0%Q /\ cell sk i 5 = 50%Q.
Proof.
  apply (boundary_kept 50 10 5 (2#100) (14#100) (1#8) 4 5); lia.
Defined.

Lemma derived_stops (S0 T : Q) (N M : Z) :
  stopped_before_test S0 T N M <-> N = 0 \/ M = 0.
Proof.
  split.
  - intros [e He].
    destruct (decide (N = 0)) as [|HN]; [left; assumption|].
    destruct (decide (M = 0)) as [|HM]; [right; assumption|].
    rewrite derived_ok in He by assumption. discriminate He.
  - intros [-> | ->]; exists ZeroDivisionError; unfold derived.
    + reflexivity.
    + unfold truediv. destruct (Qeq_bool (inject_Z N) 0); reflexivity.
Qed.




Lemma in_bounds_access_sequence (N M j0 : Z) :
  0 <= j0 <= M -> 1 <= N -> 1 <= M ->
  Forall (in_bounds N M) (access_sequence N M j0).
Proof.
  intros Hj HN HM. unfold access_sequence, range.
  rewrite !Forall_app. repeat split.
  - apply Forall_flat_map, Forall_seqZ. intros j Hj'.
    repeat constructor; simpl; lia.
  - apply Forall_flat_map, Forall_seqZ. intros i Hi.
    repeat constructor; simpl; lia.
  - apply Forall_flat_map, Forall_forall. intros p Hp.
    apply interior_steps_inside in Hp.
    repeat constructor; simpl; lia.
  - repeat constructor; simpl; lia.
Qed.

(** C8.  The column read at the end is [floor(M/5)]: it is the same for
    all S0, K, r, sigma, T and N, it is the node at or below the exact
    position [M/5], and it need not be the node nearest to S0: for M = 9 the
    node [floor(9/5)+1 = 2] is strictly nearer to S0 than the node read. *)
Theorem result_column (S0 K r sigma T : Q) (N M : Z) :
  1 <= N -> 1 <= M -> ~ (S0 == 0)%Q ->
  ~ (stability_divisor r sigma M == 0)%Q ->
  stable r sigma T N M ->
  let delta_S := (5 * S0 / inject_Z M)%Q in
  Qfloor (S0 / delta_S) = M / 5 /\
  (exists s,
     FinDiffCall_run S0 K r sigma T N M = Ok (Num (cell s N (M / 5)), s) /\
     head (accesses s) = Some (N, M / 5)) /\
  (inject_Z (M / 5) <= inject_Z M / 5 /\
   inject_Z M / 5 < inject_Z (M / 5) + 1)%Q /\
  (M = 9 ->
   (Qabs (inject_Z (M / 5 + 1) * delta_S - S0)
    < Qabs (inject_Z (M / 5) * delta_S - S0))%Q).
Proof.
  intros HN HM HS Hd Hst delta_S. subst delta_S.
  split; [apply result_index; assumption || lia|].
  split.
  { destruct (FinDiffCall_run_stable S0 K r sigma T N M HN HM HS Hd Hst)
      as (s & Hrun & _ & Hhd & _).
    exists s. split; assumption. }
  split.
  { assert (Qfloor (inject_Z M / 5) = M / 5) as E.
    { unfold Qdiv, Qinv, Qmult, Qfloor, inject_Z. simpl.
      rewrite Z.mul_1_r. reflexivity. }
    rewrite <- E. split.
    - apply Qfloor_le.
    - pose proof (Qlt_floor (inject_Z M / 5)) as H.
      rewrite inject_Z_plus in H. exact H. }
  intros ->. change (9 / 5 + 1) with 2. change (9 / 5) with 1.
  change (inject_Z 2) with 2%Q. change (inject_Z 1) with 1%Q.
  change (inject_Z 9) with 9%Q.
  assert (2 * (5 * S0 / 9) - S0 == (1#9) * S0)%Q as E2 by field.
  assert (1 * (5 * S0 / 9) - S0 == - ((4#9) * S0))%Q as E1 by field.
  rewrite E2, E1, Qabs_opp.
  rewrite !Qabs_Qmult.
  assert (0 < Qabs S0)%Q as Hpos.
  { destruct (Qle_lt_or_eq 0 (Qabs S0) (Qabs_nonneg S0)) as [H|H];
      [assumption|].
    exfalso. apply HS.
    destruct (Qlt_le_dec S0 0) as [Hs|Hs].
    - rewrite Qabs_neg in H by lra. lra.
    - rewrite Qabs_pos in H by assumption. lra. }
  change (Qabs (1#9)) with (1#9)%Q. change (Qabs (4#9)) with (4#9)%Q.
  lra.
Qed.

Lemma result_column_witness :
  let delta_S := (5 * 200 / inject_Z 9)%Q in
  Qfloor (200 / delta_S) = 9 / 5 /\
  (exists s,
     FinDiffCall_run 200 205 (2#100) (14#100) (1#2) 4 9
     = Ok (Num (cell s 4 (9 / 5)), s) /\
     head (accesses s) = Some (4, 9 / 5)) /\
  (inject_Z (9 / 5) <= inject_Z 9 / 5 /\
   inject_Z 9 / 5 < inject_Z (9 / 5) + 1)%Q /\
  (9 = 9 ->
   (Qabs (inject_Z (9 / 5 + 1) * delta_S - 200)
    < Qabs (inject_Z (9 / 5) * delta_S - 200))%Q).
Proof.
  apply (result_column 200 205 (2#100) (14#100) (1#2) 4 9);
    [lia | lia | q_nonzero | q_nonzero | q_compare].
Defined.

(** ** Sign of the computed price *)

Lemma py_max_nonneg (x : Q) : (0 <= py_max x 0)%Q.
Proof.
  unfold py_max. destruct (Qlt_le_dec x 0); [apply Qle_refl | assumption].
Qed.

Lemma grid_value_first_column (S_max delta_S K r sigma delta_t : Q) (M : Z)
  (i : nat) :
  grid_value S_max delta_S K r sigma delta_t M i 0 = 0%Q.
Proof. destruct i; reflexivity. Qed.

Lemma inject_Z_le (a b : Z) : a <= b -> (inject_Z a <= inject_Z b)%Q.
Proof. intros H. rewrite <- Zle_Qle. assumption. Qed.

(** With non-negative neighbours and non-negative weights the update is
    non-negative; the lower weight is not needed where the lower neighbour
    is 0. *)
Lemma explicit_step_nonneg (r sigma delta_t : Q) (j : Z) (a b d : Q) :
  (0 <= delta_t)%Q -> 1 <= j ->
  (0 <= a)%Q -> (0 <= b)%Q -> (0 <= d)%Q ->
  ((a == 0)%Q \/ (0 <= sigma ^ 2 * inject_Z j - r)%Q) ->
  (0 <= 1 - r * delta_t - sigma ^ 2 * inject_Z j ^ 2 * delta_t)%Q ->
  (0 <= sigma ^ 2 * inject_Z j + r)%Q ->
  (0 <= explicit_step r sigma delta_t j a b d)%Q.
Proof.
  intros Hdt Hj Ha Hb Hd Hlow Hmid Hup. unfold explicit_step.
  assert (0 <= inject_Z j)%Q as Hj' by (apply (inject_Z_le 0 j); lia).
  set (lo := (sigma ^ 2 * inject_Z j - r)%Q) in *.
  set (mid := (1 - r * delta_t - sigma ^ 2 * inject_Z j ^ 2 * delta_t)%Q) in *.
  set (up := (sigma ^ 2 * inject_Z j + r)%Q) in *.
  assert (0 <= (1#2) * a * inject_Z j * delta_t * lo)%Q as H1.
  { destruct Hlow as [Hz|Hlo].
    - rewrite Hz. ring_simplify. apply Qle_refl.
    - repeat apply Qmult_le_0_compat; try assumption. discriminate. }
  assert (0 <= b * mid)%Q as H2 by (apply Qmult_le_0_compat; assumption).
  assert (0 <= (1#2) * d * inject_Z j * delta_t * up)%Q as H3.
  { repeat apply Qmult_le_0_compat; try assumption. discriminate. }
  lra.
Qed.

Section Positivity.

Variables (S_max delta_S K r sigma delta_t : Q) (M : Z).

Hypothesis HM : 1 <= M.
Hypothesis Hmax : (0 <= S_max)%Q.
Hypothesis Hdt : (0 <= delta_t)%Q.
Hypothesis Hlow : forall j, 2 <= j <= M - 1 ->
  (0 <= sigma ^ 2 * inject_Z j - r)%Q.
Hypothesis Hmid : forall j, 1 <= j <= M - 1 ->
  (0 <= 1 - r * delta_t - sigma ^ 2 * inject_Z j ^ 2 * delta_t)%Q.
Hypothesis Hup : forall j, 1 <= j <= M - 1 ->
  (0 <= sigma ^ 2 * inject_Z j + r)%Q.

Lemma grid_value_nonneg (i : nat) (j : Z) :
  0 <= j <= M ->
  (0 <= grid_value S_max delta_S K r sigma delta_t M i j)%Q.
Proof.
  revert j. induction i as [|i IH]; intros j Hj; simpl.
  - unfold initial_row.
    destruct (decide (j = 0)); [apply Qle_refl|].
    destruct (decide (j = M)); [assumption|]. apply py_max_nonneg.
  - destruct (decide (j = 0)); [apply Qle_refl|].
    destruct (decide (j = M)); [assumption|].
    apply explicit_step_nonneg; try (apply IH; lia); try assumption.
    + lia.
    + destruct (decide (j = 1)) as [->|Hj1].
      * left. change (1 - 1) with 0.
        rewrite grid_value_first_column. reflexivity.
      * right. apply Hlow. lia.
    + apply Hmid. lia.
    + apply Hup. lia.
Qed.

End Positivity.

(** The three weights of the update are non-negative at every interior
    column once [-sigma^2 <= r <= 2*sigma^2] and
    [delta_t * (r + sigma^2*(M-1)^2) <= 1]. *)
Lemma weights_nonneg (r sigma delta_t : Q) (M j : Z) :
  (0 <= delta_t)%Q ->
  (- sigma ^ 2 <= r)%Q -> (r <= 2 * sigma ^ 2)%Q ->
  (delta_t * (r + sigma ^ 2 * inject_Z (M - 1) ^ 2) <= 1)%Q ->
  1 <= j <= M - 1 ->
  (2 <= j -> (0 <= sigma ^ 2 * inject_Z j - r)%Q) /\
  (0 <= 1 - r * delta_t - sigma ^ 2 * inject_Z j ^ 2 * delta_t)%Q /\
  (0 <= sigma ^ 2 * inject_Z j + r)%Q.
Proof.
  intros Hdt Hr1 Hr2 Hb Hj.
  assert (0 <= sigma ^ 2)%Q as Hs.
  { simpl. nra. }
  assert (1 <= inject_Z j)%Q as Hx1 by (apply (inject_Z_le 1 j); lia).
  assert (inject_Z j <= inject_Z (M - 1))%Q as Hx2
    by (apply inject_Z_le; lia).
  set (x := inject_Z j) in *. set (m := inject_Z (M - 1)) in *.
  set (s2 := (sigma ^ 2)%Q) in *.
  assert (x ^ 2 <= m ^ 2)%Q as Hsq by (simpl; nra).
  assert (0 <= s2 * delta_t)%Q as Hsd
    by (apply Qmult_le_0_compat; assumption).
  split; [|split].
  - intros H2.
    assert (2 <= x)%Q as Hx by (apply (inject_Z_le 2 j); lia).
    nra.
  - assert (s2 * x ^ 2 * delta_t <= s2 * m ^ 2 * delta_t)%Q as Hm.
    { assert (0 <= (s2 * delta_t) * (m ^ 2 - x ^ 2))%Q as H
        by (apply Qmult_le_0_compat; [assumption | lra]).
      lra. }
    lra.
  - nra.
Qed.

(** C6 (as stated) fails: S0 = 10, K = 5, r = 1, sigma = 0.1, T = 5,
    N = 3, M = 10 passes the stability test and the price returned is
    -4415/1728. *)
Lemma negative_price :
  stable 1 (1#10) 5 3 10 /\
  exists p, FinDiffCall 10 5 1 (1#10) 5 3 10 = Ok (Num p) /\
            (p == - (4415#1728))%Q /\ (p < 0)%Q.
Proof.
  split; [q_compare|].
  eexists. split; [vm_compute; reflexivity|].
  split; [reflexivity | reflexivity].
Qed.

(** C6 (as amended).  For S0 > 0, T >= 0, positive step counts and a
    configuration that passes the stability test, the price returned is
    non-negative whenever the weights of the update are non-negative:
    [-sigma^2 <= r <= 2*sigma^2] and
    [(T/N) * (r + sigma^2*(M-1)^2) <= 1]. *)
Theorem price_nonneg (S0 K r sigma T : Q) (N M : Z) :
  (0 < S0)%Q -> (0 <= T)%Q -> 1 <= N -> 1 <= M ->
  ~ (stability_divisor r sigma M == 0)%Q ->
  stable r sigma T N M ->
  (- sigma ^ 2 <= r)%Q -> (r <= 2 * sigma ^ 2)%Q ->
  (T / inject_Z N * (r + sigma ^ 2 * inject_Z (M - 1) ^ 2) <= 1)%Q ->
  exists p, FinDiffCall S0 K r sigma T N M = Ok (Num p) /\ (0 <= p)%Q.
Proof.
  intros HS HT HN HM Hd Hst Hr1 Hr2 Hb.
  assert (~ (S0 == 0)%Q) as HS' by lra.
  destruct (FinDiffCall_run_stable S0 K r sigma T N M HN HM HS' Hd Hst)
    as (s & Hrun & _ & _ & Hc).
  unfold FinDiffCall. rewrite Hrun. simpl.
  eexists. split; [reflexivity|].
  assert (0 <= M / 5 <= M) as Hj0.
  { split; [apply Z.div_pos; lia|]. apply Z.div_le_upper_bound; lia. }
  rewrite Hc by lia.
  assert (0 <= T / inject_Z N)%Q as Hdt.
  { apply Qle_shift_div_l; [apply (Qlt_le_trans _ 1); [reflexivity|];
      apply (inject_Z_le 1 N); lia|]. lra. }
  apply grid_value_nonneg; try assumption.
  - lra.
  - intros j Hj.
    apply (weights_nonneg r sigma (T / inject_Z N) M j); try assumption; lia.
  - intros j Hj.
    apply (weights_nonneg r sigma (T / inject_Z N) M j); try assumption; lia.
  - intros j Hj.
    apply (weights_nonneg r sigma (T / inject_Z N) M j); try assumption; lia.
Qed.

Lemma price_nonneg_witness :
  exists p, FinDiffCall 200 205 (2#100) (14#100) (1#2) 4 10 = Ok (Num p)
            /\ (0 <= p)%Q.
Proof.
  apply price_nonneg;
    [reflexivity | q_compare | lia | lia | q_nonzero | q_compare
    | q_compare | q_compare | q_compare].
Defined.

(** ** Dependence of the price on sigma *)

(** Raising sigma changes one update by the second difference of the row
    above, times a non-negative factor. *)
Lemma explicit_step_sigma (r sigma1 sigma2 delta_t : Q) (j : Z) (a b d : Q) :
  (explicit_step r sigma2 delta_t j a b d
   - explicit_step r sigma1 delta_t j a b d
   == (1#2) * (sigma2 ^ 2 - sigma1 ^ 2) * inject_Z j ^ 2 * delta_t
      * (a - 2 * b + d))%Q.
Proof. unfold explicit_step. simpl. ring. Qed.

(** The payoff is convex along the price axis. *)
Lemma payoff_convex (delta_S K : Q) (j : Z) :
  (0 <= payoff delta_S K (j - 1) - 2 * payoff delta_S K j
        + payoff delta_S K (j + 1))%Q.
Proof.
  unfold payoff.
  assert (inject_Z (j - 1) * delta_S - K
          == (inject_Z j * delta_S - K) - delta_S)%Q as E1.
  { unfold Z.sub. rewrite inject_Z_plus, inject_Z_opp.
    change (inject_Z 1) with 1%Q. ring. }
  assert (inject_Z (j + 1) * delta_S - K
          == (inject_Z j * delta_S - K) + delta_S)%Q as E2.
  { rewrite inject_Z_plus. change (inject_Z 1) with 1%Q. ring. }
  set (x := (inject_Z j * delta_S - K)%Q) in *.
  set (xl := (inject_Z (j - 1) * delta_S - K)%Q) in *.
  set (xr := (inject_Z (j + 1) * delta_S - K)%Q) in *.
  unfold py_max.
  destruct (Qlt_le_dec xl 0), (Qlt_le_dec x 0), (Qlt_le_dec xr 0); lra.
Qed.

(** Row 0 of the grid is convex at the interior columns below [M-1] when
    the strike is not negative. *)
Lemma initial_row_convex (S_max delta_S K : Q) (M j : Z) :
  (0 <= K)%Q -> 1 <= j <= M - 2 ->
  (0 <= initial_row S_max delta_S K M (j - 1)
        - 2 * initial_row S_max delta_S K M j
        + initial_row S_max delta_S K M (j + 1))%Q.
Proof.
  intros HK Hj. unfold initial_row.
  rewrite (decide_False (P := j = 0)) by lia.
  rewrite (decide_False (P := j = M)) by lia.
  rewrite (decide_False (P := j + 1 = 0)) by lia.
  rewrite (decide_False (P := j + 1 = M)) by lia.
  rewrite (decide_False (P := j - 1 = M)) by lia.
  pose proof (payoff_convex delta_S K j) as Hc.
  destruct (decide (j - 1 = 0)) as [E|E]; [|assumption].
  assert (payoff delta_S K (j - 1) == 0)%Q as H0.
  { rewrite E. unfold payoff, py_max. change (inject_Z 0) with 0%Q.
    destruct (Qlt_le_dec (0 * delta_S - K) 0); [reflexivity | lra]. }
  lra.
Qed.

Lemma result_column_range (M : Z) : 1 <= M -> 0 <= M / 5 <= M.
Proof.
  intros HM. split; [apply Z.div_pos; lia|].
  apply Z.div_le_upper_bound; lia.
Qed.

Lemma result_column_interior (M : Z) :
  1 <= M -> M / 5 <> 0 -> 1 <= M / 5 <= M - 2.
Proof.
  intros HM Hne.
  pose proof (Z.div_mod M 5 ltac:(lia)) as Hdm.
  pose proof (Z.mod_pos_bound M 5 ltac:(lia)) as Hmod.
  pose proof (result_column_range M HM) as Hr. lia.
Qed.

(** With S0 = 10, K = 5, r = 0.1, T = 1, N = 2, M = 10 both sigma = 0.1
    and sigma = 0.2 pass the stability test, and the price falls from 5.492
    to 5.48825. *)
Lemma FinDiffCall_sigma_falls :
  stable (1#10) (1#10) 1 2 10 /\ stable (1#10) (2#10) 1 2 10 /\
  exists p1 p2,
    FinDiffCall 10 5 (1#10) (1#10) 1 2 10 = Ok (Num p1) /\
    FinDiffCall 10 5 (1#10) (2#10) 1 2 10 = Ok (Num p2) /\
    (p1 == 1373#250)%Q /\ (p2 == 21953#4000)%Q /\ (p2 < p1)%Q.
Proof.
  split; [q_compare|]. split; [q_compare|].
  eexists. eexists.
  split; [vm_compute; reflexivity|].
  split; [vm_compute; reflexivity|].
  split; [reflexivity|]. split; reflexivity.
Qed.

(** With a single time step the price is the update of row 0 at the result
    column, and row 0 is convex there. *)
Lemma single_step_order (S0 K r sigma1 sigma2 T : Q) (M : Z) :
  1 <= M -> ~ (S0 == 0)%Q -> (0 <= K)%Q -> (0 <= T)%Q ->
  (0 <= sigma1)%Q -> (sigma1 <= sigma2)%Q ->
  ~ (stability_divisor r sigma1 M == 0)%Q ->
  ~ (stability_divisor r sigma2 M == 0)%Q ->
  stable r sigma1 T 1 M -> stable r sigma2 T 1 M ->
  exists p1 p2,
    FinDiffCall S0 K r sigma1 T 1 M = Ok (Num p1) /\
    FinDiffCall S0 K r sigma2 T 1 M = Ok (Num p2) /\
    (p1 <= p2)%Q.
Proof.
  intros HM HS HK HT Hs1 Hs12 Hd1 Hd2 Hst1 Hst2.
  destruct (FinDiffCall_run_stable S0 K r sigma1 T 1 M) as (t1 & Hrun1 & _ & _ & Hc1);
    try assumption; [lia|].
  destruct (FinDiffCall_run_stable S0 K r sigma2 T 1 M) as (t2 & Hrun2 & _ & _ & Hc2);
    try assumption; [lia|].
  unfold FinDiffCall. rewrite Hrun1, Hrun2. simpl.
  eexists. eexists. split; [reflexivity|]. split; [reflexivity|].
  pose proof (result_column_range M HM) as Hj0.
  rewrite Hc1, Hc2 by lia.
  change (Z.to_nat 1) with 1%nat. cbn [grid_value].
  destruct (decide (M / 5 = 0)) as [E|E]; [apply Qle_refl|].
  pose proof (result_column_interior M HM E) as Hj.
  rewrite !decide_False by lia.
  set (S_max := (5 * S0)%Q). set (delta_S := (S_max / inject_Z M)%Q).
  set (j := M / 5) in *.
  pose proof (initial_row_convex S_max delta_S K M j HK Hj) as Hconv.
  pose proof (explicit_step_sigma r sigma1 sigma2 (T / inject_Z 1) j
    (initial_row S_max delta_S K M (j - 1))
    (initial_row S_max delta_S K M j)
    (initial_row S_max delta_S K M (j + 1))) as Hdiff.
  set (D := (initial_row S_max delta_S K M (j - 1)
             - 2 * initial_row S_max delta_S K M j
             + initial_row S_max delta_S K M (j + 1))%Q) in *.
  assert (0 <= (1#2) * (sigma2 ^ 2 - sigma1 ^ 2) * inject_Z j ^ 2
               * (T / inject_Z 1) * D)%Q as Hpos.
  { repeat apply Qmult_le_0_compat; try assumption.
    - discriminate.
    - assert (sigma2 ^ 2 - sigma1 ^ 2
              == (sigma2 - sigma1) * (sigma2 + sigma1))%Q as E'
        by (simpl; ring).
      rewrite E'. apply Qmult_le_0_compat; lra.
    - apply (inject_Z_le 0 j); lia.
    - apply (inject_Z_le 0 j); lia.
    - discriminate. }
  set (X := ((1#2) * (sigma2 ^ 2 - sigma1 ^ 2) * inject_Z j ^ 2
             * (T / inject_Z 1) * D)%Q) in *.
  apply Qle_minus_iff. unfold Qminus in Hdiff. rewrite Hdiff. assumption.
Qed.

(** *** Any number of time steps, for a rate that is not positive *)

(** The update, regrouped by the discount, the drift and the diffusion
    term. *)
Lemma explicit_step_weighted (r sigma delta_t : Q) (j : Z) (a b d : Q) :
  (explicit_step r sigma delta_t j a b d
   == weighted r sigma delta_t (inject_Z j) a b d)%Q.
Proof. unfold explicit_step, weighted. simpl. ring. Qed.

(** The second difference of an updated row, in terms of the second
    differences of the row above: at three interior columns, and next to
    the last column, whose value [c1] is not updated. *)
Lemma weighted_second_difference (r s dt x a2 a1 b c1 c2 : Q) :
  (weighted r s dt (x - 1) a2 a1 b - 2 * weighted r s dt x a1 b c1
   + weighted r s dt (x + 1) b c1 c2
   == (a1 - 2 * b + c1) * (1 - s ^ 2 * x ^ 2 * dt)
      + (b - 2 * c1 + c2) * ((1#2) * dt * (x + 1) * (s ^ 2 * (x + 1) + r))
      + (a2 - 2 * a1 + b) * ((1#2) * dt * (x - 1) * (s ^ 2 * (x - 1) - r)))%Q.
Proof. unfold weighted. simpl. ring. Qed.

Lemma weighted_second_difference_top (r s dt x a2 a1 b c1 : Q) :
  (weighted r s dt (x - 1) a2 a1 b - 2 * weighted r s dt x a1 b c1 + c1
   == (a1 - 2 * b + c1) * (1 - s ^ 2 * x ^ 2 * dt)
      + (a2 - 2 * a1 + b) * ((1#2) * dt * (x - 1) * (s ^ 2 * (x - 1) - r))
      + (- r) * dt * ((x + 1) * (c1 - b) - c1))%Q.
Proof. unfold weighted. simpl. ring. Qed.

#[local] Instance weighted_proper :
  Proper (Qeq ==> Qeq ==> Qeq ==> Qeq ==> Qeq ==> Qeq ==> Qeq ==> Qeq) weighted.
Proof.
  intros r r' Hr s s' Hs dt dt' Hdt x x' Hx a a' Ha b b' Hb d d' Hd.
  unfold weighted. rewrite Hr, Hs, Hdt, Hx, Ha, Hb, Hd. reflexivity.
Qed.

Lemma weighted_linear (r s dt x a1 b1 d1 a2 b2 d2 : Q) :
  (weighted r s dt x a2 b2 d2 - weighted r s dt x a1 b1 d1
   == weighted r s dt x (a2 - a1) (b2 - b1) (d2 - d1))%Q.
Proof. unfold weighted. ring. Qed.

Lemma inject_Z_succ (j : Z) : (inject_Z (j + 1) == inject_Z j + 1)%Q.
Proof. rewrite inject_Z_plus. reflexivity. Qed.

Lemma inject_Z_pred (j : Z) : (inject_Z (j - 1) == inject_Z j - 1)%Q.
Proof.
  unfold Z.sub. rewrite inject_Z_plus, inject_Z_opp. reflexivity.
Qed.

Section SigmaOrder.

Variables (S_max delta_S K r delta_t : Q) (M : Z).

Hypothesis HM : 1 <= M.

Lemma grid_value_last_column (sigma : Q) (i : nat) :
  grid_value S_max delta_S K r sigma delta_t M i M = S_max.
Proof.
  destruct i; simpl; unfold initial_row;
    rewrite (decide_False (P := M = 0)) by lia;
    rewrite decide_True by reflexivity; reflexivity.
Qed.

(** Below the last column every cell of a row is the weighted update of
    the row above; at column 0 the weights vanish. *)
Lemma grid_value_weighted (sigma : Q) (i : nat) (j : Z) :
  0 <= j <= M - 1 ->
  (grid_value S_max delta_S K r sigma delta_t M (S i) j
   == weighted r sigma delta_t (inject_Z j)
        (grid_value S_max delta_S K r sigma delta_t M i (j - 1))
        (grid_value S_max delta_S K r sigma delta_t M i j)
        (grid_value S_max delta_S K r sigma delta_t M i (j + 1)))%Q.
Proof.
  intros Hj. destruct (decide (j = 0)) as [->|Hj0].
  - rewrite !grid_value_first_column. unfold weighted.
    change (inject_Z 0) with 0%Q. simpl. ring.
  - simpl. rewrite !decide_False by lia. apply explicit_step_weighted.
Qed.

(** In a convex row that starts at 0 the last slope is at least the mean
    slope. *)
Lemma convex_row_slope (v : Z -> Q) (n : nat) :
  (v 0%Z == 0)%Q -> convex_row M v -> Z.of_nat n <= M - 1 ->
  (inject_Z (Z.of_nat n + 1) * v (Z.of_nat n)
   <= inject_Z (Z.of_nat n) * v (Z.of_nat n + 1)%Z)%Q.
Proof.
  intros H0 Hc. unfold convex_row in Hc.
  induction n as [|n IH]; intros Hn.
  - change (Z.of_nat 0) with 0. rewrite H0.
    change (inject_Z 0) with 0%Q. lra.
  - specialize (IH ltac:(lia)).
    specialize (Hc (Z.of_nat (S n)) ltac:(lia)).
    replace (Z.of_nat (S n) - 1) with (Z.of_nat n) in Hc by lia.
    replace (Z.of_nat (S n)) with (Z.of_nat n + 1) in * by lia.
    rewrite !inject_Z_succ in *.
    assert (0 <= inject_Z (Z.of_nat n))%Q as Hk
      by (apply (inject_Z_le 0); lia).
    set (k := inject_Z (Z.of_nat n)) in *.
    set (a := v (Z.of_nat n)) in *. set (b := v (Z.of_nat n + 1)) in *.
    set (d := v (Z.of_nat n + 1 + 1)) in *.
    nra.
Qed.

Hypothesis HK : (0 <= K)%Q.
Hypothesis Hmax : (0 <= S_max)%Q.
Hypothesis Htop : (S_max == inject_Z M * delta_S)%Q.

Lemma payoff_first_column : (payoff delta_S K 0 == 0)%Q.
Proof.
  unfold payoff, py_max. change (inject_Z 0) with 0%Q.
  destruct (Qlt_le_dec (0 * delta_S - K) 0); [reflexivity | lra].
Qed.

Lemma payoff_last_column : (payoff delta_S K M <= S_max)%Q.
Proof.
  unfold payoff, py_max.
  destruct (Qlt_le_dec (inject_Z M * delta_S - K) 0); lra.
Qed.

(** Row 0 is equal, as a number, to the payoff below the last column. *)
Lemma initial_row_is_payoff (j : Z) :
  0 <= j <= M - 1 ->
  (initial_row S_max delta_S K M j == payoff delta_S K j)%Q.
Proof.
  intros Hj. unfold initial_row.
  destruct (decide (j = 0)) as [->|_];
    [symmetry; apply payoff_first_column|].
  rewrite decide_False by lia. reflexivity.
Qed.

Lemma initial_row_convex_row (sigma : Q) :
  convex_row M (grid_value S_max delta_S K r sigma delta_t M 0).
Proof.
  intros j Hj. simpl.
  rewrite (initial_row_is_payoff (j - 1)), (initial_row_is_payoff j) by lia.
  pose proof (payoff_convex delta_S K j) as Hc.
  destruct (decide (j + 1 = M)) as [E|E].
  - unfold initial_row at 1.
    rewrite (decide_False (P := j + 1 = 0)) by lia.
    rewrite decide_True by assumption.
    pose proof payoff_last_column as Hl. rewrite <- E in Hl. lra.
  - rewrite (initial_row_is_payoff (j + 1)) by lia. assumption.
Qed.

Section OneSigma.

Variable sigma : Q.

Hypothesis Hdt : (0 <= delta_t)%Q.
Hypothesis Hr0 : (r <= 0)%Q.
Hypothesis Hr1 : (- sigma ^ 2 <= r)%Q.
Hypothesis Hb : (delta_t * (sigma ^ 2 * inject_Z (M - 1) ^ 2) <= 1)%Q.

Lemma sigma_square_nonneg : (0 <= sigma ^ 2)%Q.
Proof. simpl. nra. Qed.

Lemma middle_weight (j : Z) :
  1 <= j <= M - 1 -> (0 <= 1 - sigma ^ 2 * inject_Z j ^ 2 * delta_t)%Q.
Proof.
  intros Hj. pose proof sigma_square_nonneg as Hs.
  assert (1 <= inject_Z j)%Q as Hx1 by (apply (inject_Z_le 1 j); lia).
  assert (inject_Z j <= inject_Z (M - 1))%Q as Hx2
    by (apply inject_Z_le; lia).
  set (x := inject_Z j) in *. set (m := inject_Z (M - 1)) in *.
  set (s2 := (sigma ^ 2)%Q) in *.
  assert (x ^ 2 <= m ^ 2)%Q as Hsq by (simpl; nra).
  assert (0 <= (s2 * delta_t) * (m ^ 2 - x ^ 2))%Q as H
    by (apply Qmult_le_0_compat; [apply Qmult_le_0_compat; assumption | lra]).
  lra.
Qed.

(** One step of the recurrence keeps a row convex. *)
Lemma convex_row_step (i : nat) :
  convex_row M (grid_value S_max delta_S K r sigma delta_t M i) ->
  convex_row M (grid_value S_max delta_S K r sigma delta_t M (S i)).
Proof.
  intros Hc j Hj.
  pose proof sigma_square_nonneg as Hs.
  pose proof (middle_weight j Hj) as Hmid.
  assert (1 <= inject_Z j)%Q as Hx1 by (apply (inject_Z_le 1 j); lia).
  rewrite (grid_value_weighted sigma i (j - 1)) by lia.
  rewrite (grid_value_weighted sigma i j) by lia.
  replace (j - 1 + 1) with j by lia.
  rewrite inject_Z_pred.
  set (v := grid_value S_max delta_S K r sigma delta_t M i) in *.
  set (x := inject_Z j) in *. set (s2 := (sigma ^ 2)%Q) in *.
  assert (0 <= (v (j - 1 - 1)%Z - 2 * v (j - 1)%Z + v j)
               * ((1#2) * delta_t * (x - 1) * (s2 * (x - 1) - r)))%Q as Hlow.
  { destruct (decide (j = 1)) as [E|E].
    - assert (x - 1 == 0)%Q as Ex by (unfold x; rewrite E; reflexivity).
      rewrite Ex. ring_simplify. apply Qle_refl.
    - assert (2 <= x)%Q as Hx2 by (apply (inject_Z_le 2 j); lia).
      specialize (Hc (j - 1) ltac:(lia)).
      replace (j - 1 + 1) with j in Hc by lia.
      apply Qmult_le_0_compat; [assumption|].
      repeat apply Qmult_le_0_compat; try assumption; try lra.
      nra. }
  pose proof (Hc j Hj) as Hcj.
  destruct (decide (j + 1 = M)) as [E|E].
  - assert (grid_value S_max delta_S K r sigma delta_t M (S i) (j + 1)
            = v (j + 1)) as Et
      by (unfold v; rewrite E, !grid_value_last_column; reflexivity).
    rewrite Et.
    rewrite (weighted_second_difference_top r sigma delta_t x).
    fold s2.
    assert (0 <= (v (j - 1)%Z - 2 * v j + v (j + 1)%Z)
                 * (1 - s2 * x ^ 2 * delta_t))%Q as H1
      by (apply Qmult_le_0_compat; assumption).
    assert (0 <= - r * delta_t * ((x + 1) * (v (j + 1)%Z - v j) - v (j + 1)%Z))%Q
      as H3.
    { pose proof (convex_row_slope v (Z.to_nat j)%Z) as Hsl.
      rewrite Z2Nat.id in Hsl by lia.
      specialize (Hsl ltac:(unfold v; rewrite grid_value_first_column;
                            reflexivity) Hc ltac:(lia)).
      rewrite inject_Z_succ in Hsl. fold x in Hsl.
      repeat apply Qmult_le_0_compat; try assumption; lra. }
    lra.
  - rewrite (grid_value_weighted sigma i (j + 1)) by lia.
    replace (j + 1 - 1) with j by lia.
    rewrite inject_Z_succ. fold v x.
    rewrite (weighted_second_difference r sigma delta_t x).
    fold s2.
    assert (0 <= (v (j - 1)%Z - 2 * v j + v (j + 1)%Z)
                 * (1 - s2 * x ^ 2 * delta_t))%Q as H1
      by (apply Qmult_le_0_compat; assumption).
    assert (0 <= (v j - 2 * v (j + 1)%Z + v (j + 1 + 1)%Z)
                 * ((1#2) * delta_t * (x + 1) * (s2 * (x + 1) + r)))%Q as H2.
    { specialize (Hc (j + 1) ltac:(lia)).
      replace (j + 1 - 1) with j in Hc by lia.
      apply Qmult_le_0_compat; [assumption|].
      repeat apply Qmult_le_0_compat; try assumption; try lra.
      nra. }
    lra.
Qed.

Lemma grid_value_convex (i : nat) :
  convex_row M (grid_value S_max delta_S K r sigma delta_t M i).
Proof.
  induction i as [|i IH]; [apply initial_row_convex_row|].
  apply convex_row_step. assumption.
Qed.

End OneSigma.

Section TwoSigmas.

Variables sigma1 sigma2 : Q.

Hypothesis Hdt : (0 <= delta_t)%Q.
Hypothesis Hr0 : (r <= 0)%Q.
Hypothesis Hr1 : (- sigma1 ^ 2 <= r)%Q.
Hypothesis Hs1 : (0 <= sigma1)%Q.
Hypothesis Hs12 : (sigma1 <= sigma2)%Q.
Hypothesis Hb : (delta_t * (sigma2 ^ 2 * inject_Z (M - 1) ^ 2) <= 1)%Q.

Lemma sigma_squares : (sigma1 ^ 2 <= sigma2 ^ 2)%Q.
Proof.
  assert (0 <= (sigma2 - sigma1) * (sigma2 + sigma1))%Q as H
    by (apply Qmult_le_0_compat; lra).
  simpl. lra.
Qed.

Lemma lower_sigma_bound :
  (delta_t * (sigma1 ^ 2 * inject_Z (M - 1) ^ 2) <= 1)%Q.
Proof.
  pose proof sigma_squares as Hs.
  assert (0 <= inject_Z (M - 1) ^ 2)%Q as Hm by (simpl; nra).
  assert (0 <= (sigma2 ^ 2 - sigma1 ^ 2) * inject_Z (M - 1) ^ 2)%Q as H1
    by (apply Qmult_le_0_compat; [lra | assumption]).
  assert (0 <= delta_t * ((sigma2 ^ 2 - sigma1 ^ 2) * inject_Z (M - 1) ^ 2))%Q
    as H2 by (apply Qmult_le_0_compat; assumption).
  lra.
Qed.

(** Row by row, the grid computed with the larger sigma is not below the
    grid computed with the smaller one. *)
Lemma grid_value_sigma_order (i : nat) (j : Z) :
  0 <= j <= M ->
  (grid_value S_max delta_S K r sigma1 delta_t M i j
   <= grid_value S_max delta_S K r sigma2 delta_t M i j)%Q.
Proof.
  revert j. induction i as [|i IH]; intros j Hj; [apply Qle_refl|].
  destruct (decide (j = 0)) as [->|Hj0].
  { rewrite !grid_value_first_column. apply Qle_refl. }
  destruct (decide (j = M)) as [->|HjM].
  { rewrite !grid_value_last_column. apply Qle_refl. }
  simpl. rewrite !decide_False by assumption.
  pose proof (IH (j - 1) ltac:(lia)) as Ha.
  pose proof (IH j ltac:(lia)) as Hbb.
  pose proof (IH (j + 1) ltac:(lia)) as Hd.
  pose proof (grid_value_convex sigma1 Hdt Hr0 Hr1 lower_sigma_bound i j
                ltac:(lia)) as Hconv.
  pose proof sigma_squares as Hsq.
  pose proof (sigma_square_nonneg sigma1) as Hs1sq.
  pose proof (middle_weight sigma2 Hdt Hb j ltac:(lia)) as Hmid.
  assert (1 <= inject_Z j)%Q as Hx1 by (apply (inject_Z_le 1 j); lia).
  set (a1 := grid_value S_max delta_S K r sigma1 delta_t M i (j - 1)) in *.
  set (b1 := grid_value S_max delta_S K r sigma1 delta_t M i j) in *.
  set (d1 := grid_value S_max delta_S K r sigma1 delta_t M i (j + 1)) in *.
  set (a2 := grid_value S_max delta_S K r sigma2 delta_t M i (j - 1)) in *.
  set (b2 := grid_value S_max delta_S K r sigma2 delta_t M i j) in *.
  set (d2 := grid_value S_max delta_S K r sigma2 delta_t M i (j + 1)) in *.
  assert (0 <= explicit_step r sigma2 delta_t j (a2 - a1) (b2 - b1) (d2 - d1))%Q
    as Hrows.
  { apply explicit_step_nonneg; try lra; try lia.
    - right. nra.
    - assert (0 <= - r * delta_t)%Q by (apply Qmult_le_0_compat; lra). lra.
    - nra. }
  pose proof (explicit_step_sigma r sigma1 sigma2 delta_t j a1 b1 d1) as Hsig.
  assert (0 <= (1#2) * (sigma2 ^ 2 - sigma1 ^ 2) * inject_Z j ^ 2 * delta_t
               * (a1 - 2 * b1 + d1))%Q as Hpos.
  { repeat apply Qmult_le_0_compat; try assumption; try lra. }
  rewrite explicit_step_weighted in Hrows.
  rewrite <- weighted_linear in Hrows.
  rewrite <- !explicit_step_weighted in Hrows.
  lra.
Qed.

End TwoSigmas.

End SigmaOrder.

(** With [-sigma1^2 <= r <= 0] and
    [(T/N) * sigma2^2 * (M-1)^2 <= 1] the order holds for any number of
    time steps. *)
Lemma nonpositive_rate_order (S0 K r sigma1 sigma2 T : Q) (N M : Z) :
  1 <= N -> 1 <= M -> (0 < S0)%Q -> (0 <= K)%Q -> (0 <= T)%Q ->
  (0 <= sigma1)%Q -> (sigma1 <= sigma2)%Q ->
  ~ (stability_divisor r sigma1 M == 0)%Q ->
  ~ (stability_divisor r sigma2 M == 0)%Q ->
  stable r sigma1 T N M -> stable r sigma2 T N M ->
  (- sigma1 ^ 2 <= r)%Q -> (r <= 0)%Q ->
  (T / inject_Z N * (sigma2 ^ 2 * inject_Z (M - 1) ^ 2) <= 1)%Q ->
  exists p1 p2,
    FinDiffCall S0 K r sigma1 T N M = Ok (Num p1) /\
    FinDiffCall S0 K r sigma2 T N M = Ok (Num p2) /\
    (p1 <= p2)%Q.
Proof.
  intros HN HM HS HK HT Hs1 Hs12 Hd1 Hd2 Hst1 Hst2 Hr1 Hr0 Hb.
  assert (~ (S0 == 0)%Q) as HS' by lra.
  destruct (FinDiffCall_run_stable S0 K r sigma1 T N M HN HM HS' Hd1 Hst1)
    as (t1 & Hrun1 & _ & _ & Hc1).
  destruct (FinDiffCall_run_stable S0 K r sigma2 T N M HN HM HS' Hd2 Hst2)
    as (t2 & Hrun2 & _ & _ & Hc2).
  unfold FinDiffCall. rewrite Hrun1, Hrun2. simpl.
  eexists. eexists. split; [reflexivity|]. split; [reflexivity|].
  pose proof (result_column_range M HM) as Hj0.
  rewrite Hc1, Hc2 by lia.
  apply grid_value_sigma_order; try assumption.
  - lra.
  - field. apply inject_Z_nonzero. lia.
  - apply Qle_shift_div_l; [|lra].
    apply (Qlt_le_trans _ 1); [reflexivity|]. apply (inject_Z_le 1 N). lia.
Qed.

(** *** Any number of time steps, for a rate that is not negative *)

(** With a positive rate the last column, which is held at [S_max], breaks
    the convexity of the rows next to it, one column more with every step.
    Below that cone the rows stay convex, and the price is read below it
    when [N + M/5 <= M]. *)
Section PositiveRate.

Variables (S_max delta_S K r delta_t : Q) (M : Z).

Hypothesis HM : 1 <= M.
Hypothesis HK : (0 <= K)%Q.
Hypothesis Hmax : (0 <= S_max)%Q.
Hypothesis Htop : (S_max == inject_Z M * delta_S)%Q.
Hypothesis Hdt : (0 <= delta_t)%Q.
Hypothesis Hr0 : (0 <= r)%Q.

Lemma cone_convex_step (sigma : Q) (i : nat) :
  (r <= sigma ^ 2)%Q ->
  (delta_t * (sigma ^ 2 * inject_Z (M - 1) ^ 2) <= 1)%Q ->
  convex_row (M - Z.of_nat i)
    (grid_value S_max delta_S K r sigma delta_t M i) ->
  convex_row (M - Z.of_nat (S i))
    (grid_value S_max delta_S K r sigma delta_t M (S i)).
Proof.
  intros Hr1 Hb Hc j Hj.
  pose proof (sigma_square_nonneg sigma) as Hs.
  pose proof (middle_weight delta_t M sigma Hdt Hb j ltac:(lia)) as Hmid.
  assert (1 <= inject_Z j)%Q as Hx1 by (apply (inject_Z_le 1 j); lia).
  rewrite (grid_value_weighted _ _ _ _ _ _ sigma i (j - 1)) by lia.
  rewrite (grid_value_weighted _ _ _ _ _ _ sigma i j) by lia.
  rewrite (grid_value_weighted _ _ _ _ _ _ sigma i (j + 1)) by lia.
  replace (j - 1 + 1) with j by lia.
  replace (j + 1 - 1) with j by lia.
  rewrite inject_Z_pred, inject_Z_succ.
  set (v := grid_value S_max delta_S K r sigma delta_t M i) in *.
  set (x := inject_Z j) in *. set (s2 := (sigma ^ 2)%Q) in *.
  rewrite (weighted_second_difference r sigma delta_t x).
  fold s2.
  assert (0 <= (v (j - 1 - 1)%Z - 2 * v (j - 1)%Z + v j)
               * ((1#2) * delta_t * (x - 1) * (s2 * (x - 1) - r)))%Q as Hlow.
  { destruct (decide (j = 1)) as [E|E].
    - assert (x - 1 == 0)%Q as Ex by (unfold x; rewrite E; reflexivity).
      rewrite Ex. ring_simplify. apply Qle_refl.
    - assert (2 <= x)%Q as Hx2 by (apply (inject_Z_le 2 j); lia).
      specialize (Hc (j - 1) ltac:(lia)).
      replace (j - 1 + 1) with j in Hc by lia.
      apply Qmult_le_0_compat; [assumption|].
      repeat apply Qmult_le_0_compat; try assumption; try lra.
      nra. }
  assert (0 <= (v (j - 1)%Z - 2 * v j + v (j + 1)%Z)
               * (1 - s2 * x ^ 2 * delta_t))%Q as H1
    by (apply Qmult_le_0_compat; [apply Hc; lia | assumption]).
  assert (0 <= (v j - 2 * v (j + 1)%Z + v (j + 1 + 1)%Z)
               * ((1#2) * delta_t * (x + 1) * (s2 * (x + 1) + r)))%Q as H2.
  { specialize (Hc (j + 1) ltac:(lia)).
    replace (j + 1 - 1) with j in Hc by lia.
    apply Qmult_le_0_compat; [assumption|].
    repeat apply Qmult_le_0_compat; try assumption; try lra.
    nra. }
  lra.
Qed.

Lemma cone_convex (sigma : Q) (i : nat) :
  (r <= sigma ^ 2)%Q ->
  (delta_t * (sigma ^ 2 * inject_Z (M - 1) ^ 2) <= 1)%Q ->
  convex_row (M - Z.of_nat i)
    (grid_value S_max delta_S K r sigma delta_t M i).
Proof.
  intros Hr1 Hb. induction i as [|i IH].
  - change (Z.of_nat 0) with 0. rewrite Z.sub_0_r.
    apply initial_row_convex_row; assumption.
  - apply cone_convex_step; assumption.
Qed.

(** Below the cone the grid computed with the larger sigma is not below
    the grid computed with the smaller one. *)
Lemma cone_sigma_order (sigma1 sigma2 : Q) (i : nat) (j : Z) :
  (0 <= sigma1)%Q -> (sigma1 <= sigma2)%Q -> (r <= sigma1 ^ 2)%Q ->
  (delta_t * (r + sigma2 ^ 2 * inject_Z (M - 1) ^ 2) <= 1)%Q ->
  0 <= j <= M - Z.of_nat i ->
  (grid_value S_max delta_S K r sigma1 delta_t M i j
   <= grid_value S_max delta_S K r sigma2 delta_t M i j)%Q.
Proof.
  intros Hs1 Hs12 Hr1 Hb. revert j.
  assert (0 <= delta_t * r)%Q as Hdr by (apply Qmult_le_0_compat; assumption).
  assert (delta_t * (sigma2 ^ 2 * inject_Z (M - 1) ^ 2) <= 1)%Q as Hb2 by lra.
  pose proof (lower_sigma_bound delta_t M sigma1 sigma2 Hdt Hs1 Hs12 Hb2)
    as Hb1.
  pose proof (sigma_squares sigma1 sigma2 Hs1 Hs12) as Hsq.
  induction i as [|i IH]; intros j Hj; [apply Qle_refl|].
  destruct (decide (j = 0)) as [->|Hj0].
  { rewrite !grid_value_first_column. apply Qle_refl. }
  simpl. rewrite !decide_False by lia.
  pose proof (IH (j - 1) ltac:(lia)) as Ha.
  pose proof (IH j ltac:(lia)) as Hbb.
  pose proof (IH (j + 1) ltac:(lia)) as Hd.
  pose proof (cone_convex sigma1 i Hr1 Hb1 j ltac:(lia)) as Hconv.
  pose proof (sigma_square_nonneg sigma1) as Hs1sq.
  pose proof (middle_weight delta_t M sigma2 Hdt Hb2 j ltac:(lia)) as Hmid.
  assert (1 <= inject_Z j)%Q as Hx1 by (apply (inject_Z_le 1 j); lia).
  assert (inject_Z j <= inject_Z (M - 1))%Q as Hx2
    by (apply inject_Z_le; lia).
  set (a1 := grid_value S_max delta_S K r sigma1 delta_t M i (j - 1)) in *.
  set (b1 := grid_value S_max delta_S K r sigma1 delta_t M i j) in *.
  set (d1 := grid_value S_max delta_S K r sigma1 delta_t M i (j + 1)) in *.
  set (a2 := grid_value S_max delta_S K r sigma2 delta_t M i (j - 1)) in *.
  set (b2 := grid_value S_max delta_S K r sigma2 delta_t M i j) in *.
  set (d2 := grid_value S_max delta_S K r sigma2 delta_t M i (j + 1)) in *.
  assert (0 <= explicit_step r sigma2 delta_t j (a2 - a1) (b2 - b1) (d2 - d1))%Q
    as Hrows.
  { apply explicit_step_nonneg; try lra; try lia.
    - right. nra.
    - set (x := inject_Z j) in *. set (m := inject_Z (M - 1)) in *.
      set (s2 := (sigma2 ^ 2)%Q) in *.
      assert (0 <= s2)%Q as Hs2 by lra.
      assert (x ^ 2 <= m ^ 2)%Q as Hxm by (simpl; nra).
      assert (0 <= (delta_t * s2) * (m ^ 2 - x ^ 2))%Q as H
        by (apply Qmult_le_0_compat;
            [apply Qmult_le_0_compat; assumption | lra]).
      lra.
    - nra. }
  pose proof (explicit_step_sigma r sigma1 sigma2 delta_t j a1 b1 d1) as Hsig.
  assert (0 <= (1#2) * (sigma2 ^ 2 - sigma1 ^ 2) * inject_Z j ^ 2 * delta_t
               * (a1 - 2 * b1 + d1))%Q as Hpos.
  { repeat apply Qmult_le_0_compat; try assumption; try lra. }
  rewrite explicit_step_weighted in Hrows.
  rewrite <- weighted_linear in Hrows.
  rewrite <- !explicit_step_weighted in Hrows.
  lra.
Qed.

End PositiveRate.

(** With [0 <= r <= sigma1^2],
    [(T/N) * (r + sigma2^2 * (M-1)^2) <= 1] and [N + M/5 <= M] the order
    holds at the column that is read. *)
Lemma nonnegative_rate_order (S0 K r sigma1 sigma2 T : Q) (N M : Z) :
  1 <= N -> 1 <= M -> (0 < S0)%Q -> (0 <= K)%Q -> (0 <= T)%Q ->
  (0 <= sigma1)%Q -> (sigma1 <= sigma2)%Q ->
  ~ (stability_divisor r sigma1 M == 0)%Q ->
  ~ (stability_divisor r sigma2 M == 0)%Q ->
  stable r sigma1 T N M -> stable r sigma2 T N M ->
  (0 <= r)%Q -> (r <= sigma1 ^ 2)%Q ->
  (T / inject_Z N * (r + sigma2 ^ 2 * inject_Z (M - 1) ^ 2) <= 1)%Q ->
  N + M / 5 <= M ->
  exists p1 p2,
    FinDiffCall S0 K r sigma1 T N M = Ok (Num p1) /\
    FinDiffCall S0 K r sigma2 T N M = Ok (Num p2) /\
    (p1 <= p2)%Q.
Proof.
  intros HN HM HS HK HT Hs1 Hs12 Hd1 Hd2 Hst1 Hst2 Hr0 Hr1 Hb Hcone.
  assert (~ (S0 == 0)%Q) as HS' by lra.
  destruct (FinDiffCall_run_stable S0 K r sigma1 T N M HN HM HS' Hd1 Hst1)
    as (t1 & Hrun1 & _ & _ & Hc1).
  destruct (FinDiffCall_run_stable S0 K r sigma2 T N M HN HM HS' Hd2 Hst2)
    as (t2 & Hrun2 & _ & _ & Hc2).
  unfold FinDiffCall. rewrite Hrun1, Hrun2. simpl.
  eexists. eexists. split; [reflexivity|]. split; [reflexivity|].
  pose proof (result_column_range M HM) as Hj0.
  rewrite Hc1, Hc2 by lia.
  apply cone_sigma_order; try assumption.
  - lra.
  - field. apply inject_Z_nonzero. lia.
  - apply Qle_shift_div_l; [|lra].
    apply (Qlt_le_trans _ 1); [reflexivity|]. apply (inject_Z_le 1 N). lia.
  - rewrite Z2Nat.id by lia. lia.
Qed.

(** ** MCCall: the estimate and the reported width *)

Section MonteCarlo.

Local Open Scope R_scope.

Lemma np_maximum_zeros (f : R -> R) (l : list R) :
  np_maximum (map f l) (repeat 0 (length l)) = map (fun x => Rmax (f x) 0) l.
Proof.
  unfold np_maximum. induction l as [|x l IH]; simpl; [reflexivity|].
  rewrite IH. reflexivity.
Qed.

Lemma fold_left_total (l : list R) (a : R) :
  fold_left Rplus l a = a + total l.
Proof.
  revert a. induction l as [|x l IH]; intros a; simpl.
  - unfold total. simpl. lra.
  - rewrite IH. unfold total. simpl. lra.
Qed.

Lemma py_sum_total (l : list R) : py_sum l = total l.
Proof. unfold py_sum. rewrite fold_left_total. lra. Qed.

Lemma np_std_population (l : list R) : np_std l = population_std l.
Proof.
  unfold np_std, population_std, squared_deviations, np_mean.
  rewrite length_map. fold (total l). fold (arithmetic_mean l).
  f_equal. f_equal. unfold total. f_equal.
  apply map_ext. intros x. apply pow2_abs.
Qed.

(** The three array operations compute the discounted payoff of each
    draw. *)
Lemma discounted_payoffs (S0 K r sigma T : R) (Weiner : list R) :
  map (fun p => exp (- r * T) * p)
    (np_maximum
       (map (fun v => v - K)
          (map (fun w => S0 * exp ((r - 0.5 * sigma ^ 2) * T + sigma * w))
             Weiner))
       (repeat 0 (length Weiner)))
  = map (discounted_payoff_of S0 K r sigma T) Weiner.
Proof.
  rewrite map_map, np_maximum_zeros, map_map.
  apply map_ext. intros w. unfold discounted_payoff_of.
  replace (- r * T) with (- (r * T)) by lra.
  replace (0.5 * sigma ^ 2) with (sigma ^ 2 / 2) by lra.
  reflexivity.
Qed.

(** What a call with at least one draw prints and returns. *)
Lemma MCCall_value (S0 K r sigma T : R) (n : Z) (Weiner : list R) :
  0 <= T -> (1 <= n)%Z -> length Weiner = Z.to_nat n ->
  let payoffs := map (discounted_payoff_of S0 K r sigma T) Weiner in
  MCCall S0 K r sigma T n Weiner
  = Ok (mkOutput
          [(width_label, interval_width (population_std payoffs) n)]
          (arithmetic_mean payoffs)).
Proof.
  intros HT Hn Hlen payoffs. unfold MCCall.
  destruct (Rlt_dec T 0) as [Hneg|_]; [lra|].
  destruct (Z.ltb_spec n 0) as [Hlt|_]; [lia|].
  destruct (Z.eqb_spec n 0) as [Hz|_]; [lia|].
  rewrite <- Hlen, discounted_payoffs. fold payoffs.
  rewrite py_sum_total, np_std_population.
  unfold interval_width, arithmetic_mean.
  replace (INR (length payoffs)) with (IZR n); [reflexivity|].
  unfold payoffs. rewrite length_map, Hlen, INR_IZR_INZ, Z2Nat.id by lia.
  reflexivity.
Qed.

(** C10 (as amended).  For T >= 0 and n >= 1 draws, [MCCall] returns the
    arithmetic mean of the n discounted payoffs
    [e^(-rT) * max(S(T) - K, 0)] and prints one line, the label followed by
    the width [2 * 1.96 * s / sqrt n], where [s] is the standard deviation
    of those payoffs with divisor [n] ([np.std] with its default
    arguments), not the one with divisor [n - 1]. *)
Theorem MCCall_estimate (S0 K r sigma T : R) (n : Z) (Weiner : list R) :
  0 <= T -> (1 <= n)%Z -> length Weiner = Z.to_nat n ->
  let payoffs := map (discounted_payoff_of S0 K r sigma T) Weiner in
  MCCall S0 K r sigma T n Weiner
  = Ok (mkOutput
          [(width_label, interval_width (population_std payoffs) n)]
          (arithmetic_mean payoffs)).
Proof. exact (MCCall_value S0 K r sigma T n Weiner). Qed.

Lemma MCCall_estimate_witness :
  let payoffs := map (discounted_payoff_of 2 1 0 1 2) [1; 0] in
  MCCall 2 1 0 1 2 2 [1; 0]
  = Ok (mkOutput
          [(width_label, interval_width (population_std payoffs) 2)]
          (arithmetic_mean payoffs)).
Proof.
  apply (MCCall_estimate 2 1 0 1 2 2 [1; 0]); [lra | lia | reflexivity].
Defined.

(** Two draws for S0 = 2, K = 1, r = 0, sigma = 1, T = 2: the draw 1 ends
    at S(T) = 2, with payoff 1, and the draw 0 ends below the strike. *)
Lemma payoff_in_the_money : discounted_payoff_of 2 1 0 1 2 1 = 1.
Proof.
  unfold discounted_payoff_of.
  replace (- (0 * 2)) with 0 by lra.
  replace ((0 - 1 ^ 2 / 2) * 2 + 1 * 1) with 0 by lra.
  rewrite exp_0. rewrite Rmax_left by lra. lra.
Qed.

Lemma payoff_out_of_the_money : discounted_payoff_of 2 1 0 1 2 0 = 0.
Proof.
  unfold discounted_payoff_of.
  replace (- (0 * 2)) with 0 by lra.
  replace ((0 - 1 ^ 2 / 2) * 2 + 1 * 0) with (Ropp 1) by lra.
  rewrite exp_0, exp_Ropp.
  assert (2 < exp 1) as He by (pose proof (exp_ineq1 1 ltac:(lra)); lra).
  assert (/ exp 1 < / 2) as Hi by (apply Rinv_lt_contravar; lra).
  rewrite Rmax_right by lra. lra.
Qed.

(** C10 (as stated) fails when the sample standard deviation is the one
    with divisor n - 1: for the two payoffs 1 and 0 the code prints the
    width for the deviation 1/2, not for sqrt(1/2). *)
Lemma MCCall_width_divisor :
  let payoffs := map (discounted_payoff_of 2 1 0 1 2) [1; 0] in
  exists out,
    MCCall 2 1 0 1 2 2 [1; 0] = Ok out /\
    returned out = arithmetic_mean payoffs /\
    printed out <> [(width_label, interval_width (sample_std payoffs) 2)].
Proof.
  intros payoffs.
  rewrite (MCCall_value 2 1 0 1 2 2 [1; 0]) by (lra || lia || reflexivity).
  fold payoffs. eexists. split; [reflexivity|]. split; [reflexivity|].
  simpl. intros H. injection H as H.
  unfold interval_width in H.
  assert (0 < sqrt 2) as Hs by (apply sqrt_lt_R0; lra).
  assert (population_std payoffs = sample_std payoffs) as E.
  { apply (Rmult_eq_reg_l (2 * 1.96 / sqrt 2)).
    - unfold Rdiv in *. lra.
    - apply Rgt_not_eq. apply Rdiv_lt_0_compat; lra. }
  clear H. unfold payoffs in E. simpl in E.
  rewrite payoff_in_the_money, payoff_out_of_the_money in E.
  unfold population_std, sample_std, squared_deviations, arithmetic_mean,
    total in E. simpl in E.
  assert (forall x y, 0 <= x -> 0 <= y -> sqrt x = sqrt y -> x = y) as Hinj
    by (intros x y Hx Hy; apply sqrt_inj; assumption).
  apply Hinj in E; lra.
Qed.

(** With the single draw 0 and S0 = 2, K = 1, r = 0, T = 2 the price at
    maturity is [2 * exp(-sigma^2)]: the estimate is at least 1/2 for
    sigma = 1/2 and 0 for sigma = 1. *)
Lemma MCCall_sigma_falls :
  exists out1 out2,
    MCCall 2 1 0 (1/2) 2 1 [0] = Ok out1 /\
    MCCall 2 1 0 1 2 1 [0] = Ok out2 /\
    returned out2 < returned out1.
Proof.
  rewrite (MCCall_value 2 1 0 (1/2) 2 1 [0]) by (lra || lia || reflexivity).
  rewrite (MCCall_value 2 1 0 1 2 1 [0]) by (lra || lia || reflexivity).
  eexists. eexists. split; [reflexivity|]. split; [reflexivity|].
  simpl. rewrite payoff_out_of_the_money.
  unfold arithmetic_mean, total. simpl.
  assert (1 / 2 <= discounted_payoff_of 2 1 0 (1/2) 2 0) as Hp.
  { unfold discounted_payoff_of.
    replace (- (0 * 2)) with 0 by lra. rewrite exp_0.
    replace ((0 - (1 / 2) ^ 2 / 2) * 2 + 1 / 2 * 0) with (- (1 / 4)) by lra.
    pose proof (exp_ineq1_le (- (1 / 4))) as He.
    pose proof (Rmax_l (2 * exp (- (1 / 4)) - 1) 0) as Hm. lra. }
  lra.
Qed.

End MonteCarlo.


(** ** FinDiffCall: every outcome *)

Lemma unstable_value (r sigma delta_t : Q) (M : Z) :
  ~ (stability_divisor r sigma M == 0)%Q ->
  unstable r sigma delta_t M
  = Ok (gt_bool delta_t (1 / stability_divisor r sigma M)).
Proof.
  intros Hd. unfold unstable. rewrite truediv_ok by assumption. reflexivity.
Qed.

(** A call with a negative number of time steps builds a grid with no row:
    the first subscript raises. *)
Lemma no_row_raises (S0 K r sigma delta_t S_max delta_S : Q) (N M : Z) :
  N < 0 ->
  (do s1 <- initialise S_max delta_S K N M ;
   do s2 <- recurrence r sigma delta_t N M s1 ;
   do '(v, s3) <- read_result S0 delta_S N s2 ;
   Ok (Num v, s3)) = Raise IndexError.
Proof.
  intros HN. unfold initialise, alloc, set_payoff, set_boundary, recurrence,
    range.
  rewrite (seqZ_nil 0 (N + 1 - 0)) by lia.
  rewrite (seqZ_nil 1 (N + 1 - 1)) by lia. cbn [fmap list_fmap].
  destruct (decide (M + 1 - 0 <= 0)) as [HM|HM].
  - rewrite (seqZ_nil 0 (M + 1 - 0)) by lia. cbn [for_ bind].
    unfold read_result, index. cbn [c length].
    destruct (Z.leb_spec 0 N); [lia|].
    destruct (Z.leb_spec (- Z.of_nat 0) N); [lia|]. reflexivity.
  - rewrite (seqZ_cons 0 (M + 1 - 0)) by lia. cbn [for_].
    reflexivity.
Qed.

(** A call with a negative number of price steps builds rows with no cell:
    the boundary loop raises on its first assignment. *)
Lemma no_cell_raises (S0 K r sigma delta_t S_max delta_S : Q) (N M : Z) :
  1 <= N -> M < 0 ->
  (do s1 <- initialise S_max delta_S K N M ;
   do s2 <- recurrence r sigma delta_t N M s1 ;
   do '(v, s3) <- read_result S0 delta_S N s2 ;
   Ok (Num v, s3)) = Raise IndexError.
Proof.
  intros HN HM. unfold initialise, alloc, set_payoff, set_boundary, range.
  rewrite (seqZ_nil 0 (M + 1 - 0)) by lia. cbn [for_ bind].
  rewrite (seqZ_cons 0 (N + 1 - 0)) by lia. cbn [fmap list_fmap for_ bind].
  unfold setitem at 1. cbn [c length index].
  reflexivity.
Qed.

(** What a call returns or raises, case by case, in the order in which the
    code reaches the cases. *)
Lemma FinDiffCall_cases (S0 K r sigma T : Q) (N M : Z) :
  FinDiffCall S0 K r sigma T N M
  = if decide (N = 0 \/ M = 0) then Raise ZeroDivisionError
    else if Qeq_bool (stability_divisor r sigma M) 0
    then Raise ZeroDivisionError
    else if gt_bool (T / inject_Z N) (1 / stability_divisor r sigma M)
    then Ok (Str time_resolution_message)
    else if decide (N < 0 \/ M < 0) then Raise IndexError
    else if Qeq_bool S0 0 then Raise ZeroDivisionError
    else Ok (Num (grid_value (5 * S0) (5 * S0 / inject_Z M) K r sigma
                    (T / inject_Z N) M (Z.to_nat N) (M / 5))).
Proof.
  destruct (decide (N = 0 \/ M = 0)) as [H0|H0].
  { pose proof (proj2 (derived_stops S0 T N M) H0) as [e He].
    unfold FinDiffCall, FinDiffCall_run. rewrite He.
    unfold derived, truediv in He.
    destruct (Qeq_bool (inject_Z N) 0); [injection He as <-; reflexivity|].
    cbn [bind] in He.
    destruct (Qeq_bool (inject_Z M) 0); [injection He as <-; reflexivity|].
    discriminate He. }
  assert (N <> 0 /\ M <> 0) as [HN HM] by lia.
  unfold FinDiffCall, FinDiffCall_run.
  rewrite derived_ok by assumption. cbn [bind].
  destruct (Qeq_bool (stability_divisor r sigma M) 0) eqn:Ed.
  { unfold unstable, truediv. rewrite Ed. reflexivity. }
  assert (~ (stability_divisor r sigma M == 0)%Q) as Hd.
  { intros H. apply Qeq_bool_iff in H. congruence. }
  rewrite unstable_value by assumption. cbn [bind].
  destruct (gt_bool (T / inject_Z N) (1 / stability_divisor r sigma M)) eqn:Eg;
    [reflexivity|].
  destruct (decide (N < 0 \/ M < 0)) as [Hneg|Hpos].
  { destruct (decide (N < 0)) as [HN'|HN'].
    - rewrite no_row_raises by assumption. reflexivity.
    - rewrite no_cell_raises by lia. reflexivity. }
  assert (1 <= N /\ 1 <= M) as [HN1 HM1] by lia.
  destruct (Qeq_bool S0 0) eqn:ES.
  { apply Qeq_bool_iff in ES.
    destruct (initialise_spec (5 * S0) (5 * S0 / inject_Z M) K N M HN1 HM1)
      as (s1 & H1 & Hg1 & Hb1 & Hr1).
    rewrite H1. cbn [bind].
    destruct (recurrence_spec (5 * S0) (5 * S0 / inject_Z M) K r sigma
                (T / inject_Z N) N M HN1 HM1 s1 Hg1 Hb1 Hr1)
      as (s2 & H2 & Hg2 & Hc2).
    rewrite H2. cbn [bind]. unfold read_result.
    rewrite (index_in_range (length (c s2)) N)
      by (destruct Hg2 as [[-> _] _]; lia).
    cbn [bind]. unfold truediv.
    assert (5 * S0 / inject_Z M == 0)%Q as Ez by (rewrite ES; reflexivity).
    apply Qeq_bool_iff in Ez. rewrite Ez. reflexivity. }
  assert (~ (S0 == 0)%Q) as HS.
  { intros H. apply Qeq_bool_iff in H. congruence. }
  apply gt_bool_false in Eg.
  destruct (FinDiffCall_run_stable S0 K r sigma T N M HN1 HM1 HS Hd Eg)
    as (s & Hrun & _ & _ & Hc).
  unfold FinDiffCall_run in Hrun. rewrite derived_ok in Hrun by assumption.
  cbn [bind] in Hrun. rewrite unstable_value in Hrun by assumption.
  cbn [bind] in Hrun.
  apply gt_bool_false in Eg. rewrite Eg in Hrun. rewrite Hrun. cbn [bind].
  rewrite Hc by (pose proof (result_column_range M HM1); lia). reflexivity.
Qed.

Lemma gt_bool_true (x y : Q) : gt_bool x y = true <-> ~ (x <= y)%Q.
Proof.
  rewrite <- gt_bool_false. destruct (gt_bool x y); split; congruence.
Qed.

(** Closes one direction of one case: the equation is false, the
    conditions contradict the case, or they are the case. *)
Ltac outcome_case :=
  intros;
  repeat match goal with
         | H : _ /\ _ |- _ => destruct H
         | H : _ \/ _ |- _ => destruct H
         end;
  try discriminate; try contradiction; try lia; try tauto;
  try (repeat split; (assumption || lia)).

(** ** FinDiffCall on binary64 scalars *)

(** *** Signs *)

Lemma binary_round_aux_sign (b : bool) (m e : Z) (l : location) :
  sf_sign_is b (binary_round_aux prec emax b m e l).
Proof.
  unfold binary_round_aux.
  destruct (shr_fexp prec emax m e l) as [mrs' e'].
  destruct (shr_fexp prec emax _ e' loc_Exact) as [mrs'' e''].
  destruct (shr_m mrs''); [reflexivity | | exact I].
  destruct (e'' <=? emax - prec); reflexivity.
Qed.

Lemma binary_round_sign (b : bool) (m : positive) (e : Z) :
  sf_sign_is b (binary_round prec emax b m e).
Proof.
  unfold binary_round. destruct (shl_align m e _) as [mz ez].
  apply binary_round_aux_sign.
Qed.

Lemma binary_normalize_sign (z e : Z) :
  0 <= z -> sf_sign_is false (binary_normalize prec emax z e false).
Proof.
  intros Hz. destruct z as [|p|p]; [reflexivity | apply binary_round_sign | lia].
Qed.

Lemma SFmul_sign (a b : bool) (x y : spec_float) :
  sf_sign_is a x -> sf_sign_is b y ->
  sf_sign_is (xorb a b) (SF64mul x y).
Proof.
  destruct x as [sx|sx| |sx mx ex], y as [sy|sy| |sy my ey]; simpl;
    intros; subst; try reflexivity; try exact I.
  apply binary_round_aux_sign.
Qed.

Lemma SFdiv_sign (a b : bool) (x y : spec_float) :
  sf_sign_is a x -> sf_sign_is b y ->
  sf_sign_is (xorb a b) (SF64div x y).
Proof.
  destruct x as [sx|sx| |sx mx ex], y as [sy|sy| |sy my ey]; simpl;
    intros; subst; try reflexivity; try exact I.
  destruct (SFdiv_core_binary prec emax (Z.pos mx) ex (Z.pos my) ey)
    as [[mz ez] lz].
  apply binary_round_aux_sign.
Qed.

Lemma sf_sign_exists (x : spec_float) : exists a, sf_sign_is a x.
Proof.
  destruct x as [s|s| |s m e]; try (exists s; reflexivity).
  exists false. exact I.
Qed.

Lemma SFldexp_sign (a : bool) (x : spec_float) (e : Z) :
  sf_sign_is a x -> sf_sign_is a (SFldexp prec emax x e).
Proof.
  destruct x as [s|s| |s m ex]; simpl; intros; subst; try reflexivity;
    try exact I.
  apply binary_round_sign.
Qed.

Lemma SF2Prim_sign (x : spec_float) :
  sf_sign_is false x -> sf_sign_is false (Prim2SF (SF2Prim x)).
Proof.
  destruct x as [s|s| |s m e]; simpl; intros H; subst;
    try (vm_compute; reflexivity).
  unfold Z.ldexp. rewrite ldshiftexp_spec. apply SFldexp_sign.
  rewrite of_uint63_spec. apply binary_normalize_sign.
  apply Uint63.to_Z_bounded.
Qed.

Lemma b64_of_int_sign (z : Z) (x : float) :
  0 <= z -> b64_of_int z = Ok x -> sf_sign_is false (Prim2SF x).
Proof.
  intros Hz. unfold b64_of_int.
  destruct (is_infinity _); [discriminate|].
  intros H. injection H as <-.
  apply SF2Prim_sign, binary_normalize_sign. assumption.
Qed.

Lemma math_floor_b64_sign (q : float) (j : Z) :
  sf_sign_is false (Prim2SF q) -> math_floor_b64 q = Ok j -> 0 <= j.
Proof.
  unfold math_floor_b64.
  destruct (Prim2SF q) as [s|s| |s m e]; simpl; intros Hs H;
    try discriminate H; injection H as <-; [lia|].
  subst s. apply Z.shiftl_nonneg. lia.
Qed.

(** The quotient [S0/delta_S] with [delta_S = 5*S0/M] is not negative
    when [M] is not: the signs of [S0] cancel. *)
Lemma result_column_b64_nonneg (S0 m : float) (j0 : Z) :
  sf_sign_is false (Prim2SF m) ->
  result_column_b64 S0 (5 * S0 / m) = Ok j0 -> 0 <= j0.
Proof.
  intros Hm. unfold result_column_b64, truediv_b64.
  destruct (5 * S0 / m =? 0)%float; [discriminate|]. cbn [bind].
  apply math_floor_b64_sign.
  destruct (sf_sign_exists (Prim2SF S0)) as [a Ha].
  rewrite div_spec, div_spec, mul_spec.
  replace false with (xorb a (xorb (xorb false a) false))
    by (destruct a; reflexivity).
  apply SFdiv_sign; [assumption|].
  apply SFdiv_sign; [|assumption].
  apply SFmul_sign; [vm_compute; reflexivity | assumption].
Qed.

(** ** FinDiffCall on binary64 scalars: the run *)

Section RunB64.

Variable pow2 : float -> float.

(** The run, case by case, in the order in which the code reaches the
    cases. *)
Lemma FinDiffCall_b64_run_cases (S0 K r sigma T : float) (N M : Z) :
  FinDiffCall_b64_run pow2 S0 K r sigma T N M
  = match b64_of_int N with
    | Raise e => Some (Raise e)
    | Ok n =>
    if (n =? 0)%float then Some (Raise ZeroDivisionError) else
    match b64_of_int M with
    | Raise e => Some (Raise e)
    | Ok m =>
    if (m =? 0)%float then Some (Raise ZeroDivisionError) else
    if is_infinity (pow2 sigma) && negb (is_infinity sigma)
    then Some (Raise OverflowError) else
    match b64_of_int (M - 1) with
    | Raise e => Some (Raise e)
    | Ok m1 =>
    if (pow2 sigma * m1 + 0.5 * r =? 0)%float
    then Some (Raise ZeroDivisionError) else
    if (1 / (pow2 sigma * m1 + 0.5 * r) <? T / n)%float
    then Some (Ok (Str time_resolution_message, mkState [] [])) else
    match b64_value (5 * S0), b64_value (5 * S0 / m), b64_value K,
          b64_value r, b64_value sigma, b64_value (T / n) with
    | Some S_max', Some delta_S', Some K',
      Some r', Some sigma', Some delta_t' =>
        Some (grid_phase_b64 S0 (5 * S0 / m) S_max' delta_S' K' r' sigma'
                delta_t' N M)
    | _, _, _, _, _, _ => None
    end end end end.
Proof.
  unfold FinDiffCall_b64_run, derived_b64, unstable_b64, math_pow_2_b64,
    truediv_b64.
  destruct (b64_of_int N) as [n|e]; cbn [bind]; [|reflexivity].
  destruct (n =? 0)%float; cbn [bind]; [reflexivity|].
  destruct (b64_of_int M) as [m|e]; cbn [bind]; [|reflexivity].
  destruct (m =? 0)%float; cbn [bind]; [reflexivity|].
  destruct (is_infinity (pow2 sigma) && negb (is_infinity sigma));
    cbn [bind]; [reflexivity|].
  destruct (b64_of_int (M - 1)) as [m1|e]; cbn [bind]; [|reflexivity].
  destruct (pow2 sigma * m1 + 0.5 * r =? 0)%float; cbn [bind];
    [reflexivity|].
  destruct (1 / (pow2 sigma * m1 + 0.5 * r) <? T / n)%float; reflexivity.
Qed.

Lemma b64_of_int_zero : b64_of_int 0 = Ok 0%float.
Proof. vm_compute. reflexivity. Qed.

(** With a negative number of time steps the grid has no row, with a
    negative number of price steps its rows have no cell: the first
    subscript raises. *)
Lemma grid_phase_b64_negative (S0 delta_S : float)
  (S_max' delta_S' K' r' sigma' delta_t' : Q) (N M : Z) :
  N < 0 \/ (1 <= N /\ M < 0) ->
  grid_phase_b64 S0 delta_S S_max' delta_S' K' r' sigma' delta_t' N M
  = Raise IndexError.
Proof.
  intros [HN|[HN HM]]; unfold grid_phase_b64, initialise, alloc, set_payoff,
    set_boundary, recurrence, range.
  - rewrite (seqZ_nil 0 (N + 1 - 0)) by lia.
    rewrite (seqZ_nil 1 (N + 1 - 1)) by lia. cbn [fmap list_fmap].
    destruct (decide (M + 1 - 0 <= 0)) as [HM|HM].
    + rewrite (seqZ_nil 0 (M + 1 - 0)) by lia. cbn [for_ bind].
      unfold read_result_b64, index. cbn [c length].
      destruct (Z.leb_spec 0 N); [lia|].
      destruct (Z.leb_spec (- Z.of_nat 0) N); [lia|]. reflexivity.
    + rewrite (seqZ_cons 0 (M + 1 - 0)) by lia. cbn [for_].
      reflexivity.
  - rewrite (seqZ_nil 0 (M + 1 - 0)) by lia. cbn [for_ bind].
    rewrite (seqZ_cons 0 (N + 1 - 0)) by lia. cbn [fmap list_fmap for_ bind].
    unfold setitem at 1. cbn [c length index].
    reflexivity.
Qed.

Lemma getitem_column (N M : Z) (s s' : state) (i j : Z) (v : Q) :
  dims N M (c s) -> 0 <= i <= N ->
  getitem i j s = Ok (v, s') -> - (M + 1) <= j <= M.
Proof.
  intros Hd Hi. unfold getitem.
  destruct (dims_row N M (c s) (Z.to_nat i) Hd) as (row & Hrow & Hlen); [lia|].
  rewrite index_in_range by (destruct Hd as [-> _]; lia). cbn [bind].
  rewrite Hrow. simpl. rewrite Hlen. unfold index.
  destruct (Z.leb_spec 0 j).
  - destruct (Z.ltb_spec j (Z.of_nat (Z.to_nat (M + 1)))); [|discriminate].
    lia.
  - destruct (Z.leb_spec (- Z.of_nat (Z.to_nat (M + 1))) j); [|discriminate].
    lia.
Qed.


(** The code after the guard, for positive step counts: the two
    initialisation loops and the recurrence run without raising and leave
    the grid of [grid_value]; the call then returns the cell of row [N] at
    the column computed, when that column is in the row. *)
Lemma grid_phase_b64_ok (S0 delta_S : float)
  (S_max' delta_S' K' r' sigma' delta_t' : Q) (N M j0 : Z) :
  1 <= N -> 1 <= M ->
  result_column_b64 S0 delta_S = Ok j0 -> 0 <= j0 <= M ->
  exists s,
    grid_phase_b64 S0 delta_S S_max' delta_S' K' r' sigma' delta_t' N M
    = Ok (Num (cell s N j0), s) /\
    good N M s /\
    head (accesses s) = Some (N, j0) /\
    forall i j, 0 <= i <= N -> 0 <= j <= M ->
      cell s i j
      = grid_value S_max' delta_S' K' r' sigma' delta_t' M (Z.to_nat i) j.
Proof.
  intros HN HM Hcol Hj0. unfold grid_phase_b64.
  destruct (initialise_spec S_max' delta_S' K' N M HN HM)
    as (s1 & H1 & Hg1 & Hb1 & Hr1).
  rewrite H1. cbn [bind].
  destruct (recurrence_spec S_max' delta_S' K' r' sigma' delta_t' N M HN HM
              s1 Hg1 Hb1 Hr1) as (s2 & H2 & Hg2 & Hc2).
  rewrite H2. cbn [bind]. unfold read_result_b64.
  rewrite index_in_range by (destruct Hg2 as [[-> _] _]; lia). cbn [bind].
  rewrite Hcol. cbn [bind].
  rewrite getitem_ok with (N := N) (M := M) by (try apply Hg2; lia).
  cbn [bind].
  exists (mkState (c s2) ((N, j0) :: accesses s2)).
  split; [reflexivity|]. split.
  { destruct Hg2 as [Hd2 Ha2]. split; [assumption|]. simpl.
    constructor; [split; simpl; lia | assumption]. }
  split; [reflexivity|].
  intros i j Hi Hj. apply (Hc2 i j Hi Hj).
Qed.

(** What a returning run of the code after the guard has done. *)
Lemma grid_phase_b64_returns (S0 delta_S : float)
  (S_max' delta_S' K' r' sigma' delta_t' : Q) (N M : Z) (v : pyval)
  (s : state) :
  N <> 0 -> M <> 0 ->
  grid_phase_b64 S0 delta_S S_max' delta_S' K' r' sigma' delta_t' N M
  = Ok (v, s) ->
  1 <= N /\ 1 <= M /\
  exists j0, result_column_b64 S0 delta_S = Ok j0 /\
    - (M + 1) <= j0 <= M /\
    rev (accesses s) = access_sequence N M j0.
Proof.
  intros HN0 HM0 Hrun.
  assert (1 <= N /\ 1 <= M) as [HN HM].
  { destruct (decide (N < 0 \/ (1 <= N /\ M < 0))) as [Hneg|Hpos]; [|lia].
    rewrite grid_phase_b64_negative in Hrun by assumption.
    discriminate Hrun. }
  split; [assumption|]. split; [assumption|].
  revert Hrun. unfold grid_phase_b64.
  destruct (initialise_spec S_max' delta_S' K' N M HN HM)
    as (s1 & H1 & Hg1 & Hb1 & Hr1).
  rewrite H1. cbn [bind].
  destruct (recurrence_spec S_max' delta_S' K' r' sigma' delta_t' N M HN HM
              s1 Hg1 Hb1 Hr1) as (s2 & H2 & Hg2 & Hc2).
  rewrite H2. cbn [bind]. unfold read_result_b64.
  rewrite index_in_range by (destruct Hg2 as [[-> _] _]; lia). cbn [bind].
  destruct (result_column_b64 S0 delta_S) as [j0|e]; cbn [bind];
    [|discriminate].
  destruct (getitem N j0 s2) as [[w s3]|e] eqn:E4; cbn [bind];
    [|discriminate].
  intros H. injection H as _ <-.
  exists j0. split; [reflexivity|].
  split; [apply (getitem_column N M s2 s3 N j0 w); [apply Hg2 | lia | assumption]|].
  apply getitem_log in E4. rewrite E4. simpl. unfold access_sequence.
  unfold initialise in H1.
  destruct (set_payoff delta_S' K' M _) as [t1|] eqn:E1; cbn [bind] in H1;
    [|discriminate].
  rewrite recurrence_steps in H2.
  apply for_log with
    (f := fun p : Z * Z =>
       [(p.1 - 1, p.2 - 1); (p.1 - 1, p.2); (p.1 - 1, p.2 + 1); (p.1, p.2)])
    in H2; [|intros p t t'; apply update_cell_log].
  apply for_log with (f := fun i => [(i, 0); (i, M)]) in H1.
  2:{ intros i t t'.
      destruct (setitem i 0 0%Q t) as [u1|] eqn:F1; simpl; [|discriminate].
      intros F2. apply setitem_log in F1, F2. rewrite F2, F1. simpl.
      rewrite <- app_assoc. reflexivity. }
  apply for_log with (f := fun j => [(0, j)]) in E1.
  2:{ intros j t t' F. apply setitem_log in F. rewrite F. reflexivity. }
  rewrite H2, H1, E1. simpl. rewrite <- !app_assoc. reflexivity.
Qed.

(** When the guard is evaluated, the run is the message or the code after
    the guard. *)
Lemma FinDiffCall_b64_run_guard (S0 K r sigma T : float) (N M : Z) (b : bool) :
  guard_evaluates pow2 r sigma T N M b ->
  exists n m,
    b64_of_int N = Ok n /\ b64_of_int M = Ok m /\
    (n =? 0)%float = false /\ (m =? 0)%float = false /\
    FinDiffCall_b64_run pow2 S0 K r sigma T N M
    = if b then Some (Ok (Str time_resolution_message, mkState [] []))
      else
        match b64_value (5 * S0), b64_value (5 * S0 / m), b64_value K,
              b64_value r, b64_value sigma, b64_value (T / n) with
        | Some S_max', Some delta_S', Some K',
          Some r', Some sigma', Some delta_t' =>
            Some (grid_phase_b64 S0 (5 * S0 / m) S_max' delta_S' K' r'
                    sigma' delta_t' N M)
        | _, _, _, _, _, _ => None
        end.
Proof.
  intros (n & m & m1 & Hn & Hm & Hm1 & Hn0 & Hm0 & Hpow & Hd & Hb).
  exists n, m. repeat (split; [assumption|]).
  rewrite FinDiffCall_b64_run_cases, Hn, Hn0, Hm, Hm0, Hm1, Hd, Hb.
  destruct (is_infinity (pow2 sigma)); [|reflexivity].
  rewrite Hpow by reflexivity. reflexivity.
Qed.

(** A run that does not raise before or at the guard has evaluated it. *)
Lemma FinDiffCall_b64_run_value (S0 K r sigma T : float) (N M : Z)
  (v : pyval) (s : state) :
  FinDiffCall_b64_run pow2 S0 K r sigma T N M = Some (Ok (v, s)) ->
  exists b, guard_evaluates pow2 r sigma T N M b.
Proof.
  rewrite FinDiffCall_b64_run_cases. unfold guard_evaluates.
  destruct (b64_of_int N) as [n|]; [|discriminate].
  destruct (n =? 0)%float eqn:En; [discriminate|].
  destruct (b64_of_int M) as [m|]; [|discriminate].
  destruct (m =? 0)%float eqn:Em; [discriminate|].
  destruct (is_infinity (pow2 sigma) && negb (is_infinity sigma)) eqn:Ep;
    [discriminate|].
  destruct (b64_of_int (M - 1)) as [m1|]; [|discriminate].
  destruct (pow2 sigma * m1 + 0.5 * r =? 0)%float eqn:Ed; [discriminate|].
  intros _. eexists. exists n, m, m1.
  repeat (split; [reflexivity || assumption|]).
  split; [|split; [assumption | reflexivity]].
  intros H. rewrite H in Ep. destruct (is_infinity sigma); [reflexivity|].
  discriminate Ep.
Qed.

Lemma guard_evaluates_once (r sigma T : float) (N M : Z) (b b' : bool) :
  guard_evaluates pow2 r sigma T N M b -> guard_evaluates pow2 r sigma T N M b' ->
  b = b'.
Proof.
  intros (n & m & m1 & Hn & Hm & Hm1 & _ & _ & _ & _ & Hb)
         (n' & m' & m1' & Hn' & Hm' & Hm1' & _ & _ & _ & _ & Hb').
  rewrite Hn in Hn'. injection Hn' as <-.
  rewrite Hm1 in Hm1'. injection Hm1' as <-.
  rewrite <- Hb, <- Hb'. reflexivity.
Qed.

Lemma guard_evaluates_nonzero (r sigma T : float) (N M : Z) (b : bool) :
  guard_evaluates pow2 r sigma T N M b -> N <> 0 /\ M <> 0.
Proof.
  intros (n & m & m1 & Hn & Hm & _ & Hn0 & Hm0 & _).
  split; intros ->; rewrite b64_of_int_zero in *.
  - injection Hn as <-. vm_compute in Hn0. discriminate Hn0.
  - injection Hm as <-. vm_compute in Hm0. discriminate Hm0.
Qed.

(** A run that returns a number: what it has evaluated and what it
    returns. *)
Lemma FinDiffCall_b64_run_number (S0 K r sigma T : float) (N M : Z)
  (p : Q) (s : state) :
  FinDiffCall_b64_run pow2 S0 K r sigma T N M = Some (Ok (Num p, s)) ->
  guard_evaluates pow2 r sigma T N M false /\ 1 <= N /\ 1 <= M /\
  exists (n m : float) (S_max' delta_S' K' r' sigma' delta_t' : Q) (j0 : Z),
    b64_of_int N = Ok n /\ b64_of_int M = Ok m /\
    b64_value (5 * S0) = Some S_max' /\
    b64_value (5 * S0 / m) = Some delta_S' /\
    b64_value K = Some K' /\ b64_value r = Some r' /\
    b64_value sigma = Some sigma' /\ b64_value (T / n) = Some delta_t' /\
    result_column_b64 S0 (5 * S0 / m) = Ok j0 /\
    0 <= j0 <= M /\
    p = cell s N j0 /\
    good N M s /\
    rev (accesses s) = access_sequence N M j0 /\
    forall i j, 0 <= i <= N -> 0 <= j <= M ->
      cell s i j
      = grid_value S_max' delta_S' K' r' sigma' delta_t' M (Z.to_nat i) j.
Proof.
  intros Hrun.
  destruct (FinDiffCall_b64_run_value _ _ _ _ _ _ _ _ _ Hrun) as [b Hg].
  destruct (guard_evaluates_nonzero _ _ _ _ _ _ Hg) as [HN0 HM0].
  destruct (FinDiffCall_b64_run_guard S0 K r sigma T N M b Hg)
    as (n & m & Hn & Hm & Hn0 & Hm0 & Heq).
  rewrite Hrun in Heq. destruct b; [discriminate Heq|].
  split; [assumption|].
  destruct (b64_value (5 * S0)) as [S_max'|] eqn:V1; [|discriminate Heq].
  destruct (b64_value (5 * S0 / m)) as [delta_S'|] eqn:V2;
    [|discriminate Heq].
  destruct (b64_value K) as [K'|] eqn:V3; [|discriminate Heq].
  destruct (b64_value r) as [r'|] eqn:V4; [|discriminate Heq].
  destruct (b64_value sigma) as [sigma'|] eqn:V5; [|discriminate Heq].
  destruct (b64_value (T / n)) as [delta_t'|] eqn:V6; [|discriminate Heq].
  injection Heq as Heq. symmetry in Heq.
  destruct (grid_phase_b64_returns _ _ _ _ _ _ _ _ _ _ _ _ HN0 HM0 Heq)
    as (HN & HM & j0 & Hcol & Hj0 & Hlog).
  split; [assumption|]. split; [assumption|].
  assert (0 <= j0) as Hpos.
  { apply (result_column_b64_nonneg S0 m); [|assumption].
    apply (b64_of_int_sign M); [lia | assumption]. }
  destruct (grid_phase_b64_ok S0 (5 * S0 / m) S_max' delta_S' K' r' sigma'
              delta_t' N M j0 HN HM Hcol ltac:(lia))
    as (s' & Hrun' & Hgood & _ & Hcells).
  rewrite Heq in Hrun'. injection Hrun' as -> <-.
  exists n, m, S_max', delta_S', K', r', sigma', delta_t', j0.
  repeat (split; [reflexivity || assumption || lia|]). assumption.
Qed.



(** A run that passes the guard with positive step counts and finite
    scalars returns the cell of row [N] at the column computed, when that
    column is at most [M]. *)
Lemma FinDiffCall_b64_run_returns (S0 K r sigma T : float) (N M : Z)
  (n m : float) (j0 : Z) :
  guard_evaluates pow2 r sigma T N M false -> 1 <= N -> 1 <= M ->
  b64_of_int N = Ok n -> b64_of_int M = Ok m ->
  finite_b64 (5 * S0) -> finite_b64 (5 * S0 / m) -> finite_b64 K ->
  finite_b64 r -> finite_b64 sigma -> finite_b64 (T / n) ->
  result_column_b64 S0 (5 * S0 / m) = Ok j0 -> j0 <= M ->
  exists s,
    FinDiffCall_b64_run pow2 S0 K r sigma T N M = Some (Ok (Num (cell s N j0), s)).
Proof.
  intros Hg HN HM Hn Hm [S_max' V1] [delta_S' V2] [K' V3] [r' V4] [sigma' V5]
    [delta_t' V6] Hcol Hj0.
  destruct (FinDiffCall_b64_run_guard S0 K r sigma T N M false Hg)
    as (n' & m' & Hn' & Hm' & _ & _ & Heq).
  rewrite Hn in Hn'. injection Hn' as <-.
  rewrite Hm in Hm'. injection Hm' as <-.
  rewrite V1, V2, V3, V4, V5, V6 in Heq.
  assert (0 <= j0) as Hpos.
  { apply (result_column_b64_nonneg S0 m); [|assumption].
    apply (b64_of_int_sign M); [lia | assumption]. }
  destruct (grid_phase_b64_ok S0 (5 * S0 / m) S_max' delta_S' K' r' sigma'
              delta_t' N M j0 HN HM Hcol ltac:(lia))
    as (s & Hrun & _).
  exists s. rewrite Heq, Hrun. reflexivity.
Qed.

(** C1 (as amended).  On binary64 numbers [FinDiffCall] returns the message
    exactly when the guard is evaluated (no division by zero and no
    overflow before the comparison) and the comparison
    [T/N > 1/(math.pow(sigma,2)*(M-1) + 0.5*r)] is true, and then no grid
    was built and no cell read or written.  It returns a number only when
    the guard is evaluated, the comparison is false and [N >= 1], [M >= 1];
    under these conditions, with finite scalars, it does return a number
    when the column [math.floor(S0/delta_S)] of the final read is computed
    and is at most [M]. *)
Theorem FinDiffCall_stability (S0 K r sigma T : float) (N M : Z) :
  (FinDiffCall_b64 pow2 S0 K r sigma T N M
   = Some (Ok (Str time_resolution_message))
   <-> guard_evaluates pow2 r sigma T N M true) /\
  (guard_evaluates pow2 r sigma T N M true ->
   FinDiffCall_b64_run pow2 S0 K r sigma T N M
   = Some (Ok (Str time_resolution_message, mkState [] []))) /\
  (forall p, FinDiffCall_b64 pow2 S0 K r sigma T N M = Some (Ok (Num p)) ->
     guard_evaluates pow2 r sigma T N M false /\ 1 <= N /\ 1 <= M) /\
  (guard_evaluates pow2 r sigma T N M false -> 1 <= N -> 1 <= M ->
   forall n m j0, b64_of_int N = Ok n -> b64_of_int M = Ok m ->
     finite_b64 (5 * S0) -> finite_b64 (5 * S0 / m) -> finite_b64 K ->
     finite_b64 r -> finite_b64 sigma -> finite_b64 (T / n) ->
     result_column_b64 S0 (5 * S0 / m) = Ok j0 -> j0 <= M ->
     exists p, FinDiffCall_b64 pow2 S0 K r sigma T N M = Some (Ok (Num p))).
Proof.
  assert (guard_evaluates pow2 r sigma T N M true ->
          FinDiffCall_b64_run pow2 S0 K r sigma T N M
          = Some (Ok (Str time_resolution_message, mkState [] []))) as Hmsg.
  { intros Hg.
    destruct (FinDiffCall_b64_run_guard S0 K r sigma T N M true Hg)
      as (n & m & _ & _ & _ & _ & Heq). exact Heq. }
  split; [|split; [exact Hmsg|split]].
  - split.
    + unfold FinDiffCall_b64.
      destruct (FinDiffCall_b64_run pow2 S0 K r sigma T N M) as [[[v s]|e]|] eqn:E;
        cbn [bind]; try discriminate.
      intros H. injection H as ->.
      destruct (FinDiffCall_b64_run_value _ _ _ _ _ _ _ _ _ E) as [[|] Hg];
        [assumption|].
      destruct (FinDiffCall_b64_run_guard S0 K r sigma T N M false Hg)
        as (n & m & _ & _ & _ & _ & Heq).
      rewrite E in Heq.
      destruct (b64_value (5 * S0)); [|discriminate Heq].
      destruct (b64_value (5 * S0 / m)); [|discriminate Heq].
      destruct (b64_value K); [|discriminate Heq].
      destruct (b64_value r); [|discriminate Heq].
      destruct (b64_value sigma); [|discriminate Heq].
      destruct (b64_value (T / n)); [|discriminate Heq].
      injection Heq as Heq. exfalso. revert Heq. unfold grid_phase_b64.
      destruct (initialise _ _ _ _ _); cbn [bind]; [|discriminate].
      destruct (recurrence _ _ _ _ _ _); cbn [bind]; [|discriminate].
      destruct (read_result_b64 _ _ _ _) as [[w t]|]; cbn [bind];
        discriminate.
    + intros Hg. unfold FinDiffCall_b64. rewrite (Hmsg Hg). reflexivity.
  - intros p. unfold FinDiffCall_b64.
    destruct (FinDiffCall_b64_run pow2 S0 K r sigma T N M) as [[[v s]|e]|] eqn:E;
      cbn [bind]; try discriminate.
    intros H. injection H as ->.
    destruct (FinDiffCall_b64_run_number _ _ _ _ _ _ _ _ _ E)
      as (Hg & HN & HM & _).
    repeat split; assumption.
  - intros Hg HN HM n m j0 Hn Hm F1 F2 F3 F4 F5 F6 Hcol Hj0.
    destruct (FinDiffCall_b64_run_returns S0 K r sigma T N M n m j0)
      as [s Hrun]; try assumption.
    unfold FinDiffCall_b64. rewrite Hrun. cbn [bind]. eexists. reflexivity.
Qed.



End RunB64.

Ltac b64_finite := eexists; vm_compute; reflexivity.

Lemma FinDiffCall_stability_witness :
  exists p,
    FinDiffCall_b64 square_b64 200 205 0x1.47ae147ae147bp-6 0x1.1eb851eb851ecp-3 0.5 4 10
    = Some (Ok (Num p)).
Proof.
  apply (proj2 (proj2 (proj2
           (FinDiffCall_stability square_b64 200 205 0x1.47ae147ae147bp-6
              0x1.1eb851eb851ecp-3 0.5 4 10))))
    with (n := 4%float) (m := 10%float) (j0 := 2);
    [exists 4%float, 10%float, 9%float; vm_compute; tauto
    | lia | lia | vm_compute; reflexivity | vm_compute; reflexivity
    | b64_finite | b64_finite | b64_finite | b64_finite | b64_finite
    | b64_finite | vm_compute; reflexivity | lia].
Defined.

(** C1 (as stated) fails.  With M = 1 and r = 0 the divisor is 0, the
    division raises, and the call returns neither a number nor the message;
    with S0 = 0 the inequality holds, the grid is filled, and the division
    [S0/delta_S] of the final read raises.  The comparison is one of
    rounded values (here with a correctly rounded [math.pow]): with
    sigma = 0.1 and M = 101 the message is returned where
    [1 <= 1/(0.1^2*100)] holds; with T = 0.1 (the binary64 number, which is
    above 1/10), sigma = 1 and M = 11 a number is returned where the
    inequality fails; [math.pow] raises OverflowError for sigma = 2^700,
    and for sigma = 2^-600 the square is 0 and the division raises. *)
Lemma FinDiffCall_stability_zero_divisor :
  (FinDiffCall 1 1 0 1 1 1 1 = Raise ZeroDivisionError /\
   FinDiffCall_b64 square_b64 1 1 0 1 1 1 1
   = Some (Raise ZeroDivisionError) /\
   ~ stability_dichotomy 1 1 0 1 1 1 1) /\
  ((1 / inject_Z 1 <= 1 / (1 ^ 2 * inject_Z (1 - 1) + (1#2) * 1))%Q /\
   FinDiffCall 0 1 1 1 1 1 1 = Raise ZeroDivisionError /\
   FinDiffCall_b64 square_b64 0 1 1 1 1 1 1
   = Some (Raise ZeroDivisionError) /\
   ~ stability_dichotomy 0 1 1 1 1 1 1) /\
  (FinDiffCall_b64 square_b64 10 5 0 0x1.999999999999ap-4 1 1 101
   = Some (Ok (Str time_resolution_message)) /\
   (1 / inject_Z 1
    <= 1 / ((1#10) ^ 2 * inject_Z (101 - 1) + (1#2) * 0))%Q) /\
  ((exists p, FinDiffCall_b64 square_b64 10 5 0 1 0x1.999999999999ap-4 1 11
               = Some (Ok (Num p))) /\
   exists t, b64_value 0x1.999999999999ap-4 = Some t /\
     ~ (t / inject_Z 1 <= 1 / (1 ^ 2 * inject_Z (11 - 1) + (1#2) * 0))%Q) /\
  FinDiffCall_b64 square_b64 10 5 0 0x1p700 1 1 2
  = Some (Raise OverflowError) /\
  FinDiffCall_b64 square_b64 10 5 0 0x1p-600 1 1 2
  = Some (Raise ZeroDivisionError).
Proof.
  split; [split; [reflexivity|split; [vm_compute; reflexivity|]]|].
  { intros [_ Hmsg].
    assert (~ (1 / inject_Z 1
               <= 1 / (1 ^ 2 * inject_Z (1 - 1) + (1#2) * 0))%Q) as Hst
      by (intros H; vm_compute in H; auto).
    specialize (Hmsg Hst). vm_compute in Hmsg. discriminate Hmsg. }
  split.
  { assert (1 / inject_Z 1
            <= 1 / (1 ^ 2 * inject_Z (1 - 1) + (1#2) * 1))%Q as Hst
      by q_compare.
    split; [assumption|]. split; [reflexivity|].
    split; [vm_compute; reflexivity|].
    intros [[_ Hnum] _]. destruct (Hnum Hst) as [p Hp].
    vm_compute in Hp. discriminate Hp. }
  split; [split; [vm_compute; reflexivity | q_compare]|].
  split.
  { split; [eexists; vm_compute; reflexivity|].
    eexists. split; [vm_compute; reflexivity|].
    intros H. vm_compute in H. auto. }
  split; vm_compute; reflexivity.
Qed.


(** The rounded quotient can fall below the exact one: for S0 = 200 and
    M = 55 the floor of the exact [S0/delta_S] is 11 and the code reads
    column 10; for S0 = 10 on the same grid it reads column 11. *)
Example result_column_rounded :
  Qfloor (200 / (5 * 200 / inject_Z 55)) = 11 /\
  result_column_b64 200 (5 * 200 / 55) = Ok 10 /\
  result_column_b64 10 (5 * 10 / 55) = Ok 11.
Proof. vm_compute. auto. Qed.




(** ** FinDiffCall: values on particular inputs *)



(** The asset price itself is left unchanged by the update. *)
Lemma weighted_asset_line (r s dt x delta : Q) :
  (weighted r s dt x ((x - 1) * delta) (x * delta) ((x + 1) * delta)
   == x * delta)%Q.
Proof. unfold weighted. simpl. ring. Qed.

Lemma payoff_zero_strike (delta_S K : Q) (j : Z) :
  (K == 0)%Q -> (0 <= delta_S)%Q -> 0 <= j ->
  (payoff delta_S K j == inject_Z j * delta_S)%Q.
Proof.
  intros HK Hd Hj. unfold payoff, py_max.
  assert (0 <= inject_Z j * delta_S)%Q as Hp
    by (apply Qmult_le_0_compat; [apply (inject_Z_le 0 j); lia | assumption]).
  destruct (Qlt_le_dec (inject_Z j * delta_S - K) 0); lra.
Qed.

(** With strike 0 every row of the grid is the asset price at its node. *)
Lemma grid_value_asset_line (S_max delta_S K r sigma delta_t : Q) (M : Z)
  (i : nat) (j : Z) :
  1 <= M -> (K == 0)%Q -> (0 <= delta_S)%Q ->
  (S_max == inject_Z M * delta_S)%Q ->
  0 <= j <= M ->
  (grid_value S_max delta_S K r sigma delta_t M i j
   == inject_Z j * delta_S)%Q.
Proof.
  intros HM HK Hd Htop. revert j. induction i as [|i IH]; intros j Hj.
  - simpl. unfold initial_row.
    destruct (decide (j = 0)) as [->|Hj0];
      [change (inject_Z 0) with 0%Q; ring|].
    destruct (decide (j = M)) as [->|HjM]; [assumption|].
    apply payoff_zero_strike; assumption || lia.
  - destruct (decide (j = 0)) as [->|Hj0].
    { rewrite grid_value_first_column. change (inject_Z 0) with 0%Q. ring. }
    destruct (decide (j = M)) as [->|HjM].
    { rewrite grid_value_last_column by assumption. assumption. }
    rewrite grid_value_weighted by lia.
    rewrite (IH (j - 1)), (IH j), (IH (j + 1)) by lia.
    rewrite inject_Z_pred, inject_Z_succ.
    apply weighted_asset_line.
Qed.

(** X3.  With strike 0, on a call that passes the stability test, every
    cell [c[i][j]] of the finished grid holds the asset price [j*delta_S]
    of its column, for every rate, volatility, maturity and number of time
    steps; the value returned is the asset price of the node that is
    read. *)
Theorem zero_strike_grid (S0 K r sigma T : Q) (N M : Z) :
  1 <= N -> 1 <= M -> (0 < S0)%Q -> (K == 0)%Q ->
  ~ (stability_divisor r sigma M == 0)%Q ->
  stable r sigma T N M ->
  exists v s,
    FinDiffCall_run S0 K r sigma T N M = Ok (Num v, s) /\
    (forall i j, 0 <= i <= N -> 0 <= j <= M ->
       (cell s i j == inject_Z j * (5 * S0 / inject_Z M))%Q) /\
    exists j0, 0 <= j0 <= M /\
      (v == inject_Z j0 * (5 * S0 / inject_Z M))%Q.
Proof.
  intros HN HM HS HK Hd Hst.
  assert (~ (S0 == 0)%Q) as HS' by lra.
  destruct (FinDiffCall_run_stable S0 K r sigma T N M HN HM HS' Hd Hst)
    as (s & Hrun & _ & _ & Hc).
  pose proof (result_column_range M HM) as Hj0.
  assert (~ (inject_Z M == 0)%Q) as HMq by (apply inject_Z_nonzero; lia).
  assert (0 < inject_Z M)%Q as HMpos
    by (apply (Qlt_le_trans _ 1); [reflexivity | apply (inject_Z_le 1 M); lia]).
  assert (forall i j, 0 <= i <= N -> 0 <= j <= M ->
            (cell s i j == inject_Z j * (5 * S0 / inject_Z M))%Q) as E.
  { intros i j Hi Hj. rewrite Hc by lia.
    apply grid_value_asset_line; try assumption.
    - apply Qle_shift_div_l; [assumption | lra].
    - field. assumption. }
  exists (cell s N (M / 5)), s. split; [assumption|]. split; [assumption|].
  exists (M / 5). split; [assumption|]. apply E; lia.
Qed.

Lemma zero_strike_grid_witness :
  exists v s,
    FinDiffCall_run 200 0 (2#100) (14#100) (1#2) 4 10 = Ok (Num v, s) /\
    (forall i j, 0 <= i <= 4 -> 0 <= j <= 10 ->
       (cell s i j == inject_Z j * (5 * 200 / inject_Z 10))%Q) /\
    exists j0, 0 <= j0 <= 10 /\
      (v == inject_Z j0 * (5 * 200 / inject_Z 10))%Q.
Proof.
  apply zero_strike_grid;
    [lia | lia | reflexivity | reflexivity | q_nonzero | q_compare].
Defined.

(** ** FinDiffCall: the price against the asset price *)

Lemma payoff_below_asset (delta_S K : Q) (j : Z) :
  (0 <= K)%Q -> (0 <= delta_S)%Q -> 0 <= j ->
  (payoff delta_S K j <= inject_Z j * delta_S)%Q.
Proof.
  intros HK Hd Hj. unfold payoff, py_max.
  assert (0 <= inject_Z j * delta_S)%Q as Hp
    by (apply Qmult_le_0_compat; [apply (inject_Z_le 0 j); lia | assumption]).
  destruct (Qlt_le_dec (inject_Z j * delta_S - K) 0); lra.
Qed.

(** The gap between the asset price and an updated row is the update of
    the gaps. *)
Lemma weighted_asset_gap (r s dt x delta a b d : Q) :
  (x * delta - weighted r s dt x a b d
   == weighted r s dt x ((x - 1) * delta - a) (x * delta - b)
        ((x + 1) * delta - d))%Q.
Proof. unfold weighted. simpl. ring. Qed.

Section BelowAsset.

Variables (S_max delta_S K r sigma delta_t : Q) (M : Z).

Hypothesis HM : 1 <= M.
Hypothesis HK : (0 <= K)%Q.
Hypothesis HdS : (0 <= delta_S)%Q.
Hypothesis Htop : (S_max == inject_Z M * delta_S)%Q.
Hypothesis Hdt : (0 <= delta_t)%Q.
Hypothesis Hlow : forall j, 2 <= j <= M - 1 ->
  (0 <= sigma ^ 2 * inject_Z j - r)%Q.
Hypothesis Hmid : forall j, 1 <= j <= M - 1 ->
  (0 <= 1 - r * delta_t - sigma ^ 2 * inject_Z j ^ 2 * delta_t)%Q.
Hypothesis Hup : forall j, 1 <= j <= M - 1 ->
  (0 <= sigma ^ 2 * inject_Z j + r)%Q.

(** With non-negative weights no cell is above the asset price of its
    node. *)
Lemma grid_value_below_asset (i : nat) (j : Z) :
  0 <= j <= M ->
  (grid_value S_max delta_S K r sigma delta_t M i j
   <= inject_Z j * delta_S)%Q.
Proof.
  revert j. induction i as [|i IH]; intros j Hj.
  - simpl. unfold initial_row.
    destruct (decide (j = 0)) as [->|Hj0];
      [change (inject_Z 0) with 0%Q; lra|].
    destruct (decide (j = M)) as [->|HjM]; [lra|].
    apply payoff_below_asset; assumption || lia.
  - destruct (decide (j = 0)) as [->|Hj0].
    { rewrite grid_value_first_column. change (inject_Z 0) with 0%Q. lra. }
    destruct (decide (j = M)) as [->|HjM].
    { rewrite grid_value_last_column by assumption. lra. }
    apply Qle_minus_iff.
    rewrite grid_value_weighted by lia.
    pose proof (IH (j - 1) ltac:(lia)) as Ha.
    pose proof (IH j ltac:(lia)) as Hb.
    pose proof (IH (j + 1) ltac:(lia)) as Hd.
    rewrite inject_Z_pred in Ha. rewrite inject_Z_succ in Hd.
    set (a := grid_value S_max delta_S K r sigma delta_t M i (j - 1)) in *.
    set (b := grid_value S_max delta_S K r sigma delta_t M i j) in *.
    set (d := grid_value S_max delta_S K r sigma delta_t M i (j + 1)) in *.
    fold (Qminus (inject_Z j * delta_S)
            (weighted r sigma delta_t (inject_Z j) a b d)).
    rewrite weighted_asset_gap, <- explicit_step_weighted.
    apply explicit_step_nonneg; try assumption; try lra; try lia.
    + destruct (decide (j = 1)) as [E|E].
      * left. unfold a. rewrite E. change (1 - 1) with 0.
        rewrite grid_value_first_column. change (inject_Z 1) with 1%Q. ring.
      * right. apply Hlow. lia.
    + apply Hmid. lia.
    + apply Hup. lia.
Qed.

End BelowAsset.

Lemma result_node_below_spot (S0 : Q) (M : Z) :
  1 <= M -> (0 < S0)%Q ->
  (inject_Z (M / 5) * (5 * S0 / inject_Z M) <= S0)%Q.
Proof.
  intros HM HS.
  assert (0 < inject_Z M)%Q as HMpos
    by (apply (Qlt_le_trans _ 1); [reflexivity | apply (inject_Z_le 1 M); lia]).
  assert (5 * inject_Z (M / 5) <= inject_Z M)%Q as H5.
  { change 5%Q with (inject_Z 5). rewrite <- inject_Z_mult.
    apply inject_Z_le. apply Z.mul_div_le. lia. }
  assert (inject_Z (M / 5) * (5 * S0 / inject_Z M)
          == S0 * (5 * inject_Z (M / 5)) / inject_Z M)%Q as E
    by (field; lra).
  rewrite E. apply Qle_shift_div_r; [assumption|]. nra.
Qed.



(** ** FinDiffCall: a change of currency unit *)

Lemma py_max_scale (lambda x x' : Q) :
  (0 < lambda)%Q -> (x' == lambda * x)%Q ->
  (py_max x' 0 == lambda * py_max x 0)%Q.
Proof.
  intros Hl Hx. unfold py_max.
  destruct (Qlt_le_dec x' 0), (Qlt_le_dec x 0); nra.
Qed.

Lemma weighted_scale (r s dt x lambda a b d : Q) :
  (weighted r s dt x (lambda * a) (lambda * b) (lambda * d)
   == lambda * weighted r s dt x a b d)%Q.
Proof. unfold weighted. ring. Qed.

(** Multiplying the boundary value, the price step and the strike by
    [lambda > 0] multiplies every cell by [lambda]. *)
Lemma grid_value_scale (lambda S_max S_max' delta_S delta_S' K K' : Q)
  (r sigma delta_t : Q) (M : Z) (i : nat) (j : Z) :
  1 <= M -> (0 < lambda)%Q ->
  (S_max' == lambda * S_max)%Q -> (delta_S' == lambda * delta_S)%Q ->
  (K' == lambda * K)%Q ->
  0 <= j <= M ->
  (grid_value S_max' delta_S' K' r sigma delta_t M i j
   == lambda * grid_value S_max delta_S K r sigma delta_t M i j)%Q.
Proof.
  intros HM Hl HS Hd HK. revert j. induction i as [|i IH]; intros j Hj.
  - simpl. unfold initial_row.
    destruct (decide (j = 0)); [ring|].
    destruct (decide (j = M)); [assumption|].
    unfold payoff. apply py_max_scale; [assumption|]. rewrite Hd, HK. ring.
  - destruct (decide (j = 0)) as [->|Hj0].
    { rewrite !grid_value_first_column. ring. }
    destruct (decide (j = M)) as [->|HjM].
    { rewrite !grid_value_last_column by assumption. assumption. }
    rewrite !grid_value_weighted by lia.
    rewrite (IH (j - 1)), (IH j), (IH (j + 1)) by lia.
    apply weighted_scale.
Qed.

(** X5.  Quoting the asset price and the strike in another unit
    ([lambda > 0] times both) multiplies every cell of the finished grid
    by [lambda]; the stability test does not depend on them. *)
Theorem FinDiffCall_grid_scale (lambda S0 K r sigma T : Q) (N M : Z) :
  (0 < lambda)%Q ->
  1 <= N -> 1 <= M -> ~ (S0 == 0)%Q ->
  ~ (stability_divisor r sigma M == 0)%Q ->
  stable r sigma T N M ->
  exists v s v' s',
    FinDiffCall_run S0 K r sigma T N M = Ok (Num v, s) /\
    FinDiffCall_run (lambda * S0) (lambda * K) r sigma T N M
    = Ok (Num v', s') /\
    forall i j, 0 <= i <= N -> 0 <= j <= M ->
      (cell s' i j == lambda * cell s i j)%Q.
Proof.
  intros Hl HN HM HS Hd Hst.
  assert (~ (lambda * S0 == 0)%Q) as HS'.
  { intros H. apply HS.
    assert (S0 == (lambda * S0) / lambda)%Q as E by (field; lra).
    rewrite E, H. field. lra. }
  destruct (FinDiffCall_run_stable S0 K r sigma T N M HN HM HS Hd Hst)
    as (s & Hrun & _ & _ & Hc).
  destruct (FinDiffCall_run_stable (lambda * S0) (lambda * K) r sigma T N M
              HN HM HS' Hd Hst) as (s' & Hrun' & _ & _ & Hc').
  exists (cell s N (M / 5)), s, (cell s' N (M / 5)), s'.
  split; [assumption|]. split; [assumption|].
  intros i j Hi Hj. rewrite Hc, Hc' by lia.
  assert (~ (inject_Z M == 0)%Q) as HMq by (apply inject_Z_nonzero; lia).
  apply grid_value_scale; try assumption; try lia.
  - ring.
  - field. assumption.
  - reflexivity.
Qed.

Lemma FinDiffCall_grid_scale_witness :
  exists v s v' s',
    FinDiffCall_run 200 205 (2#100) (14#100) (1#2) 4 10 = Ok (Num v, s) /\
    FinDiffCall_run (100 * 200) (100 * 205) (2#100) (14#100) (1#2) 4 10
    = Ok (Num v', s') /\
    forall i j, 0 <= i <= 4 -> 0 <= j <= 10 ->
      (cell s' i j == 100 * cell s i j)%Q.
Proof.
  apply (FinDiffCall_grid_scale 100 200 205 (2#100) (14#100) (1#2) 4 10);
    [reflexivity | lia | lia | q_nonzero | q_nonzero | q_compare].
Defined.

(** ** FinDiffCall: the size of the computation *)

Lemma length_flat_map_const {A B : Type} (f : A -> list B) (k : nat)
  (l : list A) :
  (forall x, length (f x) = k) ->
  length (flat_map f l) = (k * length l)%nat.
Proof.
  intros Hf. induction l as [|x l IH]; simpl; [lia|].
  rewrite length_app, Hf, IH. lia.
Qed.

Lemma length_interior_steps (N M : Z) :
  1 <= N -> 1 <= M ->
  Z.of_nat (length (interior_steps N M)) = N * (M - 1).
Proof.
  intros HN HM. unfold interior_steps, range.
  rewrite (length_flat_map_const _ (Z.to_nat (M - 1))).
  - rewrite length_seqZ. nia.
  - intros i. rewrite length_map, length_seqZ. reflexivity.
Qed.

(** X6.  A call that passes the stability test leaves a grid of [N+1] rows
    of [M+1] cells and has evaluated [(M+1) + 2(N+1) + 4N(M-1) + 1]
    subscripts on it. *)
Theorem FinDiffCall_work (S0 K r sigma T : Q) (N M : Z) :
  1 <= N -> 1 <= M -> ~ (S0 == 0)%Q ->
  ~ (stability_divisor r sigma M == 0)%Q ->
  stable r sigma T N M ->
  exists v s,
    FinDiffCall_run S0 K r sigma T N M = Ok (Num v, s) /\
    Z.of_nat (length (c s)) = N + 1 /\
    Forall (fun row => Z.of_nat (length row) = M + 1) (c s) /\
    Z.of_nat (length (accesses s))
    = (M + 1) + 2 * (N + 1) + 4 * (N * (M - 1)) + 1.
Proof.
  intros HN HM HS Hd Hst.
  destruct (FinDiffCall_run_stable S0 K r sigma T N M HN HM HS Hd Hst)
    as (s & Hrun & [[Hrows Hcols] _] & _ & _).
  destruct (FinDiffCall_run_log _ _ _ _ _ _ _ _ _ Hrun) as (j0 & Hlog & _).
  eexists. exists s. split; [exact Hrun|].
  split; [lia|]. split.
  - eapply Forall_impl; [exact Hcols|]. intros row Hrow. simpl in *. lia.
  - rewrite <- length_rev, Hlog. unfold access_sequence, range.
    rewrite !length_app.
    rewrite (length_flat_map_const _ 1%nat) by reflexivity.
    rewrite (length_flat_map_const _ 2%nat) by reflexivity.
    rewrite (length_flat_map_const _ 4%nat) by reflexivity.
    rewrite !length_seqZ. simpl length.
    pose proof (length_interior_steps N M HN HM). lia.
Qed.

Lemma FinDiffCall_work_witness :
  exists v s,
    FinDiffCall_run 200 205 (2#100) (14#100) (1#2) 4 10 = Ok (Num v, s) /\
    Z.of_nat (length (c s)) = 4 + 1 /\
    Forall (fun row => Z.of_nat (length row) = 10 + 1) (c s) /\
    Z.of_nat (length (accesses s))
    = (10 + 1) + 2 * (4 + 1) + 4 * (4 * (10 - 1)) + 1.
Proof.
  apply FinDiffCall_work; [lia | lia | q_nonzero | q_nonzero | q_compare].
Defined.

(** ** FinDiffCall: dependence on the strike *)

Lemma payoff_strike_order (delta_S K K' : Q) (j : Z) :
  (K <= K')%Q -> (payoff delta_S K' j <= payoff delta_S K j)%Q.
Proof.
  intros HK. unfold payoff, py_max.
  destruct (Qlt_le_dec (inject_Z j * delta_S - K') 0),
    (Qlt_le_dec (inject_Z j * delta_S - K) 0); lra.
Qed.

Section StrikeOrder.

Variables (S_max delta_S K K' r sigma delta_t : Q) (M : Z).

Hypothesis HM : 1 <= M.
Hypothesis HK : (K <= K')%Q.
Hypothesis Hdt : (0 <= delta_t)%Q.
Hypothesis Hlow : forall j, 2 <= j <= M - 1 ->
  (0 <= sigma ^ 2 * inject_Z j - r)%Q.
Hypothesis Hmid : forall j, 1 <= j <= M - 1 ->
  (0 <= 1 - r * delta_t - sigma ^ 2 * inject_Z j ^ 2 * delta_t)%Q.
Hypothesis Hup : forall j, 1 <= j <= M - 1 ->
  (0 <= sigma ^ 2 * inject_Z j + r)%Q.

(** With non-negative weights a higher strike lowers no cell of the
    grid. *)
Lemma grid_value_strike_order (i : nat) (j : Z) :
  0 <= j <= M ->
  (grid_value S_max delta_S K' r sigma delta_t M i j
   <= grid_value S_max delta_S K r sigma delta_t M i j)%Q.
Proof.
  revert j. induction i as [|i IH]; intros j Hj.
  - simpl. unfold initial_row.
    destruct (decide (j = 0)); [apply Qle_refl|].
    destruct (decide (j = M)); [apply Qle_refl|].
    apply payoff_strike_order. assumption.
  - destruct (decide (j = 0)) as [->|Hj0].
    { rewrite !grid_value_first_column. apply Qle_refl. }
    destruct (decide (j = M)) as [->|HjM].
    { rewrite !grid_value_last_column by assumption. apply Qle_refl. }
    apply Qle_minus_iff.
    rewrite !grid_value_weighted by lia.
    pose proof (IH (j - 1) ltac:(lia)) as Ha.
    pose proof (IH j ltac:(lia)) as Hb.
    pose proof (IH (j + 1) ltac:(lia)) as Hd.
    set (a := grid_value S_max delta_S K r sigma delta_t M i (j - 1)) in *.
    set (b := grid_value S_max delta_S K r sigma delta_t M i j) in *.
    set (d := grid_value S_max delta_S K r sigma delta_t M i (j + 1)) in *.
    set (a' := grid_value S_max delta_S K' r sigma delta_t M i (j - 1)) in *.
    set (b' := grid_value S_max delta_S K' r sigma delta_t M i j) in *.
    set (d' := grid_value S_max delta_S K' r sigma delta_t M i (j + 1)) in *.
    fold (Qminus (weighted r sigma delta_t (inject_Z j) a b d)
            (weighted r sigma delta_t (inject_Z j) a' b' d')).
    rewrite weighted_linear, <- explicit_step_weighted.
    apply explicit_step_nonneg; try assumption; try lra; try lia.
    + destruct (decide (j = 1)) as [E|E].
      * left. unfold a, a'. rewrite E. change (1 - 1) with 0.
        rewrite !grid_value_first_column. ring.
      * right. apply Hlow. lia.
    + apply Hmid. lia.
    + apply Hup. lia.
Qed.

End StrikeOrder.

(** X7.  When the weights of the update are non-negative
    ([-sigma^2 <= r <= 2*sigma^2] and
    [(T/N) * (r + sigma^2*(M-1)^2) <= 1]) a higher strike does not raise
    the price returned. *)
Theorem strike_monotone (S0 K K' r sigma T : Q) (N M : Z) :
  (0 < S0)%Q -> (K <= K')%Q -> (0 <= T)%Q -> 1 <= N -> 1 <= M ->
  ~ (stability_divisor r sigma M == 0)%Q ->
  stable r sigma T N M ->
  (- sigma ^ 2 <= r)%Q -> (r <= 2 * sigma ^ 2)%Q ->
  (T / inject_Z N * (r + sigma ^ 2 * inject_Z (M - 1) ^ 2) <= 1)%Q ->
  exists p p',
    FinDiffCall S0 K r sigma T N M = Ok (Num p) /\
    FinDiffCall S0 K' r sigma T N M = Ok (Num p') /\
    (p' <= p)%Q.
Proof.
  intros HS HK HT HN HM Hd Hst Hr1 Hr2 Hb.
  assert (~ (S0 == 0)%Q) as HS' by lra.
  destruct (FinDiffCall_run_stable S0 K r sigma T N M HN HM HS' Hd Hst)
    as (s & Hrun & _ & _ & Hc).
  destruct (FinDiffCall_run_stable S0 K' r sigma T N M HN HM HS' Hd Hst)
    as (s' & Hrun' & _ & _ & Hc').
  unfold FinDiffCall. rewrite Hrun, Hrun'. cbn [bind].
  eexists. eexists. split; [reflexivity|]. split; [reflexivity|].
  pose proof (result_column_range M HM) as Hj0.
  rewrite Hc, Hc' by lia.
  assert (0 <= T / inject_Z N)%Q as Hdt.
  { apply Qle_shift_div_l; [|lra].
    apply (Qlt_le_trans _ 1); [reflexivity | apply (inject_Z_le 1 N); lia]. }
  apply grid_value_strike_order; try assumption.
  - intros j Hj.
    apply (weights_nonneg r sigma (T / inject_Z N) M j); try assumption; lia.
  - intros j Hj.
    apply (weights_nonneg r sigma (T / inject_Z N) M j); try assumption; lia.
  - intros j Hj.
    apply (weights_nonneg r sigma (T / inject_Z N) M j); try assumption; lia.
Qed.

Lemma strike_monotone_witness :
  exists p p',
    FinDiffCall 200 205 (2#100) (14#100) (1#2) 4 10 = Ok (Num p) /\
    FinDiffCall 200 210 (2#100) (14#100) (1#2) 4 10 = Ok (Num p') /\
    (p' <= p)%Q.
Proof.
  apply strike_monotone;
    [reflexivity | q_compare | q_compare | lia | lia | q_nonzero | q_compare
    | q_compare | q_compare | q_compare].
Defined.

Section MonteCarloMore.

Local Open Scope R_scope.

(** ** MCCall: what every call with draws returns *)

Lemma discounted_payoff_nonneg (S0 K r sigma T w : R) :
  0 <= discounted_payoff_of S0 K r sigma T w.
Proof.
  unfold discounted_payoff_of. apply Rmult_le_pos.
  - left. apply exp_pos.
  - apply Rmax_r.
Qed.

Lemma total_nonneg (xs : list R) :
  Forall (fun x => 0 <= x) xs -> 0 <= total xs.
Proof.
  unfold total. induction 1 as [|x xs Hx _ IH]; simpl; lra.
Qed.

(** X8.  When a call on [n] draws returns, the estimate it returns and the
    width it prints are not negative. *)
Theorem MCCall_nonneg (S0 K r sigma T : R) (n : Z) (Weiner : list R)
  (out : mc_output) :
  length Weiner = Z.to_nat n ->
  MCCall S0 K r sigma T n Weiner = Ok out ->
  0 <= returned out /\
  exists w, printed out = [(width_label, w)] /\ 0 <= w.
Proof.
  intros Hlen Hout.
  assert (0 <= T /\ (1 <= n)%Z) as [HT Hn].
  { unfold MCCall in Hout.
    destruct (Rlt_dec T 0); [discriminate Hout|].
    destruct (Z.ltb_spec n 0); [discriminate Hout|].
    destruct (Z.eqb_spec n 0); [discriminate Hout|].
    split; [lra | lia]. }
  rewrite MCCall_value in Hout by assumption. injection Hout as <-.
  assert (0 < IZR n) as Hpos by (apply IZR_lt; lia).
  assert (0 < INR (length (map (discounted_payoff_of S0 K r sigma T) Weiner)))
    as Hlenpos.
  { rewrite length_map, Hlen, INR_IZR_INZ, Z2Nat.id by lia. assumption. }
  cbn [returned printed]. split.
  - unfold arithmetic_mean. apply Rmult_le_pos.
    + apply total_nonneg, Forall_forall. intros x Hx.
      apply list_elem_of_fmap in Hx as (w & -> & _).
      apply discounted_payoff_nonneg.
    + left. apply Rinv_0_lt_compat. assumption.
  - eexists. split; [reflexivity|].
    unfold interval_width. apply Rmult_le_pos.
    + apply Rmult_le_pos; [lra | apply sqrt_pos].
    + left. apply Rinv_0_lt_compat. apply sqrt_lt_R0. assumption.
Qed.

Lemma MCCall_nonneg_witness :
  0 <= arithmetic_mean (map (discounted_payoff_of 2 1 0 1 2) [1; 0]) /\
  exists w,
    [(width_label,
      interval_width
        (population_std (map (discounted_payoff_of 2 1 0 1 2) [1; 0])) 2)]
    = [(width_label, w)] /\ 0 <= w.
Proof.
  apply (MCCall_nonneg 2 1 0 1 2 2 [1; 0]
           (mkOutput
              [(width_label,
                interval_width
                  (population_std
                     (map (discounted_payoff_of 2 1 0 1 2) [1; 0])) 2)]
              (arithmetic_mean
                 (map (discounted_payoff_of 2 1 0 1 2) [1; 0]))));
    [reflexivity|].
  apply MCCall_value; [lra | lia | reflexivity].
Defined.

(** X9.  With a single draw the estimate is the discounted payoff of that
    draw and the width printed is 0. *)
Theorem MCCall_single_draw (S0 K r sigma T w : R) :
  0 <= T ->
  MCCall S0 K r sigma T 1 [w]
  = Ok (mkOutput [(width_label, 0)] (discounted_payoff_of S0 K r sigma T w)).
Proof.
  intros HT. rewrite MCCall_value by (assumption || lia || reflexivity).
  cbn [map]. set (p := discounted_payoff_of S0 K r sigma T w).
  assert (arithmetic_mean [p] = p) as Em.
  { unfold arithmetic_mean, total. simpl. field. }
  assert (population_std [p] = 0) as Es.
  { unfold population_std, squared_deviations. rewrite Em.
    unfold total. simpl.
    replace ((p - p) * ((p - p) * 1) + 0) with 0 by ring.
    unfold Rdiv. rewrite Rmult_0_l. apply sqrt_0. }
  rewrite Em, Es. unfold interval_width.
  replace (2 * 1.96 * 0 / sqrt 1) with 0; [reflexivity|].
  unfold Rdiv. ring.
Qed.

Lemma MCCall_single_draw_witness :
  MCCall 2 1 0 1 2 1 [0]
  = Ok (mkOutput [(width_label, 0)] (discounted_payoff_of 2 1 0 1 2 0)).
Proof. apply MCCall_single_draw. lra. Defined.

(** ** MCCall: the order of the draws *)

Lemma total_permutation (xs ys : list R) : xs ≡ₚ ys -> total xs = total ys.
Proof.
  unfold total. induction 1; simpl; lra.
Qed.

Lemma mean_permutation (xs ys : list R) :
  xs ≡ₚ ys -> arithmetic_mean xs = arithmetic_mean ys.
Proof.
  intros H. unfold arithmetic_mean.
  rewrite (total_permutation _ _ H), (Permutation_length H). reflexivity.
Qed.

Lemma std_permutation (xs ys : list R) :
  xs ≡ₚ ys -> population_std xs = population_std ys.
Proof.
  intros H. unfold population_std, squared_deviations.
  rewrite (mean_permutation _ _ H), (Permutation_length H).
  f_equal. f_equal. apply total_permutation. apply fmap_Permutation.
  assumption.
Qed.

(** X10.  The estimate and the width do not depend on the order of the
    draws: a call with the same draws in another order returns and prints
    the same. *)
Theorem MCCall_permutation (S0 K r sigma T : R) (n : Z) (W W' : list R) :
  W ≡ₚ W' -> length W = Z.to_nat n ->
  MCCall S0 K r sigma T n W = MCCall S0 K r sigma T n W'.
Proof.
  intros Hp Hlen.
  destruct (Rlt_dec T 0) as [HT|HT]; [unfold MCCall;
    destruct (Rlt_dec T 0); [reflexivity | contradiction]|].
  destruct (Z.ltb_spec n 1) as [Hn|Hn].
  - unfold MCCall. destruct (Rlt_dec T 0); [reflexivity|].
    destruct (Z.ltb_spec n 0); [reflexivity|].
    assert (n = 0)%Z as -> by lia. reflexivity.
  - assert (length W' = Z.to_nat n) as Hlen'
      by (rewrite <- (Permutation_length Hp); assumption).
    rewrite !MCCall_value by (assumption || lra).
    assert (map (discounted_payoff_of S0 K r sigma T) W
            ≡ₚ map (discounted_payoff_of S0 K r sigma T) W') as Hq
      by (apply fmap_Permutation; assumption).
    rewrite (mean_permutation _ _ Hq), (std_permutation _ _ Hq).
    reflexivity.
Qed.

Lemma MCCall_permutation_witness :
  MCCall 2 1 0 1 2 2 [1; 0] = MCCall 2 1 0 1 2 2 [0; 1].
Proof.
  apply MCCall_permutation; [apply Permutation_swap | reflexivity].
Defined.

End MonteCarloMore.

Section MonteCarloOrder.

Local Open Scope R_scope.

(** ** MCCall: dependence on the prices *)

Lemma total_le (f g : R -> R) (ws : list R) :
  (forall w, f w <= g w) -> total (map f ws) <= total (map g ws).
Proof.
  intros H. unfold total. induction ws as [|w ws IH]; simpl; [lra|].
  specialize (H w). lra.
Qed.

Lemma discounted_payoff_order (S0 S0' K K' r sigma T w : R) :
  S0 <= S0' -> K' <= K ->
  discounted_payoff_of S0 K r sigma T w
  <= discounted_payoff_of S0' K' r sigma T w.
Proof.
  intros HS HK. unfold discounted_payoff_of.
  apply Rmult_le_compat_l; [left; apply exp_pos|].
  set (e := exp ((r - sigma ^ 2 / 2) * T + sigma * w)).
  assert (0 < e) as He by apply exp_pos.
  apply Rle_max_compat_r. nra.
Qed.

(** X11.  With the same draws the estimate does not fall when the initial
    price rises and does not rise when the strike rises. *)
Theorem MCCall_price_order (S0 S0' K K' r sigma T : R) (n : Z)
  (Weiner : list R) :
  0 <= T -> (1 <= n)%Z -> length Weiner = Z.to_nat n ->
  S0 <= S0' -> K' <= K ->
  exists out out',
    MCCall S0 K r sigma T n Weiner = Ok out /\
    MCCall S0' K' r sigma T n Weiner = Ok out' /\
    returned out <= returned out'.
Proof.
  intros HT Hn Hlen HS HK. rewrite !MCCall_value by assumption.
  eexists. eexists. split; [reflexivity|]. split; [reflexivity|].
  cbn [returned]. unfold arithmetic_mean. rewrite !length_map.
  assert (0 < INR (length Weiner)) as Hpos.
  { rewrite Hlen, INR_IZR_INZ, Z2Nat.id by lia. apply IZR_lt. lia. }
  apply Rmult_le_compat_r; [left; apply Rinv_0_lt_compat; assumption|].
  apply total_le. intros w. apply discounted_payoff_order; assumption.
Qed.

Lemma MCCall_price_order_witness :
  exists out out',
    MCCall 2 1 0 1 2 2 [1; 0] = Ok out /\
    MCCall 3 (1/2) 0 1 2 2 [1; 0] = Ok out' /\
    returned out <= returned out'.
Proof.
  apply MCCall_price_order; [lra | lia | reflexivity | lra | lra].
Defined.

Lemma discounted_payoff_scale (lambda S0 K r sigma T w : R) :
  0 <= lambda ->
  discounted_payoff_of (lambda * S0) (lambda * K) r sigma T w
  = lambda * discounted_payoff_of S0 K r sigma T w.
Proof.
  intros Hl. unfold discounted_payoff_of.
  set (e := exp ((r - sigma ^ 2 / 2) * T + sigma * w)).
  replace (lambda * S0 * e - lambda * K) with (lambda * (S0 * e - K)) by ring.
  replace 0 with (lambda * 0) at 1 by ring.
  rewrite RmaxRmult by assumption. ring.
Qed.

Lemma total_scale (lambda : R) (xs : list R) :
  total (map (Rmult lambda) xs) = lambda * total xs.
Proof.
  unfold total. induction xs as [|x xs IH]; simpl; [ring|].
  rewrite IH. ring.
Qed.

Lemma mean_scale (lambda : R) (xs : list R) :
  arithmetic_mean (map (Rmult lambda) xs) = lambda * arithmetic_mean xs.
Proof.
  unfold arithmetic_mean. rewrite total_scale, length_map.
  unfold Rdiv. ring.
Qed.

Lemma std_scale (lambda : R) (xs : list R) :
  0 <= lambda ->
  population_std (map (Rmult lambda) xs) = lambda * population_std xs.
Proof.
  intros Hl. unfold population_std, squared_deviations.
  rewrite mean_scale, length_map, map_map.
  replace (map (fun x => (lambda * x - lambda * arithmetic_mean xs) ^ 2) xs)
    with (map (Rmult (lambda ^ 2))
            (map (fun x => (x - arithmetic_mean xs) ^ 2) xs)).
  - rewrite total_scale.
    set (q := total (map (fun x => (x - arithmetic_mean xs) ^ 2) xs)).
    replace (lambda ^ 2 * q / INR (length xs))
      with (lambda ^ 2 * (q / INR (length xs))) by (unfold Rdiv; ring).
    rewrite sqrt_mult_alt by nra.
    replace (lambda ^ 2) with (Rsqr lambda) by (unfold Rsqr; ring).
    rewrite sqrt_Rsqr by assumption. reflexivity.
  - rewrite map_map. apply map_ext. intros x. ring.
Qed.

(** X12.  Quoting the initial price and the strike in another unit
    ([lambda >= 0] times both) multiplies the estimate returned and the
    width printed by [lambda]. *)
Theorem MCCall_scale (lambda S0 K r sigma T : R) (n : Z) (Weiner : list R) :
  0 <= lambda ->
  0 <= T -> (1 <= n)%Z -> length Weiner = Z.to_nat n ->
  exists w mean,
    MCCall S0 K r sigma T n Weiner = Ok (mkOutput [(width_label, w)] mean) /\
    MCCall (lambda * S0) (lambda * K) r sigma T n Weiner
    = Ok (mkOutput [(width_label, lambda * w)] (lambda * mean)).
Proof.
  intros Hl HT Hn Hlen. rewrite !MCCall_value by assumption.
  eexists. eexists. split; [reflexivity|].
  replace (map (discounted_payoff_of (lambda * S0) (lambda * K) r sigma T)
             Weiner)
    with (map (Rmult lambda) (map (discounted_payoff_of S0 K r sigma T) Weiner)).
  - rewrite mean_scale, std_scale by assumption.
    set (s := population_std _).
    replace (interval_width (lambda * s) n)
      with (lambda * interval_width s n)
      by (unfold interval_width, Rdiv; ring).
    reflexivity.
  - rewrite map_map. apply map_ext. intros w. symmetry.
    apply discounted_payoff_scale. assumption.
Qed.

Lemma MCCall_scale_witness :
  exists w mean,
    MCCall 2 1 0 1 2 2 [1; 0] = Ok (mkOutput [(width_label, w)] mean) /\
    MCCall (100 * 2) (100 * 1) 0 1 2 2 [1; 0]
    = Ok (mkOutput [(width_label, 100 * w)] (100 * mean)).
Proof.
  apply (MCCall_scale 100 2 1 0 1 2 2 [1; 0]); [lra | lra | lia | reflexivity].
Defined.

End MonteCarloOrder.

(** ** Lists of lists and loops, for any values *)

Lemma square_row {A : Type} (n : Z) (g : list (list A)) (i : Z) :
  square n g -> 0 <= i < n ->
  exists row, g !! Z.to_nat i = Some row /\ Z.of_nat (length row) = n.
Proof.
  intros [Hlen Hrows] Hi.
  destruct (lookup_lt_is_Some_2 g (Z.to_nat i)) as [row Hrow]; [lia|].
  exists row. split; [assumption|].
  rewrite Forall_lookup in Hrows. exact (Hrows _ _ Hrow).
Qed.

Lemma get2_ok {A : Type} (d : A) (n : Z) (g : list (list A)) (i j : Z) :
  square n g -> 0 <= i < n -> 0 <= j < n ->
  get2 g i j = Ok (at2 d g i j).
Proof.
  intros Hg Hi Hj.
  destruct (square_row n g i Hg Hi) as (row & Hrow & Hlen).
  destruct (lookup_lt_is_Some_2 row (Z.to_nat j)) as [v Hv]; [lia|].
  unfold get2, at2.
  rewrite index_in_range by (destruct Hg; lia). cbn [bind].
  rewrite Hrow. rewrite index_in_range by lia. cbn [bind].
  rewrite Hv. reflexivity.
Qed.

Lemma set2_ok {A : Type} (d : A) (n : Z) (g : list (list A)) (i j : Z)
  (v : A) :
  square n g -> 0 <= i < n -> 0 <= j < n ->
  exists g', set2 g i j v = Ok g' /\ square n g' /\
    forall i' j', 0 <= i' -> 0 <= j' ->
      at2 d g' i' j' = if decide (i' = i /\ j' = j) then v else at2 d g i' j'.
Proof.
  intros Hg Hi Hj.
  destruct (square_row n g i Hg Hi) as (row & Hrow & Hlen).
  unfold set2.
  rewrite index_in_range by (destruct Hg; lia). cbn [bind].
  rewrite Hrow. rewrite index_in_range by lia. cbn [bind].
  eexists. split; [reflexivity|]. split.
  - destruct Hg as [Hl Hrows]. split.
    + rewrite length_insert. assumption.
    + apply Forall_insert; [assumption|].
      cbv beta. rewrite length_insert. assumption.
  - intros i' j' Hi' Hj'. unfold at2.
    destruct (decide (i' = i)) as [->|Hne].
    + rewrite list_lookup_insert_eq
        by (apply lookup_lt_Some in Hrow; assumption).
      rewrite Hrow.
      destruct (decide (j' = j)) as [->|Hnj].
      * rewrite list_lookup_insert_eq by lia.
        rewrite decide_True by auto. reflexivity.
      * rewrite list_lookup_insert_ne by lia.
        rewrite decide_False by tauto. reflexivity.
    + rewrite list_lookup_insert_ne by lia.
      rewrite decide_False by tauto. reflexivity.
Qed.

(** The counting rule for [for k in range(lo, hi)]. *)
Lemma for_each_range {S : Type} (P : Z -> S -> Prop) (lo hi : Z) body
  (s : S) :
  lo <= hi ->
  P lo s ->
  (forall k t, lo <= k < hi -> P k t ->
     exists t', body k t = Ok t' /\ P (k + 1) t') ->
  exists s', for_each (range lo hi) body s = Ok s' /\ P hi s'.
Proof.
  intros Hle. unfold range.
  remember (Z.to_nat (hi - lo)) as n eqn:Hn.
  revert lo s Hle Hn. induction n as [|n IH]; intros lo s Hle Hn Hs Hbody.
  - assert (lo = hi) as -> by lia.
    rewrite seqZ_nil by lia. exists s. auto.
  - rewrite seqZ_cons by lia. simpl.
    destruct (Hbody lo s) as (t & Ht & HP); [lia | assumption |].
    rewrite Ht. simpl.
    replace (Z.pred (hi - lo)) with (hi - Z.succ lo) by lia.
    apply IH; [lia | lia | |].
    + replace (Z.succ lo) with (lo + 1) by lia. assumption.
    + intros k u Hk. apply Hbody. lia.
Qed.

Lemma range_down_nil (start stop : Z) :
  start <= stop -> range_down start stop = [].
Proof. intros H. unfold range_down. rewrite seqZ_nil by lia. reflexivity. Qed.

Lemma range_down_cons (start stop : Z) :
  stop < start ->
  range_down start stop = start :: range_down (start - 1) stop.
Proof.
  intros H. unfold range_down.
  replace (start - stop) with ((start - 1 - stop) + 1) at 1 by lia.
  rewrite seqZ_app by lia.
  rewrite (seqZ_cons _ 1) by lia. rewrite (seqZ_nil _ (Z.pred 1)) by lia.
  rewrite reverse_snoc. f_equal. lia.
Qed.

(** The counting rule for [for k in range(start, stop, -1)]. *)
Lemma for_each_range_down {S : Type} (P : Z -> S -> Prop) (start stop : Z)
  body (s : S) :
  stop <= start ->
  P start s ->
  (forall k t, stop < k <= start -> P k t ->
     exists t', body k t = Ok t' /\ P (k - 1) t') ->
  exists s', for_each (range_down start stop) body s = Ok s' /\ P stop s'.
Proof.
  intros Hle.
  remember (Z.to_nat (start - stop)) as n eqn:Hn.
  revert start s Hle Hn.
  induction n as [|n IH]; intros start s Hle Hn Hs Hbody.
  - assert (start = stop) as -> by lia.
    rewrite range_down_nil by lia. exists s. auto.
  - rewrite range_down_cons by lia. simpl.
    destruct (Hbody start s) as (t & Ht & HP); [lia | assumption |].
    rewrite Ht. simpl.
    apply IH; [lia | lia | assumption |].
    intros k u Hk. apply Hbody. lia.
Qed.

(** ** CRRCall: the loops *)

Section CRRLoops.

Local Open Scope R_scope.

Lemma square_alloc (N : Z) : (0 <= N + 1)%Z -> square (N + 1) (alloc_square N).
Proof.
  intros HN. unfold alloc_square, range. split.
  - rewrite length_fmap, length_seqZ. lia.
  - apply Forall_fmap. apply Forall_forall. intros x _. simpl.
    rewrite length_fmap, length_seqZ. lia.
Qed.

Lemma set_maturity_spec (S0 K : R) (u d : npfloat) (N : Z)
  (final : Z -> npfloat) (g : list (list npfloat)) :
  (0 <= N)%Z -> square (N + 1) g ->
  (forall j, (0 <= j <= N)%Z -> maturity_value S0 K u d N j = Ok (final j)) ->
  exists g', set_maturity S0 K u d N g = Ok g' /\ square (N + 1) g' /\
    forall j, (0 <= j <= N)%Z -> at2 NaN g' N j = final j.
Proof.
  intros HN Hg Hfinal. unfold set_maturity.
  destruct (for_each_range
    (fun k t => square (N + 1) t /\
       forall j, (0 <= j < k)%Z -> at2 NaN t N j = final j)
    0 (N + 1)
    (fun j c => do v <- maturity_value S0 K u d N j ; set2 c N j v) g)
    as (g' & Hrun & Hsq & Hcells).
  - lia.
  - split; [assumption|]. intros j Hj. lia.
  - intros k t Hk [Hsq Hcells].
    rewrite Hfinal by lia. cbn [bind].
    destruct (set2_ok NaN (N + 1) t N k (final k) Hsq)
      as (t' & Hset & Hsq' & Hat);
      [lia | lia |].
    exists t'. split; [assumption|]. split; [assumption|].
    intros j Hj. rewrite Hat by lia.
    destruct (decide (N = N /\ j = k)) as [[_ ->]|Hne]; [reflexivity|].
    apply Hcells. lia.
  - exists g'. split; [assumption|]. split; [assumption|].
    intros j Hj. apply Hcells. lia.
Qed.

Section RollBack.

Variables (r delta_t : R) (p : npfloat) (N : Z) (final : Z -> npfloat).

Lemma roll_back_cell_spec (i j : Z) (g : list (list npfloat)) :
  (0 <= i < N)%Z -> (0 <= j <= i)%Z ->
  rolled_back r delta_t p N final i g ->
  (forall j', (0 <= j' < j)%Z ->
     at2 NaN g i j'
     = np_lattice final (exp (- r * delta_t)) p (Z.to_nat (N - i)) j') ->
  exists g', roll_back_cell r delta_t p i j g = Ok g' /\
    rolled_back r delta_t p N final i g' /\
    forall j', (0 <= j' < j + 1)%Z ->
      at2 NaN g' i j'
      = np_lattice final (exp (- r * delta_t)) p (Z.to_nat (N - i)) j'.
Proof.
  intros Hi Hj [Hsq Hrows] Hrow. unfold roll_back_cell.
  rewrite (get2_ok NaN (N + 1)) by (assumption || lia). cbn [bind].
  rewrite (get2_ok NaN (N + 1)) by (assumption || lia). cbn [bind].
  rewrite !Hrows by lia.
  destruct (set2_ok NaN (N + 1) g i j
    (discounted_mean (exp (- r * delta_t)) p
       (np_lattice final (exp (- r * delta_t)) p
          (Z.to_nat (N - (i + 1))) (j + 1))
       (np_lattice final (exp (- r * delta_t)) p
          (Z.to_nat (N - (i + 1))) j)) Hsq) as (g' & Hset & Hsq' & Hat);
    [lia | lia |].
  exists g'. split; [assumption|]. split; [split; [assumption|]|].
  - intros i' j' Hi' Hj'. rewrite Hat by lia.
    rewrite decide_False by lia. apply Hrows; lia.
  - intros j' Hj'. rewrite Hat by lia.
    destruct (decide (i = i /\ j' = j)) as [[_ ->]|Hne].
    + replace (Z.to_nat (N - i)) with (Datatypes.S (Z.to_nat (N - (i + 1))))
        by lia.
      reflexivity.
    + apply Hrow. lia.
Qed.

Lemma roll_back_spec (g : list (list npfloat)) :
  (0 <= N)%Z -> square (N + 1) g ->
  (forall j, (0 <= j <= N)%Z -> at2 NaN g N j = final j) ->
  exists g', roll_back r delta_t p N g = Ok g' /\
    rolled_back r delta_t p N final (-1) g'.
Proof.
  intros HN Hsq Hlast. unfold roll_back.
  apply (for_each_range_down (rolled_back r delta_t p N final)).
  - lia.
  - split; [assumption|]. intros i j Hi Hj.
    assert (i = N) as -> by lia.
    rewrite Z.sub_diag. simpl. apply Hlast. assumption.
  - intros i t Hi Ht.
    destruct (for_each_range
      (fun k t' => rolled_back r delta_t p N final i t' /\
         forall j', (0 <= j' < k)%Z ->
           at2 NaN t' i j'
           = np_lattice final (exp (- r * delta_t)) p (Z.to_nat (N - i)) j')
      0 (i + 1) (fun j => roll_back_cell r delta_t p i j) t)
      as (t' & Hrun & [Hsq' Hrows'] & Hrow').
    + lia.
    + split; [assumption|]. intros j' Hj'. lia.
    + intros k u Hk [Hu Hrow].
      destruct (roll_back_cell_spec i k u) as (u' & Hcell & Hu' & Hrow');
        [lia | lia | assumption | assumption |].
      exists u'. auto.
    + exists t'. split; [assumption|]. split; [assumption|].
      intros i' j' Hi' Hj'.
      destruct (decide (i' = i)) as [->|Hne].
      * apply Hrow'. lia.
      * apply Hrows'; lia.
Qed.

End RollBack.

(** For one or more steps the call returns the value at the root of the
    tree rolled back from the values at maturity, when none of these
    raises. *)
Lemma CRRCall_np_lattice (S0 K r sigma T : R) (N : Z)
  (final : Z -> npfloat) :
  (1 <= N)%Z ->
  let delta_t := T / IZR N in
  let u := np_exp (np_mul (Finite sigma) (np_sqrt (Finite delta_t))) in
  let d := np_exp (np_mul (Finite (- sigma)) (np_sqrt (Finite delta_t))) in
  let p := np_div (np_sub (Finite (exp (r * delta_t))) d) (np_sub u d) in
  (forall j, (0 <= j <= N)%Z -> maturity_value S0 K u d N j = Ok (final j)) ->
  CRRCall S0 K r sigma T N
  = Ok (np_lattice final (exp (- r * delta_t)) p (Z.to_nat N) 0).
Proof.
  intros HN delta_t u d p Hfinal. unfold CRRCall.
  destruct (Z.eqb_spec N 0) as [->|_]; [lia|].
  fold delta_t. fold u. fold d. fold p.
  destruct (set_maturity_spec S0 K u d N final (alloc_square N))
    as (c1 & H1 & Hsq1 & Hlast); [lia | apply square_alloc; lia | assumption |].
  rewrite H1. cbn [bind].
  destruct (roll_back_spec r delta_t p N final c1) as (c2 & H2 & Hsq2 & Hall);
    [lia | assumption | assumption |].
  rewrite H2. cbn [bind].
  rewrite (get2_ok NaN (N + 1)) by (assumption || lia).
  rewrite Hall by lia. rewrite Z.sub_0_r. reflexivity.
Qed.

End CRRLoops.

(** ** CRRCall: the outcomes *)

Section CRROutcomes.

Local Open Scope R_scope.

Lemma math_pow_finite (x : R) (j : Z) :
  x <> 0 -> math_pow (Finite x) j = Ok (Finite (powerRZ x j)).
Proof.
  intros Hx. unfold math_pow.
  destruct (Z.eqb_spec j 0) as [->|_]; [reflexivity|].
  destruct (Req_dec_T x 0); [contradiction | reflexivity].
Qed.

Lemma max_zero_finite (x : R) : max_zero (Finite x) = Finite (Rmax x 0).
Proof.
  unfold max_zero. destruct (Rlt_dec x 0) as [H|H].
  - rewrite Rmax_right by lra. reflexivity.
  - rewrite Rmax_left by lra. reflexivity.
Qed.

Lemma np_lattice_finite (f : Z -> R) (disc p : R) (m : nat) (j : Z) :
  np_lattice (fun k => Finite (f k)) disc (Finite p) m j
  = Finite (lattice f disc p m j).
Proof.
  revert j. induction m as [|m IH]; intros j; simpl; [reflexivity|].
  rewrite !IH. reflexivity.
Qed.

Lemma np_lattice_nan (disc : R) (m : nat) (j : Z) :
  np_lattice (fun _ => NaN) disc NaN m j = NaN.
Proof.
  revert j. induction m as [|m IH]; intros j; simpl; [reflexivity|].
  rewrite !IH. reflexivity.
Qed.

(** With a weight that is not a number, one step back from values that are
    not negative already gives [nan]. *)
Lemma discounted_mean_not_finite (disc : R) (p : npfloat) (a b : R) :
  (forall x, p <> Finite x) -> 0 <= a -> 0 <= b ->
  discounted_mean disc p (Finite a) (Finite b) = NaN.
Proof.
  intros Hp Ha Hb. unfold discounted_mean.
  destruct p as [x| | |]; [destruct (Hp x); reflexivity| | |];
    simpl; unfold inf_times;
    destruct (Req_dec_T a 0), (Req_dec_T b 0); try reflexivity;
    destruct (Rlt_dec 0 a), (Rlt_dec 0 b); try reflexivity; lra.
Qed.

Lemma discounted_mean_nan (disc : R) (p : npfloat) :
  (forall x, p <> Finite x) -> discounted_mean disc p NaN NaN = NaN.
Proof.
  intros Hp. destruct p as [x| | |]; [destruct (Hp x)|..]; reflexivity.
Qed.

Lemma np_lattice_not_finite (f : Z -> R) (disc : R) (p : npfloat) (m : nat)
  (j : Z) :
  (forall x, p <> Finite x) -> (forall k, 0 <= f k) ->
  np_lattice (fun k => Finite (f k)) disc p (Datatypes.S m) j = NaN.
Proof.
  intros Hp Hf. revert j. induction m as [|m IH]; intros j.
  - simpl. apply discounted_mean_not_finite; auto.
  - change (discounted_mean disc p
      (np_lattice (fun k => Finite (f k)) disc p (Datatypes.S m) (j + 1))
      (np_lattice (fun k => Finite (f k)) disc p (Datatypes.S m) j) = NaN).
    rewrite !IH. apply discounted_mean_nan. assumption.
Qed.

Lemma up_down_factor (sigma delta_t : R) :
  up_factor sigma delta_t = down_factor sigma delta_t <->
  sigma * sqrt delta_t = 0.
Proof.
  unfold up_factor, down_factor. split.
  - intros H. apply exp_inv in H. lra.
  - intros H. f_equal. lra.
Qed.

(** The values at maturity for a step that is not negative. *)
Lemma maturity_value_finite (S0 K sigma delta_t : R) (N j : Z) :
  maturity_value S0 K (Finite (up_factor sigma delta_t))
    (Finite (down_factor sigma delta_t)) N j
  = Ok (Finite
          (Rmax (node_price S0 (up_factor sigma delta_t)
                   (down_factor sigma delta_t) N j - K) 0)).
Proof.
  unfold maturity_value.
  rewrite !math_pow_finite
    by (unfold up_factor, down_factor; apply Rgt_not_eq, exp_pos).
  cbn [bind np_mul np_sub np_neg np_add].
  rewrite max_zero_finite. reflexivity.
Qed.

(** The values at maturity for a negative step: all [nan]. *)
Lemma maturity_value_nan (S0 K : R) (N j : Z) :
  (1 <= N)%Z -> maturity_value S0 K NaN NaN N j = Ok NaN.
Proof.
  intros HN. unfold maturity_value, math_pow.
  destruct (Z.eqb_spec j 0) as [->|Hj].
  - destruct (Z.eqb_spec (N - 0) 0); [lia | reflexivity].
  - destruct (N - j =? 0)%Z; reflexivity.
Qed.

(** The call on a tree that is not degenerate. *)
Lemma CRRCall_tree (S0 K r sigma T : R) (N : Z) :
  (1 <= N)%Z -> 0 < T -> sigma <> 0 ->
  CRRCall S0 K r sigma T N = Ok (Finite (tree_price S0 K r sigma T N)).
Proof.
  intros HN HT Hsigma.
  assert (0 < IZR N) as HNR by (apply IZR_lt; lia).
  assert (0 < T / IZR N) as Hdt by (apply Rdiv_lt_0_compat; assumption).
  pose proof (sqrt_lt_R0 _ Hdt) as Hroot.
  rewrite (CRRCall_np_lattice S0 K r sigma T N
    (fun j => Finite (Rmax (node_price S0 (up_factor sigma (T / IZR N))
                              (down_factor sigma (T / IZR N)) N j - K) 0)));
    [| assumption
     | intros j _; unfold np_sqrt;
       destruct (Rlt_dec (T / IZR N) 0); [lra|];
       apply maturity_value_finite].
  unfold np_sqrt. destruct (Rlt_dec (T / IZR N) 0); [lra|].
  cbn [np_mul np_exp np_sub np_neg np_add].
  unfold np_div.
  destruct (Req_dec_T (exp (sigma * sqrt (T / IZR N))
                       + - exp (- sigma * sqrt (T / IZR N))) 0) as [E|_].
  - assert (up_factor sigma (T / IZR N) = down_factor sigma (T / IZR N)) as E'
      by (unfold up_factor, down_factor; lra).
    apply up_down_factor in E'. nra.
  - rewrite np_lattice_finite. reflexivity.
Qed.

(** X13.  [CRRCall] raises ZeroDivisionError exactly when [N = 0], at
    [T/N]; it raises IndexError only when [N < 0], and does so for every
    negative [N] that a float can hold (a larger integer is not converted
    in [T/N]): the grid is empty and [c[0][0]] fails. *)
Theorem CRRCall_raises (S0 K r sigma T : R) (N : Z) :
  (CRRCall S0 K r sigma T N = Raise ZeroDivisionError <-> N = 0%Z) /\
  (CRRCall S0 K r sigma T N = Raise IndexError -> (N < 0)%Z) /\
  ((- 2 ^ 1023 <= N < 0)%Z -> CRRCall S0 K r sigma T N = Raise IndexError).
Proof.
  assert ((1 <= N)%Z -> exists v, CRRCall S0 K r sigma T N = Ok v) as Hpos.
  { intros HN.
    destruct (Rlt_dec (T / IZR N) 0) as [Hneg|Hpos].
    - exists (np_lattice (fun _ => NaN) (exp (- r * (T / IZR N))) NaN
                (Z.to_nat N) 0).
      rewrite (CRRCall_np_lattice S0 K r sigma T N (fun _ => NaN));
        try assumption.
      + unfold np_sqrt. destruct (Rlt_dec (T / IZR N) 0); [|lra].
        reflexivity.
      + intros j _. unfold np_sqrt.
        destruct (Rlt_dec (T / IZR N) 0); [|lra].
        apply maturity_value_nan. assumption.
    - eexists.
      apply (CRRCall_np_lattice S0 K r sigma T N
        (fun j => Finite (Rmax (node_price S0 (up_factor sigma (T / IZR N))
                              (down_factor sigma (T / IZR N)) N j - K) 0)));
        try assumption.
      intros j _. unfold np_sqrt.
      destruct (Rlt_dec (T / IZR N) 0); [lra|].
      apply maturity_value_finite. }
  assert ((N < 0)%Z -> CRRCall S0 K r sigma T N = Raise IndexError) as Hneg.
  { intros HN. unfold CRRCall.
    destruct (Z.eqb_spec N 0) as [->|_]; [lia|].
    unfold set_maturity, roll_back, alloc_square, range, range_down.
    rewrite !seqZ_nil by lia. reflexivity. }
  assert (N = 0%Z -> CRRCall S0 K r sigma T N = Raise ZeroDivisionError)
    as Hzero by (intros ->; reflexivity).
  destruct (Z.lt_trichotomy N 0) as [H|[H|H]].
  - rewrite Hneg by assumption.
    repeat split; try discriminate; try lia; auto.
  - rewrite Hzero by assumption.
    repeat split; try discriminate; try lia; auto.
  - destruct Hpos as [v Hv]; [lia|]. rewrite Hv.
    repeat split; try discriminate; try lia; eauto.
Qed.

Lemma CRRCall_raises_witness :
  CRRCall 100 100 0.05 0.2 1 (-1) = Raise IndexError.
Proof.
  apply (proj2 (proj2 (CRRCall_raises 100 100 0.05 0.2 1 (-1)))). lia.
Defined.

(** X14.  With one or more steps and a maturity that is zero or negative,
    or a volatility that is zero, the call returns [nan]: the weight of
    the move up is a division by zero, or the step has no square root. *)
Theorem CRRCall_degenerate (S0 K r sigma T : R) (N : Z) :
  (1 <= N)%Z -> T <= 0 \/ sigma = 0 ->
  CRRCall S0 K r sigma T N = Ok NaN.
Proof.
  intros HN Hdeg.
  assert (0 < IZR N) as HNR by (apply IZR_lt; lia).
  destruct (Rlt_dec (T / IZR N) 0) as [Hneg|Hpos].
  - rewrite (CRRCall_np_lattice S0 K r sigma T N (fun _ => NaN));
      try assumption.
    + unfold np_sqrt. destruct (Rlt_dec (T / IZR N) 0); [|lra].
      cbn [np_mul np_exp np_sub np_neg np_add np_div].
      rewrite np_lattice_nan. reflexivity.
    + intros j _. unfold np_sqrt.
      destruct (Rlt_dec (T / IZR N) 0); [|lra].
      apply maturity_value_nan. assumption.
  - assert (sigma * sqrt (T / IZR N) = 0) as Hzero.
    { destruct Hdeg as [HT| ->]; [|lra].
      assert (T / IZR N = 0) as ->.
      { apply Rnot_lt_le in Hpos.
        assert (T / IZR N <= 0); [|lra].
        pose proof (Rinv_0_lt_compat _ HNR). unfold Rdiv. nra. }
      rewrite sqrt_0. lra. }
    rewrite (CRRCall_np_lattice S0 K r sigma T N
      (fun j => Finite (Rmax (node_price S0 (up_factor sigma (T / IZR N))
                              (down_factor sigma (T / IZR N)) N j - K) 0)));
      try assumption.
    + replace (Z.to_nat N) with (Datatypes.S (Z.to_nat (N - 1))) by lia.
      f_equal. apply np_lattice_not_finite.
      * intros x. unfold np_sqrt.
        destruct (Rlt_dec (T / IZR N) 0); [lra|].
        cbn [np_mul np_exp np_sub np_neg np_add]. unfold np_div.
        destruct (Req_dec_T (exp (sigma * sqrt (T / IZR N))
                       + - exp (- sigma * sqrt (T / IZR N))) 0) as [_|E].
        -- destruct (Req_dec_T _ 0); [discriminate|].
           destruct (Rlt_dec 0 _); discriminate.
        -- destruct E. replace (- sigma * sqrt (T / IZR N))
             with (sigma * sqrt (T / IZR N)) by lra. lra.
      * intros k. apply Rmax_r.
    + intros j _. unfold np_sqrt.
      destruct (Rlt_dec (T / IZR N) 0); [lra|].
      apply maturity_value_finite.
Qed.

Lemma CRRCall_degenerate_witness : CRRCall 100 100 0.05 0.2 0 3 = Ok NaN.
Proof. apply CRRCall_degenerate; [lia | left; lra]. Defined.

End CRROutcomes.

(** ** CRRCall: the value of the tree *)

Section CRRValue.

Local Open Scope R_scope.

(** The root value depends on the last row only where the tree reaches. *)
Lemma lattice_ext (f g : Z -> R) (disc p : R) (m : nat) (j : Z) :
  (forall k, (j <= k <= j + Z.of_nat m)%Z -> f k = g k) ->
  lattice f disc p m j = lattice g disc p m j.
Proof.
  revert j. induction m as [|m IH]; intros j H; simpl.
  - apply H. lia.
  - rewrite (IH (j + 1)%Z), (IH j); [reflexivity | |];
      intros k Hk; apply H; lia.
Qed.

Lemma lattice_le (f g : Z -> R) (disc p : R) (m : nat) (j : Z) :
  0 <= disc -> 0 <= p <= 1 ->
  (forall k, (j <= k <= j + Z.of_nat m)%Z -> f k <= g k) ->
  lattice f disc p m j <= lattice g disc p m j.
Proof.
  intros Hdisc Hp. revert j. induction m as [|m IH]; intros j H; simpl.
  - apply H. lia.
  - assert (lattice f disc p m (j + 1) <= lattice g disc p m (j + 1)) as H1
      by (apply IH; intros k Hk; apply H; lia).
    assert (lattice f disc p m j <= lattice g disc p m j) as H0
      by (apply IH; intros k Hk; apply H; lia).
    apply Rmult_le_compat_l; [assumption|].
    apply Rplus_le_compat; apply Rmult_le_compat_l; lra.
Qed.

Lemma lattice_linear (f g : Z -> R) (a b disc p : R) (m : nat) (j : Z) :
  lattice (fun k => a * f k + b * g k) disc p m j
  = a * lattice f disc p m j + b * lattice g disc p m j.
Proof.
  revert j. induction m as [|m IH]; intros j; simpl; [reflexivity|].
  rewrite !IH. ring.
Qed.

Lemma lattice_const (c disc p : R) (m : nat) (j : Z) :
  lattice (fun _ => c) disc p m j = disc ^ m * c.
Proof.
  revert j. induction m as [|m IH]; intros j; simpl; [ring|].
  rewrite !IH. ring.
Qed.

(** Discounted at the rate the weights carry, the asset price is a
    martingale on the tree. *)
Lemma lattice_node_price (S0 u d disc p : R) (n : Z) (m : nat) (j : Z) :
  u <> 0 -> d <> 0 -> disc * (p * u + (1 - p) * d) = 1 ->
  lattice (node_price S0 u d n) disc p m j
  = node_price S0 u d (n - Z.of_nat m) j.
Proof.
  intros Hu Hd Hone. revert j. induction m as [|m IH]; intros j.
  - simpl. rewrite Z.sub_0_r. reflexivity.
  - cbn [lattice]. rewrite !IH. unfold node_price.
    replace (n - Z.of_nat m - j)%Z
      with ((n - Z.of_nat (Datatypes.S m) - j) + 1)%Z by lia.
    replace (n - Z.of_nat m - (j + 1))%Z
      with (n - Z.of_nat (Datatypes.S m) - j)%Z by lia.
    rewrite !powerRZ_add by assumption. rewrite !powerRZ_1.
    transitivity
      (S0 * powerRZ u j * powerRZ d (n - Z.of_nat (Datatypes.S m) - j)
       * (disc * (p * u + (1 - p) * d))); [ring|].
    rewrite Hone. ring.
Qed.

Lemma exp_pow_nat (x : R) (n : nat) : exp x ^ n = exp (INR n * x).
Proof.
  induction n as [|n IH].
  - simpl. rewrite Rmult_0_l, exp_0. reflexivity.
  - rewrite S_INR. cbn [pow]. rewrite IH, <- exp_plus. f_equal. ring.
Qed.

Lemma powerRZ_exp (x : R) (z : Z) : powerRZ (exp x) z = exp (IZR z * x).
Proof.
  rewrite powerRZ_Rpower by apply exp_pos.
  unfold Rpower. rewrite ln_exp. reflexivity.
Qed.

Lemma node_price_exp (S0 sigma delta_t : R) (n j : Z) :
  node_price S0 (up_factor sigma delta_t) (down_factor sigma delta_t) n j
  = S0 * exp (IZR (2 * j - n) * (sigma * sqrt delta_t)).
Proof.
  unfold node_price, up_factor, down_factor.
  rewrite !powerRZ_exp. rewrite Rmult_assoc, <- exp_plus. do 2 f_equal.
  rewrite !minus_IZR, mult_IZR. ring.
Qed.

(** The nodes of a row rise with the number of moves up. *)
Lemma node_price_le (S0 sigma delta_t : R) (n j k : Z) :
  0 <= S0 -> 0 <= sigma * sqrt delta_t -> (j <= k)%Z ->
  node_price S0 (up_factor sigma delta_t) (down_factor sigma delta_t) n j
  <= node_price S0 (up_factor sigma delta_t) (down_factor sigma delta_t) n k.
Proof.
  intros HS Ha Hjk. rewrite !node_price_exp.
  apply Rmult_le_compat_l; [assumption|].
  assert (IZR (2 * j - n) <= IZR (2 * k - n)) as Hle by (apply IZR_le; lia).
  destruct (Req_dec (IZR (2 * j - n) * (sigma * sqrt delta_t))
              (IZR (2 * k - n) * (sigma * sqrt delta_t))) as [->|Hne];
    [lra|].
  left. apply exp_increasing. nra.
Qed.

Lemma node_price_nonneg (S0 sigma delta_t : R) (n j : Z) :
  0 <= S0 ->
  0 <= node_price S0 (up_factor sigma delta_t) (down_factor sigma delta_t)
         n j.
Proof.
  intros HS. rewrite node_price_exp.
  apply Rmult_le_pos; [assumption|]. left. apply exp_pos.
Qed.

Section Tree.

Variables (S0 K r sigma T : R) (N : Z).
Hypothesis HN : (1 <= N)%Z.
Hypothesis HT : 0 < T.

Lemma step_pos : 0 < T / IZR N.
Proof.
  apply Rdiv_lt_0_compat; [assumption|]. apply IZR_lt. lia.
Qed.

Lemma factors_differ :
  sigma <> 0 ->
  up_factor sigma (T / IZR N) - down_factor sigma (T / IZR N) <> 0.
Proof.
  intros Hsigma E.
  assert (up_factor sigma (T / IZR N) = down_factor sigma (T / IZR N))
    as E' by lra.
  apply up_down_factor in E'.
  pose proof (sqrt_lt_R0 _ step_pos). nra.
Qed.

(** The weights make the discounted asset price a martingale. *)
Lemma risk_neutral :
  sigma <> 0 ->
  exp (- r * (T / IZR N))
  * (up_weight r sigma (T / IZR N) * up_factor sigma (T / IZR N)
     + (1 - up_weight r sigma (T / IZR N))
       * down_factor sigma (T / IZR N)) = 1.
Proof.
  intros Hsigma. pose proof (factors_differ Hsigma) as Hud.
  replace (up_weight r sigma (T / IZR N) * up_factor sigma (T / IZR N)
           + (1 - up_weight r sigma (T / IZR N))
             * down_factor sigma (T / IZR N))
    with (exp (r * (T / IZR N))).
  - rewrite <- exp_plus.
    replace (- r * (T / IZR N) + r * (T / IZR N)) with 0 by ring.
    apply exp_0.
  - unfold up_weight. field. assumption.
Qed.

Lemma discount_maturity :
  exp (- r * (T / IZR N)) ^ Z.to_nat N = exp (- r * T).
Proof.
  rewrite exp_pow_nat. f_equal.
  rewrite INR_IZR_INZ, Z2Nat.id by lia.
  field. apply Rgt_not_eq, IZR_lt. lia.
Qed.

Lemma tree_price_unfold :
  tree_price S0 K r sigma T N
  = lattice
      (fun j => Rmax (node_price S0 (up_factor sigma (T / IZR N))
                        (down_factor sigma (T / IZR N)) N j - K) 0)
      (exp (- r * (T / IZR N))) (up_weight r sigma (T / IZR N))
      (Z.to_nat N) 0.
Proof. reflexivity. Qed.

(** The tree of the forward contract. *)
Lemma forward_value :
  sigma <> 0 ->
  lattice
    (fun j => node_price S0 (up_factor sigma (T / IZR N))
                (down_factor sigma (T / IZR N)) N j - K)
    (exp (- r * (T / IZR N))) (up_weight r sigma (T / IZR N))
    (Z.to_nat N) 0
  = S0 - K * exp (- r * T).
Proof.
  intros Hsigma.
  transitivity
    (1 * lattice (node_price S0 (up_factor sigma (T / IZR N))
                    (down_factor sigma (T / IZR N)) N)
           (exp (- r * (T / IZR N))) (up_weight r sigma (T / IZR N))
           (Z.to_nat N) 0
     + (- K) * lattice (fun _ => 1) (exp (- r * (T / IZR N)))
                 (up_weight r sigma (T / IZR N)) (Z.to_nat N) 0).
  - rewrite <- lattice_linear. apply lattice_ext. intros k _. ring.
  - rewrite lattice_node_price;
      [| apply Rgt_not_eq, exp_pos | apply Rgt_not_eq, exp_pos
       | apply risk_neutral; assumption].
    rewrite lattice_const, discount_maturity.
    unfold node_price. rewrite Z2Nat.id by lia. rewrite Z.sub_diag.
    simpl. ring.
Qed.

(** The weight of the move up is a probability when the growth over one
    step lies between the two factors. *)
Lemma up_weight_range :
  0 < sigma ->
  - sigma * sqrt (T / IZR N) <= r * (T / IZR N) <= sigma * sqrt (T / IZR N) ->
  0 <= up_weight r sigma (T / IZR N) <= 1.
Proof.
  intros Hpos [Hlo Hhi].
  pose proof (sqrt_lt_R0 _ step_pos) as Hroot.
  unfold up_weight, up_factor, down_factor.
  set (u := exp (sigma * sqrt (T / IZR N))).
  set (d := exp (- sigma * sqrt (T / IZR N))).
  assert (d < u) as Hdu by (apply exp_increasing; nra).
  assert (d <= exp (r * (T / IZR N))) as H1.
  { destruct Hlo as [Hlo|Hlo]; [left; apply exp_increasing; assumption|].
    unfold d. rewrite Hlo. lra. }
  assert (exp (r * (T / IZR N)) <= u) as H2.
  { destruct Hhi as [Hhi|Hhi]; [left; apply exp_increasing; assumption|].
    unfold u. rewrite Hhi. lra. }
  assert (0 <= / (u - d)) as Hinv
    by (left; apply Rinv_0_lt_compat; lra).
  split.
  - apply Rmult_le_pos; lra.
  - replace ((exp (r * (T / IZR N)) - d) / (u - d))
      with (1 - (u - exp (r * (T / IZR N))) * / (u - d)) by (field; lra).
    assert (0 <= (u - exp (r * (T / IZR N))) * / (u - d))
      by (apply Rmult_le_pos; lra).
    lra.
Qed.

End Tree.

(** X15.  When even the lowest node at maturity is at or above the strike
    ([K <= S0 * d^N], volatility and maturity positive), the tree returns
    the value of the forward contract, [S0 - K * exp(-r*T)], for every
    number of steps. *)
Theorem CRRCall_in_the_money (S0 K r sigma T : R) (N : Z) :
  (1 <= N)%Z -> 0 < T -> 0 < sigma -> 0 <= S0 ->
  K <= S0 * powerRZ (down_factor sigma (T / IZR N)) N ->
  CRRCall S0 K r sigma T N = Ok (Finite (S0 - K * exp (- r * T))).
Proof.
  intros HN HT Hsigma HS HK.
  rewrite CRRCall_tree by (assumption || lra). do 2 f_equal.
  rewrite <- (forward_value S0 K r sigma T N) by (assumption || lra).
  rewrite tree_price_unfold. apply lattice_ext. intros j Hj.
  apply Rmax_left.
  pose proof (step_pos T N HN HT) as Hdt.
  pose proof (sqrt_lt_R0 _ Hdt) as Hroot.
  pose proof (node_price_le S0 sigma (T / IZR N) N 0 j HS) as Hle.
  assert (node_price S0 (up_factor sigma (T / IZR N))
            (down_factor sigma (T / IZR N)) N 0
          = S0 * powerRZ (down_factor sigma (T / IZR N)) N) as E.
  { unfold node_price. rewrite Z.sub_0_r. simpl. ring. }
  rewrite E in Hle.
  assert (0 <= sigma * sqrt (T / IZR N)) by nra.
  specialize (Hle ltac:(assumption) ltac:(lia)). lra.
Qed.

Lemma CRRCall_in_the_money_witness :
  CRRCall 3 1 0 1 1 1 = Ok (Finite (3 - 1 * exp (- (0) * 1))).
Proof.
  apply CRRCall_in_the_money; [lia | lra | lra | lra |].
  rewrite powerRZ_1. unfold down_factor.
  replace (1 / IZR 1) with 1 by (simpl; field).
  rewrite sqrt_1, Rmult_1_r, exp_Ropp.
  pose proof exp_le_3. pose proof (exp_pos 1).
  apply (Rmult_le_reg_r (exp 1)); [assumption|].
  rewrite Rmult_assoc, Rinv_l by lra. lra.
Defined.

(** X16.  When even the highest node at maturity is at or below the strike
    ([S0 * u^N <= K], volatility and maturity positive), the tree returns
    0 for every rate. *)
Theorem CRRCall_out_of_the_money (S0 K r sigma T : R) (N : Z) :
  (1 <= N)%Z -> 0 < T -> 0 < sigma -> 0 <= S0 ->
  S0 * powerRZ (up_factor sigma (T / IZR N)) N <= K ->
  CRRCall S0 K r sigma T N = Ok (Finite 0).
Proof.
  intros HN HT Hsigma HS HK.
  rewrite CRRCall_tree by (assumption || lra). do 2 f_equal.
  rewrite tree_price_unfold.
  rewrite (lattice_ext _ (fun _ => 0)).
  - rewrite lattice_const. ring.
  - intros j Hj. apply Rmax_right.
    pose proof (step_pos T N HN HT) as Hdt.
    pose proof (sqrt_lt_R0 _ Hdt) as Hroot.
    pose proof (node_price_le S0 sigma (T / IZR N) N j N HS) as Hle.
    assert (node_price S0 (up_factor sigma (T / IZR N))
              (down_factor sigma (T / IZR N)) N N
            = S0 * powerRZ (up_factor sigma (T / IZR N)) N) as E.
    { unfold node_price. rewrite Z.sub_diag. simpl. ring. }
    rewrite E in Hle.
    assert (0 <= sigma * sqrt (T / IZR N)) by nra.
    rewrite Z2Nat.id in Hj by lia.
    specialize (Hle ltac:(assumption) ltac:(lia)). lra.
Qed.

Lemma CRRCall_out_of_the_money_witness :
  CRRCall 1 3 0 1 1 1 = Ok (Finite 0).
Proof.
  apply CRRCall_out_of_the_money; [lia | lra | lra | lra |].
  rewrite powerRZ_1. unfold up_factor.
  replace (1 / IZR 1) with 1 by (simpl; field).
  rewrite sqrt_1, !Rmult_1_r, Rmult_1_l. apply exp_le_3.
Defined.

(** X17.  When the weight of the move up is a probability (the growth
    [r * delta_t] of one step lies between [-sigma * sqrt(delta_t)] and
    [sigma * sqrt(delta_t)]), the price returned lies between
    [max(S0 - K * exp(-r*T), 0)] and [S0]. *)
Theorem CRRCall_bounds (S0 K r sigma T : R) (N : Z) :
  (1 <= N)%Z -> 0 < T -> 0 < sigma -> 0 <= S0 -> 0 <= K ->
  - sigma * sqrt (T / IZR N) <= r * (T / IZR N) <= sigma * sqrt (T / IZR N) ->
  exists v, CRRCall S0 K r sigma T N = Ok (Finite v) /\
    Rmax (S0 - K * exp (- r * T)) 0 <= v <= S0.
Proof.
  intros HN HT Hsigma HS HK Hr.
  exists (tree_price S0 K r sigma T N).
  split; [apply CRRCall_tree; assumption || lra|].
  assert (0 <= up_weight r sigma (T / IZR N) <= 1) as Hp
    by (apply up_weight_range; assumption || lra).
  assert (0 <= exp (- r * (T / IZR N))) as Hdisc by (left; apply exp_pos).
  rewrite tree_price_unfold. split.
  - apply Rmax_lub.
    + rewrite <- (forward_value S0 K r sigma T N) by (assumption || lra).
      apply lattice_le; [assumption | assumption |].
      intros k _. apply Rmax_l.
    + replace 0 with (exp (- r * (T / IZR N)) ^ Z.to_nat N * 0) at 1 by ring.
      rewrite <- (lattice_const 0 _ (up_weight r sigma (T / IZR N)) _ 0).
      apply lattice_le; [assumption | assumption |].
      intros k _. apply Rmax_r.
  - transitivity
      (lattice (node_price S0 (up_factor sigma (T / IZR N))
                  (down_factor sigma (T / IZR N)) N)
         (exp (- r * (T / IZR N))) (up_weight r sigma (T / IZR N))
         (Z.to_nat N) 0).
    + apply lattice_le; [assumption | assumption |].
      intros k _. apply Rmax_lub.
      * lra.
      * apply node_price_nonneg. assumption.
    + rewrite lattice_node_price;
        [| apply Rgt_not_eq, exp_pos | apply Rgt_not_eq, exp_pos
         | apply risk_neutral; assumption || lra].
      unfold node_price. rewrite Z2Nat.id by lia. rewrite Z.sub_diag.
      simpl. lra.
Qed.

Lemma CRRCall_bounds_witness :
  exists v, CRRCall 100 100 0 1 1 1 = Ok (Finite v) /\
    Rmax (100 - 100 * exp (- (0) * 1)) 0 <= v <= 100.
Proof.
  apply CRRCall_bounds; [lia | lra | lra | lra | lra |].
  replace (1 / IZR 1) with 1 by (simpl; field).
  rewrite sqrt_1. lra.
Defined.

End CRRValue.

(** ** CRRCall: the tree as an expectation *)

Section CRRBinomial.

Local Open Scope R_scope.

Lemma C_zero (n : nat) : C n 0 = 1.
Proof.
  unfold C. rewrite Nat.sub_0_r. simpl. field. apply INR_fact_neq_0.
Qed.

Lemma C_diag (n : nat) : C n n = 1.
Proof.
  unfold C. rewrite Nat.sub_diag. simpl. field. apply INR_fact_neq_0.
Qed.

(** The weight of [k] moves up out of [m]. *)
Lemma binomial_weight_step (p : R) (m k : nat) :
  (k < m)%nat ->
  C (Datatypes.S m) (Datatypes.S k) * p ^ Datatypes.S k
    * (1 - p) ^ (Datatypes.S m - Datatypes.S k)
  = p * (C m k * p ^ k * (1 - p) ^ (m - k))
    + (1 - p) * (C m (Datatypes.S k) * p ^ Datatypes.S k
                 * (1 - p) ^ (m - Datatypes.S k)).
Proof.
  intros Hk. rewrite <- pascal by assumption.
  replace (Datatypes.S m - Datatypes.S k)%nat with (m - k)%nat by lia.
  replace (m - k)%nat with (Datatypes.S (m - Datatypes.S k)) by lia.
  simpl. ring.
Qed.

Lemma sum_scal_l (x : R) (An : nat -> R) (N : nat) :
  sum_f_R0 (fun i => x * An i) N = x * sum_f_R0 An N.
Proof.
  induction N as [|N IH]; simpl; [reflexivity|]. rewrite IH. ring.
Qed.

Lemma binomial_sum_step (p : R) (g : nat -> R) (m : nat) :
  sum_f_R0 (fun k => C (Datatypes.S m) k * p ^ k
                     * (1 - p) ^ (Datatypes.S m - k) * g k) (Datatypes.S m)
  = p * sum_f_R0 (fun k => C m k * p ^ k * (1 - p) ^ (m - k)
                           * g (Datatypes.S k)) m
    + (1 - p) * sum_f_R0 (fun k => C m k * p ^ k * (1 - p) ^ (m - k) * g k) m.
Proof.
  destruct m as [|m].
  - simpl. rewrite !C_zero, !C_diag. ring.
  - rewrite tech5.
    rewrite (decomp_sum _ (Datatypes.S m)) by lia.
    rewrite (tech5 (fun k => C (Datatypes.S m) k * p ^ k
                     * (1 - p) ^ (Datatypes.S m - k) * g (Datatypes.S k)) m).
    rewrite (decomp_sum
      (fun k => C (Datatypes.S m) k * p ^ k
                * (1 - p) ^ (Datatypes.S m - k) * g k) (Datatypes.S m))
      by lia.
    cbn [pred].
    rewrite (sum_eq
      (fun i => C (Datatypes.S (Datatypes.S m)) (Datatypes.S i)
                * p ^ Datatypes.S i
                * (1 - p) ^ (Datatypes.S (Datatypes.S m) - Datatypes.S i)
                * g (Datatypes.S i))
      (fun i => p * (C (Datatypes.S m) i * p ^ i
                     * (1 - p) ^ (Datatypes.S m - i) * g (Datatypes.S i))
                + (1 - p) * (C (Datatypes.S m) (Datatypes.S i)
                             * p ^ Datatypes.S i
                             * (1 - p) ^ (Datatypes.S m - Datatypes.S i)
                             * g (Datatypes.S i)))).
    + rewrite sum_plus.
      rewrite !sum_scal_l.
      rewrite !C_zero, !C_diag, !Nat.sub_diag, !Nat.sub_0_r.
      simpl. ring.
    + intros i Hi. rewrite binomial_weight_step by lia. ring.
Qed.

Lemma lattice_binomial (f : Z -> R) (disc p : R) (m : nat) (j : Z) :
  lattice f disc p m j
  = disc ^ m
    * sum_f_R0 (fun k => C m k * p ^ k * (1 - p) ^ (m - k)
                         * f (j + Z.of_nat k)%Z) m.
Proof.
  revert j. induction m as [|m IH]; intros j.
  - simpl. rewrite C_zero, Z.add_0_r. ring.
  - cbn [lattice]. rewrite !IH.
    rewrite (binomial_sum_step p (fun k => f (j + Z.of_nat k)%Z) m).
    rewrite (sum_eq
      (fun k => C m k * p ^ k * (1 - p) ^ (m - k)
                * f (j + 1 + Z.of_nat k)%Z)
      (fun k => C m k * p ^ k * (1 - p) ^ (m - k)
                * f (j + Z.of_nat (Datatypes.S k))%Z)).
    + simpl. ring.
    + intros i _. do 2 f_equal. lia.
Qed.

(** X18.  The price returned is the discounted expectation of the payoff
    under the binomial law of the number of moves up:
    [exp(-r*T) * sum_k C(N,k) p^k (1-p)^(N-k) max(S0 u^k d^(N-k) - K, 0)]. *)
Theorem CRRCall_expectation (S0 K r sigma T : R) (N : Z) :
  (1 <= N)%Z -> 0 < T -> sigma <> 0 ->
  let n := Z.to_nat N in
  let u := up_factor sigma (T / IZR N) in
  let d := down_factor sigma (T / IZR N) in
  let p := up_weight r sigma (T / IZR N) in
  CRRCall S0 K r sigma T N
  = Ok (Finite
          (exp (- r * T)
           * sum_f_R0 (fun k => C n k * p ^ k * (1 - p) ^ (n - k)
                                * Rmax (S0 * u ^ k * d ^ (n - k) - K) 0) n)).
Proof.
  intros HN HT Hsigma n u d p.
  rewrite CRRCall_tree by assumption. do 2 f_equal.
  rewrite tree_price_unfold, lattice_binomial.
  rewrite discount_maturity by assumption. f_equal.
  apply sum_eq. intros k Hk. fold n in Hk. fold n. fold p. f_equal.
  unfold node_price. fold u. fold d.
  rewrite Z.add_0_l. rewrite <- pow_powerRZ.
  replace (N - Z.of_nat k)%Z with (Z.of_nat (n - k)) by lia.
  rewrite <- pow_powerRZ. reflexivity.
Qed.

Lemma CRRCall_expectation_witness :
  CRRCall 100 100 0.05 0.2 1 2
  = Ok (Finite
          (exp (- (0.05) * 1)
           * sum_f_R0
               (fun k =>
                  C (Z.to_nat 2) k * up_weight 0.05 0.2 (1 / IZR 2) ^ k
                  * (1 - up_weight 0.05 0.2 (1 / IZR 2)) ^ (Z.to_nat 2 - k)
                  * Rmax (100 * up_factor 0.2 (1 / IZR 2) ^ k
                          * down_factor 0.2 (1 / IZR 2) ^ (Z.to_nat 2 - k)
                          - 100) 0) (Z.to_nat 2))).
Proof.
  apply (CRRCall_expectation 100 100 0.05 0.2 1 2); [lia | lra | lra].
Defined.

End CRRBinomial.

(** ** CRRCall: dependence on the prices *)

Section CRRPrices.

Local Open Scope R_scope.

Lemma node_price_scale (lambda S0 u d : R) (n j : Z) :
  node_price (lambda * S0) u d n j = lambda * node_price S0 u d n j.
Proof. unfold node_price. ring. Qed.

(** X19.  Quoting the asset price and the strike in another unit
    ([lambda >= 0] times both) multiplies the price returned by
    [lambda]. *)
Theorem CRRCall_scale (lambda S0 K r sigma T : R) (N : Z) :
  0 <= lambda -> (1 <= N)%Z -> 0 < T -> sigma <> 0 ->
  exists v,
    CRRCall S0 K r sigma T N = Ok (Finite v) /\
    CRRCall (lambda * S0) (lambda * K) r sigma T N = Ok (Finite (lambda * v)).
Proof.
  intros Hl HN HT Hsigma.
  exists (tree_price S0 K r sigma T N).
  rewrite !CRRCall_tree by assumption. split; [reflexivity|]. do 2 f_equal.
  rewrite !tree_price_unfold.
  transitivity
    (lambda * lattice
       (fun j => Rmax (node_price S0 (up_factor sigma (T / IZR N))
                         (down_factor sigma (T / IZR N)) N j - K) 0)
       (exp (- r * (T / IZR N))) (up_weight r sigma (T / IZR N))
       (Z.to_nat N) 0
     + 0 * lattice (fun _ => 0) (exp (- r * (T / IZR N)))
             (up_weight r sigma (T / IZR N)) (Z.to_nat N) 0); [|ring].
  rewrite <- lattice_linear. apply lattice_ext. intros k _.
  rewrite node_price_scale.
  rewrite <- Rmult_minus_distr_l.
  rewrite <- (Rmult_0_r lambda) at 1.
  rewrite RmaxRmult by assumption. ring.
Qed.

Lemma CRRCall_scale_witness :
  exists v,
    CRRCall 100 100 0.05 0.2 1 3 = Ok (Finite v) /\
    CRRCall (2 * 100) (2 * 100) 0.05 0.2 1 3 = Ok (Finite (2 * v)).
Proof. apply CRRCall_scale; [lra | lia | lra | lra]. Defined.

(** X20.  When the weight of the move up is a probability, the price
    returned does not fall when the initial price rises, does not rise when
    the strike rises, and falls by at most the discounted rise of the
    strike. *)
Theorem CRRCall_price_order (S0 S0' K K' r sigma T : R) (N : Z) :
  (1 <= N)%Z -> 0 < T -> 0 < sigma ->
  - sigma * sqrt (T / IZR N) <= r * (T / IZR N) <= sigma * sqrt (T / IZR N) ->
  S0 <= S0' -> K <= K' ->
  exists v vS vK,
    CRRCall S0 K r sigma T N = Ok (Finite v) /\
    CRRCall S0' K r sigma T N = Ok (Finite vS) /\
    CRRCall S0 K' r sigma T N = Ok (Finite vK) /\
    v <= vS /\ vK <= v <= vK + (K' - K) * exp (- r * T).
Proof.
  intros HN HT Hsigma Hr HS HK.
  exists (tree_price S0 K r sigma T N), (tree_price S0' K r sigma T N),
    (tree_price S0 K' r sigma T N).
  rewrite !CRRCall_tree by (assumption || lra).
  do 3 (split; [reflexivity|]).
  assert (0 <= up_weight r sigma (T / IZR N) <= 1) as Hp
    by (apply up_weight_range; assumption || lra).
  assert (0 <= exp (- r * (T / IZR N))) as Hdisc by (left; apply exp_pos).
  rewrite !tree_price_unfold.
  assert (forall k,
    node_price S0 (up_factor sigma (T / IZR N))
      (down_factor sigma (T / IZR N)) N k
    <= node_price S0' (up_factor sigma (T / IZR N))
         (down_factor sigma (T / IZR N)) N k) as Hnode.
  { intros k. rewrite !node_price_exp.
    apply Rmult_le_compat_r; [left; apply exp_pos | assumption]. }
  split; [|split].
  - apply lattice_le; [assumption | assumption |]. intros k _.
    specialize (Hnode k).
    apply Rmax_lub; [|apply Rmax_r].
    eapply Rle_trans; [|apply Rmax_l]. lra.
  - apply lattice_le; [assumption | assumption |]. intros k _.
    apply Rmax_lub; [|apply Rmax_r].
    eapply Rle_trans; [|apply Rmax_l]. lra.
  - pose proof (lattice_linear
      (fun j => Rmax (node_price S0 (up_factor sigma (T / IZR N))
                        (down_factor sigma (T / IZR N)) N j - K') 0)
      (fun _ => K' - K) 1 1 (exp (- r * (T / IZR N)))
      (up_weight r sigma (T / IZR N)) (Z.to_nat N) 0) as Hlin.
    rewrite lattice_const, discount_maturity in Hlin by assumption.
    rewrite !Rmult_1_l in Hlin. rewrite (Rmult_comm (exp (- r * T))) in Hlin.
    rewrite <- Hlin.
    apply lattice_le; [assumption | assumption |]. intros k _.
    rewrite !Rmult_1_l.
    apply Rmax_lub.
    + pose proof (Rmax_l (node_price S0 (up_factor sigma (T / IZR N))
                            (down_factor sigma (T / IZR N)) N k - K') 0).
      lra.
    + pose proof (Rmax_r (node_price S0 (up_factor sigma (T / IZR N))
                            (down_factor sigma (T / IZR N)) N k - K') 0).
      lra.
Qed.

Lemma CRRCall_price_order_witness :
  exists v vS vK,
    CRRCall 100 100 0 1 1 1 = Ok (Finite v) /\
    CRRCall 110 100 0 1 1 1 = Ok (Finite vS) /\
    CRRCall 100 105 0 1 1 1 = Ok (Finite vK) /\
    v <= vS /\ vK <= v <= vK + (105 - 100) * exp (- (0) * 1).
Proof.
  apply CRRCall_price_order; [lia | lra | lra | | lra | lra].
  replace (1 / IZR 1) with 1 by (simpl; field).
  rewrite sqrt_1. lra.
Defined.

End CRRPrices.

(** ** BlackScholesCall *)

Section BlackScholes.

Local Open Scope R_scope.

Variable Phi : R -> R.

Lemma d1_ok (S0 K r sigma T : R) :
  K <> 0 ->
  d1 S0 K r sigma T
  = Ok (np_div
          (np_add (np_log (Finite (S0 / K)))
             (Finite ((r + sigma ^ 2 / 2) * T)))
          (np_mul (Finite sigma) (np_sqrt (Finite T)))).
Proof.
  intros HK. unfold d1, py_truediv.
  destruct (Req_dec_T K 0); [contradiction | reflexivity].
Qed.

Lemma norm_cdf_cases (a : npfloat) :
  norm_cdf Phi a = NaN \/ exists x, norm_cdf Phi a = Finite x.
Proof. destruct a; simpl; eauto. Qed.

(** X22.  Quoting the asset price and the strike in another unit
    ([lambda > 0] times both) multiplies the price returned by [lambda],
    whatever the distribution function is. *)
Theorem BlackScholesCall_scale (lambda S0 K r sigma T : R) :
  0 < lambda -> K <> 0 ->
  exists v,
    BlackScholesCall Phi S0 K r sigma T = Ok v /\
    BlackScholesCall Phi (lambda * S0) (lambda * K) r sigma T
    = Ok (np_mul (Finite lambda) v).
Proof.
  intros Hl HK.
  assert (lambda * K <> 0) as HK' by (apply Rmult_integral_contrapositive; lra).
  unfold BlackScholesCall, d2. rewrite !d1_ok by assumption. cbn [bind].
  replace (lambda * S0 / (lambda * K)) with (S0 / K) by (field; lra).
  eexists. split; [reflexivity|]. f_equal.
  destruct (norm_cdf_cases
    (np_div (np_add (np_log (Finite (S0 / K)))
               (Finite ((r + sigma ^ 2 / 2) * T)))
       (np_mul (Finite sigma) (np_sqrt (Finite T)))))
    as [-> | [x ->]];
  destruct (norm_cdf_cases
    (np_sub
       (np_div (np_add (np_log (Finite (S0 / K)))
                  (Finite ((r + sigma ^ 2 / 2) * T)))
          (np_mul (Finite sigma) (np_sqrt (Finite T))))
       (np_mul (Finite sigma) (np_sqrt (Finite T)))))
    as [-> | [y ->]]; simpl; try reflexivity.
  f_equal. ring.
Qed.

(** The sign of the numerator of [d1] when the divisor is zero. *)
Lemma forward_moneyness (S0 K r T : R) :
  0 < S0 -> 0 < K ->
  (0 < ln (S0 / K) + r * T <-> K * exp (- r * T) < S0) /\
  (ln (S0 / K) + r * T < 0 <-> S0 < K * exp (- r * T)).
Proof.
  intros HS HK.
  assert (0 < S0 / K) as Hq by (apply Rdiv_lt_0_compat; assumption).
  assert (K * (S0 / K) = S0) as HS0 by (field; lra).
  pose proof (exp_ln _ Hq) as Hexp.
  pose proof (exp_pos (- r * T)) as He.
  split; split; intros H.
  - assert (exp (- r * T) < exp (ln (S0 / K))) as Hlt
      by (apply exp_increasing; lra).
    rewrite Hexp in Hlt. nra.
  - assert (exp (- r * T) < exp (ln (S0 / K))) as Hlt
      by (rewrite Hexp; nra).
    apply exp_lt_inv in Hlt. lra.
  - assert (exp (ln (S0 / K)) < exp (- r * T)) as Hlt
      by (apply exp_increasing; lra).
    rewrite Hexp in Hlt. nra.
  - assert (exp (ln (S0 / K)) < exp (- r * T)) as Hlt
      by (rewrite Hexp; nra).
    apply exp_lt_inv in Hlt. lra.
Qed.

(** X23.  With a zero volatility or a zero maturity (neither negative,
    prices positive) the formula divides by zero without raising: the call
    returns [S0 - K * exp(-r*T)] when that is positive, 0 when it is
    negative and [nan] when it is zero, whatever the distribution function
    is. *)
Theorem BlackScholesCall_degenerate (S0 K r sigma T : R) :
  0 < S0 -> 0 < K -> 0 <= sigma -> 0 <= T -> sigma = 0 \/ T = 0 ->
  BlackScholesCall Phi S0 K r sigma T
  = Ok (if Rlt_dec (K * exp (- r * T)) S0
        then Finite (S0 - K * exp (- r * T))
        else if Rlt_dec S0 (K * exp (- r * T)) then Finite 0 else NaN).
Proof.
  intros HS HK Hsigma HT Hdeg.
  unfold BlackScholesCall, d2. rewrite !d1_ok by lra. cbn [bind].
  assert (0 < S0 / K) as Hq by (apply Rdiv_lt_0_compat; assumption).
  unfold np_log. destruct (Rlt_dec 0 (S0 / K)); [|contradiction].
  unfold np_sqrt. destruct (Rlt_dec T 0); [lra|].
  cbn [np_mul np_add]. unfold np_div.
  assert (sigma * sqrt T = 0) as Hzero.
  { destruct Hdeg as [-> | ->]; [|rewrite sqrt_0]; ring. }
  rewrite Hzero. destruct (Req_dec_T 0 0) as [_|E]; [|contradiction].
  replace (ln (S0 / K) + (r + sigma ^ 2 / 2) * T)
    with (ln (S0 / K) + r * T)
    by (destruct Hdeg as [-> | ->]; field).
  destruct (forward_moneyness S0 K r T HS HK) as [Hin Hout].
  destruct (Rlt_dec (K * exp (- r * T)) S0) as [H1|H1].
  - apply Hin in H1.
    destruct (Req_dec_T (ln (S0 / K) + r * T) 0); [lra|].
    destruct (Rlt_dec 0 (ln (S0 / K) + r * T)); [|contradiction].
    simpl. do 2 f_equal. ring.
  - destruct (Rlt_dec S0 (K * exp (- r * T))) as [H2|H2].
    + apply Hout in H2.
      destruct (Req_dec_T (ln (S0 / K) + r * T) 0); [lra|].
      destruct (Rlt_dec 0 (ln (S0 / K) + r * T)); [lra|].
      simpl. do 2 f_equal. ring.
    + destruct (Req_dec_T (ln (S0 / K) + r * T) 0) as [_|Hne];
        [reflexivity|].
      destruct (Rlt_dec 0 (ln (S0 / K) + r * T)) as [H3|H3].
      * apply Hin in H3. contradiction.
      * assert (ln (S0 / K) + r * T < 0) as H4 by lra.
        apply Hout in H4. contradiction.
Qed.

End BlackScholes.

Section BlackScholesWitnesses.

Local Open Scope R_scope.

Lemma BlackScholesCall_scale_witness :
  exists v,
    BlackScholesCall (fun _ => 1 / 2) 100 100 0.05 0.2 1 = Ok v /\
    BlackScholesCall (fun _ => 1 / 2) (2 * 100) (2 * 100) 0.05 0.2 1
    = Ok (np_mul (Finite 2) v).
Proof. apply BlackScholesCall_scale; lra. Defined.

Lemma BlackScholesCall_degenerate_witness :
  BlackScholesCall (fun _ => 1 / 2) 110 100 0.05 0.2 0
  = Ok (if Rlt_dec (100 * exp (- (0.05) * 0)) 110
        then Finite (110 - 100 * exp (- (0.05) * 0))
        else if Rlt_dec 110 (100 * exp (- (0.05) * 0)) then Finite 0
        else NaN).
Proof.
  apply BlackScholesCall_degenerate; [lra | lra | lra | lra | right; lra].
Defined.

End BlackScholesWitnesses.

(** ** CRRCall: dependence on sigma *)

Section CRRSigma.

Local Open Scope R_scope.

(** The lattice holds the values of [tree_value] at the prices of its
    nodes. *)
Lemma lattice_tree_value (S0 K u d disc p : R) (n : Z) (m : nat) (j : Z) :
  u <> 0 -> d <> 0 ->
  lattice (fun k => Rmax (node_price S0 u d n k - K) 0) disc p m j
  = tree_value K disc p u d m (node_price S0 u d (n - Z.of_nat m) j).
Proof.
  intros Hu Hd. revert j. induction m as [|m IH]; intros j.
  - simpl. rewrite Z.sub_0_r. reflexivity.
  - cbn [lattice tree_value]. rewrite !IH.
    assert (node_price S0 u d (n - Z.of_nat m) (j + 1)
            = u * node_price S0 u d (n - Z.of_nat (Datatypes.S m)) j) as Eu.
    { unfold node_price.
      replace (n - Z.of_nat m - (j + 1))%Z
        with (n - Z.of_nat (Datatypes.S m) - j)%Z by lia.
      rewrite powerRZ_add by assumption. rewrite powerRZ_1. ring. }
    assert (node_price S0 u d (n - Z.of_nat m) j
            = d * node_price S0 u d (n - Z.of_nat (Datatypes.S m)) j) as Ed.
    { unfold node_price.
      replace (n - Z.of_nat m - j)%Z
        with ((n - Z.of_nat (Datatypes.S m) - j) + 1)%Z by lia.
      rewrite powerRZ_add by assumption. rewrite powerRZ_1. ring. }
    rewrite Eu, Ed. reflexivity.
Qed.

Lemma payoff_is_convex (K : R) : convex (fun x => Rmax (x - K) 0).
Proof.
  intros x y t Ht. unfold Rmax.
  destruct (Rle_dec (t * x + (1 - t) * y - K) 0),
    (Rle_dec (x - K) 0), (Rle_dec (y - K) 0); nra.
Qed.

(** With a weight that is a probability the value is convex in the asset
    price at every step. *)
Lemma tree_value_convex (K disc p u d : R) (m : nat) :
  0 <= disc -> 0 <= p <= 1 -> convex (tree_value K disc p u d m).
Proof.
  intros Hdisc Hp. induction m as [|m IH]; [apply payoff_is_convex|].
  intros x y t Ht. cbn [tree_value].
  pose proof (IH (u * x) (u * y) t Ht) as Hu.
  pose proof (IH (d * x) (d * y) t Ht) as Hd.
  replace (u * (t * x + (1 - t) * y)) with (t * (u * x) + (1 - t) * (u * y))
    by ring.
  replace (d * (t * x + (1 - t) * y)) with (t * (d * x) + (1 - t) * (d * y))
    by ring.
  set (fu := tree_value K disc p u d m (t * (u * x) + (1 - t) * (u * y))) in *.
  set (fd := tree_value K disc p u d m (t * (d * x) + (1 - t) * (d * y))) in *.
  set (a := tree_value K disc p u d m (u * x)) in *.
  set (b := tree_value K disc p u d m (u * y)) in *.
  set (a' := tree_value K disc p u d m (d * x)) in *.
  set (b' := tree_value K disc p u d m (d * y)) in *.
  assert (p * fu + (1 - p) * fd
          <= p * (t * a + (1 - t) * b) + (1 - p) * (t * a' + (1 - t) * b'))
    as H by (apply Rplus_le_compat; apply Rmult_le_compat_l; lra).
  apply (Rmult_le_compat_l disc) in H; [|assumption]. lra.
Qed.

(** A convex function lies below its chord, here between the multiples
    [lo * x] and [hi * x] of a point. *)
Lemma convex_chord (f : R -> R) (lo hi z x : R) :
  convex f -> lo < hi -> lo <= z <= hi ->
  f (z * x)
  <= (z - lo) / (hi - lo) * f (hi * x) + (hi - z) / (hi - lo) * f (lo * x).
Proof.
  intros Hf Hlh Hz.
  pose proof (Hf (hi * x) (lo * x) ((z - lo) / (hi - lo))) as H.
  assert (0 < / (hi - lo)) as Hinv by (apply Rinv_0_lt_compat; lra).
  assert (0 <= (z - lo) / (hi - lo) <= 1) as Ht.
  { split; [apply Rmult_le_pos; lra|].
    apply (Rmult_le_reg_r (hi - lo)); [lra|].
    unfold Rdiv. rewrite Rmult_assoc, Rinv_l by lra. lra. }
  specialize (H Ht).
  replace ((z - lo) / (hi - lo) * (hi * x)
           + (1 - (z - lo) / (hi - lo)) * (lo * x))
    with (z * x) in H by (field; lra).
  replace (1 - (z - lo) / (hi - lo)) with ((hi - z) / (hi - lo)) in H
    by (field; lra).
  exact H.
Qed.

(** Moving the two factors apart, with the same mean, does not lower the
    value: the step with the wider factors is a mean-preserving spread of
    the other one. *)
Lemma tree_value_spread (K disc p1 u1 d1 p2 u2 d2 : R) (m : nat) (x : R) :
  0 <= disc -> 0 <= p1 <= 1 ->
  d2 <= d1 -> d1 <= u1 -> u1 <= u2 -> d2 < u2 ->
  p1 * u1 + (1 - p1) * d1 = p2 * u2 + (1 - p2) * d2 ->
  tree_value K disc p1 u1 d1 m x <= tree_value K disc p2 u2 d2 m x.
Proof.
  intros Hdisc Hp1 Hd Hdu Hu Hdu2 Hmean. revert x.
  assert (0 <= p2 <= 1) as Hp2.
  { assert (0 <= p1 * (u1 - d1) <= u1 - d1) as Hm by (split; nra).
    assert (0 < / (u2 - d2)) as Hinv by (apply Rinv_0_lt_compat; lra).
    replace p2 with ((p1 * u1 + (1 - p1) * d1 - d2) / (u2 - d2))
      by (rewrite Hmean; field; lra).
    split; [apply Rmult_le_pos; lra|].
    apply (Rmult_le_reg_r (u2 - d2)); [lra|].
    unfold Rdiv. rewrite Rmult_assoc, Rinv_l by lra. lra. }
  induction m as [|m IH]; intros x; [apply Rle_refl|].
  cbn [tree_value]. apply Rmult_le_compat_l; [assumption|].
  pose proof (tree_value_convex K disc p1 u1 d1 m Hdisc Hp1) as Hconv.
  pose proof (convex_chord _ d2 u2 u1 x Hconv Hdu2 ltac:(lra)) as Hcu.
  pose proof (convex_chord _ d2 u2 d1 x Hconv Hdu2 ltac:(lra)) as Hcd.
  pose proof (IH (u2 * x)) as HA. pose proof (IH (d2 * x)) as HB.
  set (A := tree_value K disc p1 u1 d1 m (u2 * x)) in *.
  set (B := tree_value K disc p1 u1 d1 m (d2 * x)) in *.
  set (fu := tree_value K disc p1 u1 d1 m (u1 * x)) in *.
  set (fd := tree_value K disc p1 u1 d1 m (d1 * x)) in *.
  assert (p1 * fu + (1 - p1) * fd <= p2 * A + (1 - p2) * B) as Hmix.
  { assert (p1 * fu <= p1 * ((u1 - d2) / (u2 - d2) * A
                             + (u2 - u1) / (u2 - d2) * B)) as H1
      by (apply Rmult_le_compat_l; lra).
    assert ((1 - p1) * fd <= (1 - p1) * ((d1 - d2) / (u2 - d2) * A
                                         + (u2 - d1) / (u2 - d2) * B)) as H2
      by (apply Rmult_le_compat_l; lra).
    replace (p2 * A + (1 - p2) * B)
      with (p1 * ((u1 - d2) / (u2 - d2) * A + (u2 - u1) / (u2 - d2) * B)
            + (1 - p1) * ((d1 - d2) / (u2 - d2) * A
                          + (u2 - d1) / (u2 - d2) * B)); [lra|].
    replace p2 with ((p1 * u1 + (1 - p1) * d1 - d2) / (u2 - d2))
      by (rewrite Hmean; field; lra).
    field. lra. }
  assert (p2 * A <= p2 * tree_value K disc p2 u2 d2 m (u2 * x)) as H1
    by (apply Rmult_le_compat_l; lra).
  assert ((1 - p2) * B
          <= (1 - p2) * tree_value K disc p2 u2 d2 m (d2 * x)) as H2
    by (apply Rmult_le_compat_l; lra).
  lra.
Qed.

(** The tree of the larger volatility is not below the other one when the
    growth [exp(r*dt)] of one step lies between the factors of the smaller
    volatility. *)
Lemma tree_price_sigma_order (S0 K r sigma1 sigma2 T : R) (N : Z) :
  (1 <= N)%Z -> 0 < T -> 0 < sigma1 -> sigma1 <= sigma2 ->
  - sigma1 * sqrt (T / IZR N) <= r * (T / IZR N)
    <= sigma1 * sqrt (T / IZR N) ->
  tree_price S0 K r sigma1 T N <= tree_price S0 K r sigma2 T N.
Proof.
  intros HN HT Hs1 Hs12 Hr.
  pose proof (step_pos T N HN HT) as Hdt.
  pose proof (sqrt_lt_R0 _ Hdt) as Hroot.
  rewrite !tree_price_unfold.
  rewrite !lattice_tree_value by (apply Rgt_not_eq, exp_pos).
  rewrite Z2Nat.id by lia. rewrite Z.sub_diag.
  unfold node_price. cbn [powerRZ].
  replace (S0 * 1 * 1) with S0 by ring.
  assert (forall a b, a <= b -> exp a <= exp b) as Hexp.
  { intros a b [H|H]; [left; apply exp_increasing; assumption|].
    rewrite H. apply Rle_refl. }
  apply tree_value_spread.
  - left. apply exp_pos.
  - apply (up_weight_range r sigma1 T N HN HT Hs1 Hr).
  - apply Hexp. nra.
  - apply Hexp. nra.
  - apply Hexp. nra.
  - apply exp_increasing. nra.
  - pose proof (risk_neutral r sigma1 T N HN HT ltac:(lra)) as H1.
    pose proof (risk_neutral r sigma2 T N HN HT ltac:(lra)) as H2.
    pose proof (exp_pos (- r * (T / IZR N))) as Hd.
    apply (Rmult_eq_reg_l (exp (- r * (T / IZR N)))); lra.
Qed.

(** One step, S0 = 1, K = 0.7, r = 1, T = 1: at sigma = 1/4 both nodes
    are above the strike and the price is that of the forward contract;
    at sigma = 1/2 the growth [exp(r)] exceeds the factor of the move up,
    the weight of the move up exceeds 1, the lower node is below the
    strike, and the price is lower. *)
Lemma CRRCall_sigma_falls :
  exists v1 v2,
    CRRCall 1 (7/10) 1 (1/4) 1 1 = Ok (Finite v1) /\
    CRRCall 1 (7/10) 1 (1/2) 1 1 = Ok (Finite v2) /\
    v2 < v1.
Proof.
  exists (tree_price 1 (7/10) 1 (1/4) 1 1), (tree_price 1 (7/10) 1 (1/2) 1 1).
  split; [apply CRRCall_tree; [lia | lra | lra]|].
  split; [apply CRRCall_tree; [lia | lra | lra]|].
  pose proof (risk_neutral 1 (1/4) 1 1 ltac:(lia) ltac:(lra) ltac:(lra)) as R1.
  pose proof (risk_neutral 1 (1/2) 1 1 ltac:(lia) ltac:(lra) ltac:(lra)) as R2.
  rewrite !tree_price_unfold. change (Z.to_nat 1) with 1%nat.
  cbn [lattice]. unfold node_price. cbn [powerRZ Z.add Z.sub Z.opp Z.pos_sub].
  revert R1 R2. unfold up_weight.
  replace (1 / IZR 1) with 1 by (simpl; field).
  unfold up_factor, down_factor. rewrite sqrt_1, !Rmult_1_r.
  set (u1 := exp (1/4)). set (d1 := exp (- (1/4))).
  set (u2 := exp (1/2)). set (d2 := exp (- (1/2))).
  set (g := exp 1). set (disc := exp (- (1))).
  intros R1 R2.
  assert (0 < disc) as Hdisc by apply exp_pos.
  assert (3/4 <= d1) as Hd1.
  { left. pose proof (exp_ineq1 (- (1/4)) ltac:(lra)). unfold d1. lra. }
  assert (d1 < u1) as Hdu1 by (apply exp_increasing; lra).
  assert (3/2 <= u2) as Hu2.
  { left. pose proof (exp_ineq1 (1/2) ltac:(lra)). unfold u2. lra. }
  assert (d2 * u2 = 1) as Hinv.
  { unfold d2, u2. rewrite <- exp_plus.
    replace (- (1/2) + 1/2) with 0 by lra. apply exp_0. }
  assert (0 < d2) as Hd2pos by apply exp_pos.
  assert (d2 <= 2/3) as Hd2 by nra.
  assert (u2 < g) as Hug by (apply exp_increasing; lra).
  assert (1 < (g - d2) / (u2 - d2)) as Hp2.
  { apply (Rmult_lt_reg_r (u2 - d2)); [lra|].
    unfold Rdiv. rewrite Rmult_assoc, Rinv_l by lra. lra. }
  set (p1 := (g - d1) / (u1 - d1)) in *.
  set (p2 := (g - d2) / (u2 - d2)) in *.
  change (0 + 1)%Z with 1%Z. change (1 - 0)%Z with 1%Z.
  rewrite !powerRZ_1, !Rmult_1_l.
  rewrite (Rmax_left (u1 - 7/10) 0) by lra.
  rewrite (Rmax_left (d1 - 7/10) 0) by lra.
  rewrite (Rmax_left (u2 - 7/10) 0) by lra.
  rewrite (Rmax_right (d2 - 7/10) 0) by lra.
  apply Rmult_lt_compat_l; [assumption|].
  assert (0 < (p2 - 1) * (7/10 - d2)) as Hgap
    by (apply Rmult_lt_0_compat; lra).
  assert (p1 * u1 + (1 - p1) * d1 = p2 * u2 + (1 - p2) * d2) as Hmean
    by (apply (Rmult_eq_reg_l disc); lra).
  lra.
Qed.

End CRRSigma.

(** ** MCCall: dependence on sigma *)

Section MonteCarloSigma.

Local Open Scope R_scope.

(** The discounted payoff of a draw [w] does not fall from [sigma1] to
    [sigma2] when [w] is at least [(sigma1 + sigma2) * T / 2]: the price at
    maturity [S0 * exp((r - sigma^2/2)*T + sigma*w)] does not. *)
Lemma discounted_payoff_sigma (S0 K r sigma1 sigma2 T w : R) :
  0 <= S0 -> sigma1 <= sigma2 -> (sigma1 + sigma2) * T / 2 <= w ->
  discounted_payoff_of S0 K r sigma1 T w
  <= discounted_payoff_of S0 K r sigma2 T w.
Proof.
  intros HS Hs Hw. unfold discounted_payoff_of.
  apply Rmult_le_compat_l; [left; apply exp_pos|].
  apply Rle_max_compat_r. apply Rplus_le_compat_r.
  apply Rmult_le_compat_l; [assumption|].
  assert ((r - sigma1 ^ 2 / 2) * T + sigma1 * w
          <= (r - sigma2 ^ 2 / 2) * T + sigma2 * w) as [H|H] by nra.
  - left. apply exp_increasing. assumption.
  - rewrite H. apply Rle_refl.
Qed.

Lemma total_le_on (f g : R -> R) (ws : list R) (P : R -> Prop) :
  Forall P ws -> (forall w, P w -> f w <= g w) ->
  total (map f ws) <= total (map g ws).
Proof.
  intros Hws H. unfold total.
  induction Hws as [|w ws Hw _ IH]; simpl; [lra|].
  specialize (H w Hw). lra.
Qed.

Lemma MCCall_sigma_order (S0 K r sigma1 sigma2 T : R) (n : Z)
  (Weiner : list R) :
  0 <= T -> (1 <= n)%Z -> length Weiner = Z.to_nat n ->
  0 <= S0 -> sigma1 <= sigma2 ->
  Forall (fun w => (sigma1 + sigma2) * T / 2 <= w) Weiner ->
  exists out1 out2,
    MCCall S0 K r sigma1 T n Weiner = Ok out1 /\
    MCCall S0 K r sigma2 T n Weiner = Ok out2 /\
    returned out1 <= returned out2.
Proof.
  intros HT Hn Hlen HS Hs Hws.
  rewrite !MCCall_value by assumption.
  eexists. eexists. split; [reflexivity|]. split; [reflexivity|].
  cbn [returned]. unfold arithmetic_mean. rewrite !length_map.
  apply Rmult_le_compat_r.
  - left. apply Rinv_0_lt_compat. rewrite Hlen. apply lt_0_INR. lia.
  - apply (total_le_on _ _ _ _ Hws). intros w Hw.
    apply discounted_payoff_sigma; assumption.
Qed.

End MonteCarloSigma.

(** ** BlackScholesCall: dependence on sigma *)

Section BlackScholesSigma.

Local Open Scope R_scope.

Lemma gauss_density_continuous : continuity gauss_density.
Proof. unfold gauss_density. reg. Qed.

Lemma gauss_density_pos (x : R) : 0 < gauss_density x.
Proof.
  unfold gauss_density. apply Rdiv_lt_0_compat; [apply exp_pos|].
  apply sqrt_lt_R0. pose proof PI_RGT_0. lra.
Qed.

(** The integral of the density from 0 is an antiderivative of the density
    on the whole line. *)
Lemma std_normal_cdf_derivative (x : R) :
  derivable_pt_lim std_normal_cdf x (gauss_density x).
Proof.
  assert (x - 1 <= x + 1) as h by lra.
  assert (forall y, x - 1 <= y <= x + 1 -> continuity_pt gauss_density y)
    as C0 by (intros y _; apply gauss_density_continuous).
  pose proof (RiemannInt_P27 (f := gauss_density) (x := x) h C0 ltac:(lra))
    as HP.
  set (P := primitive h (FTC_P1 h C0)) in *.
  set (c := 1 / 2 + RiemannInt (gauss_integrable 0 (x - 1))).
  apply (derivable_pt_lim_locally_ext (fun y => c + P y) std_normal_cdf
           x (x - 1) (x + 1)); [lra | |].
  - intros y Hy. unfold std_normal_cdf, c, P, primitive.
    destruct (Rle_dec (x - 1) y) as [H1|H1]; [|lra].
    destruct (Rle_dec y (x + 1)) as [H2|H2]; [|lra].
    rewrite Rplus_assoc. f_equal.
    apply RiemannInt_P26.
  - replace (gauss_density x) with (0 + gauss_density x) by ring.
    apply (derivable_pt_lim_plus (fun _ => c) P).
    + apply derivable_pt_lim_const.
    + exact HP.
Qed.

(** The call on positive prices, volatility and maturity returns the value
    of the formula. *)
Lemma BlackScholesCall_value (Phi : R -> R) (S0 K r sigma T : R) :
  0 < S0 -> 0 < K -> 0 < sigma -> 0 < T ->
  BlackScholesCall Phi S0 K r sigma T
  = Ok (Finite (black_scholes_value Phi S0 K r sigma T)).
Proof.
  intros HS HK Hs HT.
  assert (0 < S0 / K) as Hq by (apply Rdiv_lt_0_compat; assumption).
  pose proof (sqrt_lt_R0 T HT) as Hroot.
  assert (sigma * sqrt T <> 0) as Hden by nra.
  unfold BlackScholesCall, d2. rewrite d1_ok by lra. cbn [bind].
  unfold np_log, np_sqrt.
  destruct (Rlt_dec 0 (S0 / K)) as [_|H]; [|contradiction].
  destruct (Rlt_dec T 0) as [H|_]; [lra|].
  cbn [np_add np_mul np_div].
  destruct (Req_dec_T (sigma * sqrt T) 0) as [H|_]; [contradiction|].
  cbn [np_sub np_neg np_add norm_cdf np_mul].
  unfold black_scholes_value, d1_value. repeat f_equal; ring.
Qed.

Section Vega.

Variables (Phi : R -> R) (S0 K r T : R).

Hypothesis HPhi : forall x, derivable_pt_lim Phi x (gauss_density x).
Hypothesis HS : 0 < S0.
Hypothesis HK : 0 < K.
Hypothesis HT : 0 < T.

Lemma d1_value_derivative (sigma : R) :
  0 < sigma ->
  derivable_pt_lim (fun s => d1_value S0 K r s T) sigma
    (sqrt T - d1_value S0 K r sigma T / sigma).
Proof.
  intros Hs. pose proof (sqrt_lt_R0 T HT) as Hroot.
  pose proof (sqrt_sqrt T ltac:(lra)) as Hsq.
  assert (derivable_pt_lim
            (fct_cte (ln (S0 / K) + r * T) + mult_real_fct (T / 2) Rsqr)%F
            sigma (0 + T / 2 * (2 * sigma))) as Hnum.
  { apply derivable_pt_lim_plus; [apply derivable_pt_lim_const|].
    apply derivable_pt_lim_scal, derivable_pt_lim_Rsqr. }
  assert (derivable_pt_lim (mult_real_fct (sqrt T) id) sigma (sqrt T * 1))
    as Hden by (apply derivable_pt_lim_scal, derivable_pt_lim_id).
  pose proof (derivable_pt_lim_div _ _ _ _ _ Hnum Hden) as Hdiv.
  specialize (Hdiv ltac:(unfold mult_real_fct, id; nra)).
  apply (derivable_pt_lim_ext _ (fun s => d1_value S0 K r s T)) in Hdiv.
  - replace (sqrt T - d1_value S0 K r sigma T / sigma)
      with ((((0 + T / 2 * (2 * sigma)) * mult_real_fct (sqrt T) id sigma
             - sqrt T * 1
               * (fct_cte (ln (S0 / K) + r * T)
                  + mult_real_fct (T / 2) Rsqr)%F sigma)
            / (mult_real_fct (sqrt T) id sigma)²)); [exact Hdiv|].
    unfold d1_value, mult_real_fct, id, fct_cte, plus_fct, Rsqr.
    set (q := sqrt T) in *. rewrite <- Hsq. field. lra.
  - intros s. unfold d1_value, div_fct, mult_real_fct, id, fct_cte, plus_fct,
      Rsqr. destruct (Req_dec s 0) as [->|Hs0].
    + rewrite !Rmult_0_r, !Rmult_0_l. unfold Rdiv. rewrite Rinv_0. ring.
    + field. lra.
Qed.

(** [S0 * phi(d1) = K * exp(-r*T) * phi(d2)] *)
Lemma density_identity (sigma : R) :
  0 < sigma ->
  S0 * gauss_density (d1_value S0 K r sigma T)
  = K * exp (- r * T)
    * gauss_density (d1_value S0 K r sigma T - sigma * sqrt T).
Proof.
  intros Hs. pose proof (sqrt_lt_R0 T HT) as Hroot.
  pose proof (sqrt_sqrt T ltac:(lra)) as Hsq.
  assert (0 < S0 / K) as Hq by (apply Rdiv_lt_0_compat; assumption).
  unfold gauss_density.
  set (d := d1_value S0 K r sigma T).
  assert (- d ^ 2 / 2
          = - (d - sigma * sqrt T) ^ 2 / 2 + (- ln (S0 / K) + - r * T)) as E.
  { assert (d * (sigma * sqrt T) = ln (S0 / K) + (r + sigma ^ 2 / 2) * T) as Ed
      by (unfold d, d1_value; field; lra).
    replace (- (d - sigma * sqrt T) ^ 2 / 2)
      with (- d ^ 2 / 2 + d * (sigma * sqrt T)
            - sigma ^ 2 * (sqrt T * sqrt T) / 2) by field.
    rewrite Ed, Hsq. field. }
  rewrite E, !exp_plus, exp_Ropp, exp_ln by assumption.
  assert (0 < sqrt (2 * PI)) as Hc
    by (apply sqrt_lt_R0; pose proof PI_RGT_0; lra).
  field. lra.
Qed.

(** The derivative of the price in sigma is [K*exp(-r*T)*phi(d2)*sqrt T]. *)
Lemma black_scholes_vega (sigma : R) :
  0 < sigma ->
  derivable_pt_lim (fun s => black_scholes_value Phi S0 K r s T) sigma
    (K * exp (- r * T)
     * gauss_density (d1_value S0 K r sigma T - sigma * sqrt T) * sqrt T).
Proof.
  intros Hs.
  pose proof (d1_value_derivative sigma Hs) as H1.
  set (D := sqrt T - d1_value S0 K r sigma T / sigma) in *.
  assert (derivable_pt_lim
            (fun s => d1_value S0 K r s T - s * sqrt T) sigma (D - sqrt T))
    as H2.
  { apply (derivable_pt_lim_minus (fun s => d1_value S0 K r s T)
             (fun s => s * sqrt T)); [assumption|].
    apply (derivable_pt_lim_ext (mult_real_fct (sqrt T) id)).
    - intros s. unfold mult_real_fct, id. ring.
    - replace (sqrt T) with (sqrt T * 1) at 2 by ring.
      apply derivable_pt_lim_scal, derivable_pt_lim_id. }
  pose proof (derivable_pt_lim_comp _ Phi _ _ _ H1
                (HPhi (d1_value S0 K r sigma T))) as C1.
  pose proof (derivable_pt_lim_comp _ Phi _ _ _ H2
                (HPhi (d1_value S0 K r sigma T - sigma * sqrt T))) as C2.
  pose proof (derivable_pt_lim_scal _ S0 _ _ C1) as S1.
  pose proof (derivable_pt_lim_scal _ (K * exp (- r * T)) _ _ C2) as S2.
  pose proof (derivable_pt_lim_minus _ _ _ _ _ S1 S2) as Hall.
  apply (derivable_pt_lim_ext _
           (fun s => black_scholes_value Phi S0 K r s T)) in Hall;
    [|intros s; reflexivity].
  replace (K * exp (- r * T)
           * gauss_density (d1_value S0 K r sigma T - sigma * sqrt T)
           * sqrt T)
    with (S0 * (gauss_density (d1_value S0 K r sigma T) * D)
          - K * exp (- r * T)
            * (gauss_density (d1_value S0 K r sigma T - sigma * sqrt T)
               * (D - sqrt T))); [exact Hall|].
  pose proof (density_identity sigma Hs) as Hid.
  set (a := gauss_density (d1_value S0 K r sigma T)) in *.
  set (b := gauss_density (d1_value S0 K r sigma T - sigma * sqrt T)) in *.
  replace (S0 * (a * D)) with (S0 * a * D) by ring. rewrite Hid. ring.
Qed.

(** The price does not fall when the volatility rises. *)
Lemma black_scholes_sigma_order (sigma1 sigma2 : R) :
  0 < sigma1 -> sigma1 <= sigma2 ->
  black_scholes_value Phi S0 K r sigma1 T
  <= black_scholes_value Phi S0 K r sigma2 T.
Proof.
  intros Hs1 [Hlt|Heq]; [|rewrite Heq; apply Rle_refl].
  destruct (MVT_cor2 (fun s => black_scholes_value Phi S0 K r s T)
              (fun s => K * exp (- r * T)
                        * gauss_density (d1_value S0 K r s T - s * sqrt T)
                        * sqrt T)
              sigma1 sigma2 Hlt) as (c & Hc & Hin).
  { intros c Hc. apply black_scholes_vega. lra. }
  pose proof (exp_pos (- r * T)) as He.
  pose proof (gauss_density_pos (d1_value S0 K r c T - c * sqrt T)) as Hg.
  pose proof (sqrt_lt_R0 T HT) as Hroot.
  assert (0 <= K * exp (- r * T)
               * gauss_density (d1_value S0 K r c T - c * sqrt T) * sqrt T)
    as Hpos.
  { left.
    apply Rmult_lt_0_compat;
      [apply Rmult_lt_0_compat; [apply Rmult_lt_0_compat|]|]; assumption. }
  assert (0 <= K * exp (- r * T)
               * gauss_density (d1_value S0 K r c T - c * sqrt T) * sqrt T
               * (sigma2 - sigma1)) as H
    by (apply Rmult_le_pos; lra).
  lra.
Qed.

End Vega.

End BlackScholesSigma.

(** ** The price against sigma, for the four functions *)

Section SigmaMonotone.

Local Open Scope R_scope.

Lemma sqrt_above (x : R) : 0 <= x <= 1 -> x <= sqrt x.
Proof.
  intros Hx. pose proof (sqrt_sqrt x ltac:(lra)) as Hs.
  pose proof (sqrt_pos x) as Hp.
  destruct (Rle_dec (sqrt x) 1) as [H|H]; nra.
Qed.

(** With a zero volatility at the money forward, [d1] is [0/0]: the
    formula returns [nan], whatever the distribution function is. *)
Lemma BlackScholesCall_nan (Phi : R -> R) :
  BlackScholesCall Phi 1 1 0 0 1 = Ok NaN.
Proof.
  unfold BlackScholesCall, d2. rewrite d1_ok by lra. cbn [bind].
  unfold np_log, np_sqrt.
  destruct (Rlt_dec 0 (1 / 1)) as [_|H]; [|lra].
  destruct (Rlt_dec 1 0) as [H|_]; [lra|].
  cbn [np_add np_mul np_div].
  destruct (Req_dec_T (0 * sqrt 1) 0) as [_|H]; [|lra].
  replace (1 / 1) with 1 by field. rewrite ln_1.
  destruct (Req_dec_T (0 + (0 + 0 ^ 2 / 2) * 1) 0) as [_|H]; [|lra].
  reflexivity.
Qed.




End SigmaMonotone.
